(** * steam_icp: the LIDAR-inertial odometry of [steam_lio.cpp]

    A shallow embedding of [src/odometry/steam_lio.cpp]: the frame
    preprocessing ([sub_sample_frame], [grid_sampling],
    [initializeTimestamp], [initializeMotion], [initializeFrame]), the
    registration [icp] with its knot bookkeeping, and the orchestrator
    [registerFrame].

    A C++ [double] is a primitive binary64 float, so comparisons and
    arithmetic are the ones the program performs.  The object is an explicit
    state record threaded through a state-and-exception monad; the state
    variables shared through [std::shared_ptr] live in a store and are named
    by their index in it.  What the file calls in Eigen, lgmath, steam and
    the voxel map is a field of the class [External]. *)

From Stdlib Require Import ZArith List String Floats Lia Bool.
From stdpp Require Import base option list gmap sets.

Local Open Scope float_scope.
(* Decimal literals are read as the nearest binary64 value, as a C++ compiler does. *)
Set Warnings "-inexact-float".

(** ** Doubles *)

Module Double.

(** [std::numeric_limits<double>::max()] and [::min()]: the largest finite
    value and the smallest positive normal value. *)
Definition DBL_MAX : float := 0x1.fffffffffffffp+1023.
Definition DBL_MIN : float := 0x1p-1022.

(** [M_PI] of <cmath>. *)
Definition M_PI : float := 0x1.921fb54442d18p+1.

Definition gtb (x y : float) : bool := y <? x.
Definition geb (x y : float) : bool := y <=? x.
(** [x != y] of C++: true on a NaN. *)
Definition neb (x y : float) : bool := negb (x =? y).

(** The integer part of a finite double (rounding toward zero). *)
Definition truncate (x : float) : option Z :=
  match Prim2SF x with
  | S754_zero _ => Some 0%Z
  | S754_finite s m e =>
      let a := if (0 <=? e)%Z then (Z.pos m * 2 ^ e)%Z
               else Z.shiftr (Z.pos m) (- e) in
      Some (if s then (- a)%Z else a)
  | S754_infinity _ | S754_nan => None
  end.

(** [static_cast<double>(n)] of an [int] or a [size_t]. *)
Definition of_Z (z : Z) : float :=
  if (z <? 0)%Z then - of_uint63 (Uint63.of_Z (- z))
  else of_uint63 (Uint63.of_Z z).

(** Wrap-around of a 16-bit two's complement integer. *)
Definition wrap16 (z : Z) : Z := ((z + 32768) mod 65536 - 32768)%Z.

(** [static_cast<short>(x)].  C++ leaves the conversion undefined when the
    integer part does not fit; the model follows the x86-64 code of the
    conversion ([cvttsd2si] to 32 bits, of which the low 16 are kept;
    the "integer indefinite" 0x80000000 when out of the 32-bit range). *)
Definition to_short (x : float) : Z :=
  match truncate x with
  | Some z =>
      if ((- 2147483648 <=? z) && (z <? 2147483648))%Z then wrap16 z else 0%Z
  | None => 0%Z
  end.

End Double.

(** ** Eigen: small fixed-size vectors and matrices *)

Definition Vector3d : Type := float * float * float.
Definition Vector6d : Type := list float.
(** Row-major: three rows. *)
Definition Matrix3d : Type := Vector3d * Vector3d * Vector3d.

(** A 4x4 matrix by blocks: [block<3,3>(0,0)], [block<3,1>(0,3)] and the
    last row. *)
Record Matrix4d := mkMatrix4d {
  block33 : Matrix3d;
  block31 : Vector3d;
  row3 : float * float * float * float
}.

Module Eigen.

Definition Vector3d_Zero : Vector3d := (0, 0, 0).
Definition Vector6d_Zero : Vector6d := [0; 0; 0; 0; 0; 0].
Definition Matrix3d_Zero : Matrix3d :=
  (Vector3d_Zero, Vector3d_Zero, Vector3d_Zero).
Definition Matrix3d_Identity : Matrix3d := ((1, 0, 0), (0, 1, 0), (0, 0, 1)).
Definition Matrix4d_Identity : Matrix4d :=
  mkMatrix4d Matrix3d_Identity Vector3d_Zero (0, 0, 0, 1).

Definition vadd (a b : Vector3d) : Vector3d :=
  let '(a0, a1, a2) := a in let '(b0, b1, b2) := b in
  (a0 + b0, a1 + b1, a2 + b2).
Definition vsub (a b : Vector3d) : Vector3d :=
  let '(a0, a1, a2) := a in let '(b0, b1, b2) := b in
  (a0 - b0, a1 - b1, a2 - b2).
Definition vscale (k : float) (a : Vector3d) : Vector3d :=
  let '(a0, a1, a2) := a in (k * a0, k * a1, k * a2).
Definition vdiv (a : Vector3d) (k : float) : Vector3d :=
  let '(a0, a1, a2) := a in (a0 / k, a1 / k, a2 / k).
Definition dot (a b : Vector3d) : float :=
  let '(a0, a1, a2) := a in let '(b0, b1, b2) := b in
  a0 * b0 + a1 * b1 + a2 * b2.
Definition norm (a : Vector3d) : float := sqrt (dot a a).
(** [v.normalized()]: [v] itself when its squared norm is not positive. *)
Definition normalized (a : Vector3d) : Vector3d :=
  if 0 <? dot a a then vdiv a (sqrt (dot a a)) else a.
Definition coeff (a : Vector3d) (k : nat) : float :=
  let '(a0, a1, a2) := a in
  match k with 0%nat => a0 | 1%nat => a1 | _ => a2 end.

Definition transpose (m : Matrix3d) : Matrix3d :=
  let '((a, b, c), (d, e, f), (g, h, i)) := m in
  ((a, d, g), (b, e, h), (c, f, i)).
Definition col (m : Matrix3d) (k : nat) : Vector3d :=
  let '(r0, r1, r2) := transpose m in
  match k with 0%nat => r0 | 1%nat => r1 | _ => r2 end.
Definition mvmul (m : Matrix3d) (v : Vector3d) : Vector3d :=
  let '(r0, r1, r2) := m in (dot r0 v, dot r1 v, dot r2 v).
Definition mmul (m n : Matrix3d) : Matrix3d :=
  let '(r0, r1, r2) := m in
  let '(c0, c1, c2) := transpose n in
  ((dot r0 c0, dot r0 c1, dot r0 c2),
   (dot r1 c0, dot r1 c1, dot r1 c2),
   (dot r2 c0, dot r2 c1, dot r2 c2)).
Definition trace (m : Matrix3d) : float :=
  let '((a, _, _), (_, e, _), (_, _, i)) := m in a + e + i.

(** [m.block<3, 1>(0, 3) = Zero]. *)
Definition zero_translation (m : Matrix4d) : Matrix4d :=
  mkMatrix4d (block33 m) Vector3d_Zero (row3 m).

End Eigen.

(** ** Points and voxels *)

(** [Point3D] (point.hpp): the sensor-frame and world-frame coordinates, the
    radial velocity, the time stamp normalised to the frame, the absolute
    time stamp and the beam. *)
Record Point3D := mkPoint3D {
  raw_pt : Vector3d;
  pt : Vector3d;
  radial_velocity : float;
  alpha_timestamp : float;
  timestamp : float;
  beam_id : Z
}.

(** [Voxel]: three [short] coordinates. *)
Definition Voxel : Type := Z * Z * Z.

(** The key under which [sub_sample_frame] bins a point. *)
Definition voxel_of (size_voxel : float) (p : Point3D) : Voxel :=
  let '(x, y, z) := pt p in
  (Double.to_short (x / size_voxel),
   Double.to_short (y / size_voxel),
   Double.to_short (z / size_voxel)).

(** [grid[k].push_back(p)] on a [std::unordered_map<Voxel, std::vector<Point3D>>]:
    [operator[]] creates the empty vector of an absent key. *)
Definition grid_push_back (grid : gmap Voxel (list Point3D)) (k : Voxel)
    (p : Point3D) : gmap Voxel (list Point3D) :=
  <[k := default [] (grid !! k) ++ [p]]> grid.

Definition bin_points (size_voxel : float) (frame : list Point3D)
    : gmap Voxel (list Point3D) :=
  foldl (fun grid p => grid_push_back grid (voxel_of size_voxel p) p) ∅ frame.

(** [sub_sample_frame]: the frame is replaced by the first point of every
    bucket.  The order in which an unordered map is traversed is
    unspecified; the model traverses in the order of [map_to_list]. *)
Definition sub_sample_frame (frame : list Point3D) (size_voxel : float)
    : list Point3D :=
  let grid := bin_points size_voxel frame in
  foldl (fun out (n : Voxel * list Point3D) =>
           match n.2 with
           | q :: _ => out ++ [q]
           | [] => out
           end) [] (map_to_list grid).

(** [grid_sampling]: the keypoints are a sub-sampled copy of the frame. *)
Definition grid_sampling (frame : list Point3D) (size_voxel_subsampling : float)
    : list Point3D :=
  let frame_sub := frame in
  let frame_sub := sub_sample_frame frame_sub size_voxel_subsampling in
  foldl (fun keypoints p => keypoints ++ [p]) [] frame_sub.

(** The distinct voxel keys of a frame, and the first point of the frame
    that falls in a given voxel. *)
Definition voxel_keys (size_voxel : float) (frame : list Point3D) : gset Voxel :=
  list_to_set (voxel_of size_voxel <$> frame).

Definition first_binned (size_voxel : float) (frame : list Point3D) (k : Voxel)
    : option Point3D :=
  head (filter (fun p => voxel_of size_voxel p = k) frame).

(** ** Configuration and input data *)

Inductive STEAM_LOSS_FUNC := L2 | DCS | CAUCHY | GM.

(** [SteamLioOdometry::Options] with the fields of [Odometry::Options] it
    inherits, as far as this file reads them. *)
Record Options := mkOptions {
  init_num_frames : Z;
  init_voxel_size : float;
  voxel_size : float;
  init_sample_voxel_size : float;
  sample_voxel_size : float;
  size_voxel_map : float;
  min_distance_points : float;
  max_num_points_in_voxel : Z;
  max_distance : float;
  min_number_neighbors : Z;
  max_number_neighbors : Z;
  num_iters_icp : Z;
  threshold_orientation_norm : float;
  threshold_translation_norm : float;
  min_number_keypoints : Z;
  debug_print : bool;
  T_sr : Matrix4d;
  qc_diag : Vector6d;
  ad_diag : Vector6d;
  num_extra_states : Z;
  power_planarity : float;
  p2p_max_dist : float;
  p2p_loss_func : STEAM_LOSS_FUNC;
  p2p_loss_sigma : float;
  verbose : bool;
  max_iterations : Z;
  num_threads : Z;
  delay_adding_points : Z;
  use_imu : bool;
  T_mi_init_only : bool;
  gravity : float;
  r_imu_acc : Vector3d;
  r_imu_ang : Vector3d;
  p0_imu : float;
  q_imu : float;
  qg_diag : Vector6d
}.

(** [steam::IMUData]. *)
Record IMUData := mkIMUData {
  imu_timestamp : float;
  lin_acc : Vector3d;
  ang_vel : Vector3d
}.

(** [steam::traj::Time] wraps a time stamp; the model keeps its value in
    seconds, which is what the file compares. *)
Definition Time : Type := float.

(** ** State variables, knots and cost terms *)

(** A state variable is named by its index in the store of the engine. *)
Definition VarId : Type := nat.

Inductive VarKind := K_T_rm | K_w_mr_inr | K_dw_mr_inr | K_imu_biases | K_T_mi.

(** [TrajectoryVar]: one knot of [trajectory_vars_]. *)
Record TrajectoryVar := mkTrajectoryVar {
  time : Time;
  T_rm : VarId;
  w_mr_inr : VarId;
  dw_mr_inr : VarId;
  imu_biases : VarId;
  T_mi : VarId
}.

Inductive LossFunc :=
| L2LossFunc
| L1LossFunc
| DcsLossFunc (sigma : float)
| CauchyLossFunc (sigma : float)
| GemanMcClureLossFunc (sigma : float)
| NullLossFunc.

Inductive NoiseType := COVARIANCE | INFORMATION.

(** [StaticNoiseModel<N>]: a square matrix, by rows. *)
Record NoiseModel := mkNoiseModel {
  noise_matrix : list (list float);
  noise_type : NoiseType
}.

(** [Identity() * k] of dimension [n], and a diagonal matrix. *)
Definition diagonal_matrix (d : list float) : list (list float) :=
  imap (fun i x => imap (fun j _ => if Nat.eqb i j then x else 0) d) d.
Definition scaled_identity (n : nat) (k : float) : list (list float) :=
  (fun row : list float => (fun x => x * k) <$> row) <$> diagonal_matrix (replicate n 1).
Definition vector3_list (v : Vector3d) : list float :=
  let '(a, b, c) := v in [a; b; c].
Definition matrix3_list (m : Matrix3d) : list (list float) :=
  let '(r0, r1, r2) := m in [vector3_list r0; vector3_list r1; vector3_list r2].

(** [steam::traj::singer::Interface] and [const_acc::Interface]: the knots
    that were added, each a time and its pose, velocity and acceleration
    variables, and the priors that were put on knot times.  The record
    keeps what was asked of the trajectory, in the order of the calls;
    the checks steam makes of a call ([add] of a knot whose time is not
    after the last one, a prior where there is no knot) are steam's and
    not part of it. *)
Definition Knot : Type := Time * VarId * VarId * VarId.

Inductive TrajectoryModel :=
| Singer (ad qc : Vector6d)
| ConstAcc (qc : Vector6d).

Record Interface := mkInterface {
  traj_model : TrajectoryModel;
  knots : list Knot;
  pose_priors : list (Time * list (list float));
  velocity_priors : list (Time * list (list float));
  acceleration_priors : list (Time * list (list float))
}.

Definition Interface_MakeShared (m : TrajectoryModel) : Interface :=
  mkInterface m [] [] [] [].
Definition Interface_add (k : Knot) (tr : Interface) : Interface :=
  mkInterface (traj_model tr) (knots tr ++ [k]) (pose_priors tr)
    (velocity_priors tr) (acceleration_priors tr).
Definition addPosePrior (t : Time) (cov : list (list float)) (tr : Interface) :=
  mkInterface (traj_model tr) (knots tr) (pose_priors tr ++ [(t, cov)])
    (velocity_priors tr) (acceleration_priors tr).
Definition addVelocityPrior (t : Time) (cov : list (list float)) (tr : Interface) :=
  mkInterface (traj_model tr) (knots tr) (pose_priors tr)
    (velocity_priors tr ++ [(t, cov)]) (acceleration_priors tr).
Definition addAccelerationPrior (t : Time) (cov : list (list float)) (tr : Interface) :=
  mkInterface (traj_model tr) (knots tr) (pose_priors tr) (velocity_priors tr)
    (acceleration_priors tr ++ [(t, cov)]).

(** The error functions the file builds. *)

Inductive ErrorFunc :=
(** [vspace::vspace_error<6>(bias, b_zero)] *)
| BiasPriorError (bias : VarId) (meas : Vector6d)
(** [se3_error(T_mi, T)] *)
| TmiPriorError (T_mi_var : VarId)
(** [bias_i + (- bias_(i+1))] *)
| BiasRandomWalkError (bias_i bias_next : VarId)
(** [se3_error(compose_rinv(T_mi_(i+1), T_mi_i), T)] *)
| TmiRandomWalkError (T_mi_next T_mi_i : VarId)
(** [imu::GyroError(w(t), bias, ang_vel)]: the body rate interpolated at
    [t], minus the measured rate corrected by the gyroscope bias. *)
| GyroError (t : Time) (bias : VarId) (gyro_meas : Vector3d)
(** [p2p::p2pError(T_ms(t), reference, query)] *)
| P2PError (t : Time) (reference query : Vector3d).

(** [WeightedLeastSqCostTerm<N>::MakeShared(error, noise, loss)]. *)
Record CostTerm := mkCostTerm {
  error_func : ErrorFunc;
  noise_model : NoiseModel;
  loss_func : LossFunc
}.

Definition is_T_mi_cost (c : CostTerm) : bool :=
  match error_func c with
  | TmiPriorError _ | TmiRandomWalkError _ _ => true
  | _ => false
  end.

Definition is_gyro_cost (c : CostTerm) : bool :=
  match error_func c with GyroError _ _ _ => true | _ => false end.

(** [Neighborhood]. *)
Record Neighborhood := mkNeighborhood {
  center : Vector3d;
  normal : Vector3d;
  covariance : Matrix3d;
  a2D : float
}.

(** [TrajectoryFrame] (trajectory.hpp), as far as this file reads and
    writes it; the covariance blocks are left out. *)
Record TrajectoryFrame := mkTrajectoryFrame {
  begin_timestamp : float;
  end_timestamp : float;
  eval_timestamp : float;
  begin_R : Matrix3d;
  begin_t : Vector3d;
  end_R : Matrix3d;
  end_t : Vector3d;
  mid_pose : Matrix4d;
  mid_w : Vector6d;
  mid_dw : Vector6d;
  mid_b : Vector6d;
  mid_T_mi : Matrix4d;
  points : list Point3D
}.

(** The frame [trajectory_.emplace_back()] appends. *)
Definition TrajectoryFrame_new : TrajectoryFrame :=
  mkTrajectoryFrame 0 0 0 Eigen.Matrix3d_Identity Eigen.Vector3d_Zero
    Eigen.Matrix3d_Identity Eigen.Vector3d_Zero Eigen.Matrix4d_Identity
    Eigen.Vector6d_Zero Eigen.Vector6d_Zero Eigen.Vector6d_Zero
    Eigen.Matrix4d_Identity [].

Definition set_timestamps (b e ev : float) (f : TrajectoryFrame) : TrajectoryFrame :=
  mkTrajectoryFrame b e ev (begin_R f) (begin_t f) (end_R f) (end_t f)
    (mid_pose f) (mid_w f) (mid_dw f) (mid_b f) (mid_T_mi f) (points f).
Definition set_poses (bR : Matrix3d) (bt : Vector3d) (eR : Matrix3d) (et : Vector3d)
    (f : TrajectoryFrame) : TrajectoryFrame :=
  mkTrajectoryFrame (begin_timestamp f) (end_timestamp f) (eval_timestamp f)
    bR bt eR et (mid_pose f) (mid_w f) (mid_dw f) (mid_b f) (mid_T_mi f) (points f).
Definition setMidPose (m : Matrix4d) (f : TrajectoryFrame) : TrajectoryFrame :=
  mkTrajectoryFrame (begin_timestamp f) (end_timestamp f) (eval_timestamp f)
    (begin_R f) (begin_t f) (end_R f) (end_t f) m (mid_w f) (mid_dw f) (mid_b f)
    (mid_T_mi f) (points f).
Definition set_mid_state (w dw : Vector6d) (Tmi : Matrix4d) (f : TrajectoryFrame)
    : TrajectoryFrame :=
  mkTrajectoryFrame (begin_timestamp f) (end_timestamp f) (eval_timestamp f)
    (begin_R f) (begin_t f) (end_R f) (end_t f) (mid_pose f) w dw (mid_b f)
    Tmi (points f).
Definition set_mid_b (b : Vector6d) (f : TrajectoryFrame) : TrajectoryFrame :=
  mkTrajectoryFrame (begin_timestamp f) (end_timestamp f) (eval_timestamp f)
    (begin_R f) (begin_t f) (end_R f) (end_t f) (mid_pose f) (mid_w f) (mid_dw f)
    b (mid_T_mi f) (points f).
Definition set_points (ps : list Point3D) (f : TrajectoryFrame) : TrajectoryFrame :=
  mkTrajectoryFrame (begin_timestamp f) (end_timestamp f) (eval_timestamp f)
    (begin_R f) (begin_t f) (end_R f) (end_t f) (mid_pose f) (mid_w f) (mid_dw f)
    (mid_b f) (mid_T_mi f) ps.

Definition set_pt (x : Vector3d) (p : Point3D) : Point3D :=
  mkPoint3D (raw_pt p) x (radial_velocity p) (alpha_timestamp p) (timestamp p)
    (beam_id p).

(** [RegistrationSummary]. *)
Record RegistrationSummary := mkRegistrationSummary {
  success : bool;
  keypoints : list Point3D;
  corrected_points : list Point3D;
  R_ms : Matrix3d;
  t_ms : Vector3d
}.

(** ** The libraries the file calls

    [<cmath>], [<random>], Eigen's decompositions, lgmath's transformations,
    steam's trajectory interpolation, sliding-window filter and solver, and
    the voxel map of [map.hpp] are outside this file.  Their operations are
    the fields of one class; the engine is defined over an arbitrary
    instance. *)
Class External := {
  (** <cmath> *)
  std_acos : float -> float;
  std_pow : float -> float -> float;
  (** [std::mt19937_64] and [std::shuffle(first, last, g)], which advances [g] *)
  mt19937_64 : Type;
  mt19937_64_default : mt19937_64;
  std_shuffle : list Point3D -> mt19937_64 -> list Point3D * mt19937_64;
  (** Eigen *)
  Matrix4d_mul : Matrix4d -> Matrix4d -> Matrix4d;
  Matrix4d_inverse : Matrix4d -> Matrix4d;
  Matrix3d_inverse : Matrix3d -> Matrix3d;
  (** [Quaterniond(Ra).slerp(alpha, Quaterniond(Rb)).normalized().toRotationMatrix()] *)
  slerp_rotation : Matrix3d -> Matrix3d -> float -> Matrix3d;
  (** [SelfAdjointEigenSolver<Matrix3d>]: eigenvalues (increasing) and
      eigenvectors (columns) *)
  SelfAdjointEigenSolver : Matrix3d -> Vector3d * Matrix3d;
  (** lgmath *)
  Transformation : Type;
  Transformation_default : Transformation;
  Transformation_of_matrix : Matrix4d -> Transformation;
  Transformation_matrix : Transformation -> Matrix4d;
  Transformation_vec : Transformation -> Vector6d;
  Transformation_inverse : Transformation -> Transformation;
  Transformation_compose : Transformation -> Transformation -> Transformation;
  (** steam: [SE3StateVar::update(perturbation)] *)
  SE3StateVar_update : Transformation -> Vector6d -> Transformation;
  (** steam: pose, velocity and acceleration of a trajectory at a time
      ([getPoseInterpolator(t)->evaluate()] and the like), from the values
      of the store *)
  Interface_evaluate :
    Interface -> list (Transformation + Vector6d) -> Time ->
    Transformation * Vector6d * Vector6d;
  (** steam: the sliding-window filter *)
  SlidingWindowFilter : Type;
  addStateVariable : SlidingWindowFilter -> list VarId -> SlidingWindowFilter;
  marginalizeVariable :
    SlidingWindowFilter -> list (Transformation + Vector6d) -> list VarId ->
    SlidingWindowFilter;
  addCostTerm : SlidingWindowFilter -> CostTerm -> SlidingWindowFilter;
  (** [trajectory->addPriorCostTerms(problem)] *)
  addPriorCostTerms : Interface -> SlidingWindowFilter -> SlidingWindowFilter;
  getNumberOfVariables : SlidingWindowFilter -> Z;
  getNumberOfCostTerms : SlidingWindowFilter -> Z;
  (** steam: [GaussNewtonSolver(problem, params).optimize()], from the
      values of the store to the values it proposes, or an exception *)
  GaussNewtonSolver_optimize :
    SlidingWindowFilter -> Z -> list (Transformation + Vector6d) ->
    string + list (Transformation + Vector6d);
  (** the voxel map *)
  VoxelMap : Type;
  Map_add : VoxelMap -> list Point3D -> float -> Z -> float -> VoxelMap;
  Map_remove : VoxelMap -> Vector3d -> float -> VoxelMap;
  Map_searchNeighbors : VoxelMap -> Vector3d -> Z -> float -> Z -> list Vector3d
}.

(** ** The engine and its monad *)

Inductive Problem := IcpProblem (iter : Z) | SlidingWindowProblem.

(** The calls into steam's filter and solver, in the order they are made. *)
Inductive Event :=
| E_addStateVariable (vars : list VarId)
| E_marginalizeVariable (vars : list VarId)
| E_addCostTerm (p : Problem) (c : CostTerm)
| E_addPriorCostTerms (p : Problem) (tr : Interface)
| E_optimize (p : Problem) (max_iterations : Z)
| E_LOG_INFO (msg : string) (n : Z).

(** The solves and the messages of a log. *)
Definition loop_trace (l : list Event) : list Event :=
  List.filter (fun e => match e with
                        | E_optimize _ _ | E_LOG_INFO _ _ => true
                        | _ => false
                        end) l.

(** How a call ends: with a value, with a C++ exception, or in an unchecked
    access past the end of a vector (undefined behaviour). *)
Inductive Outcome (A : Type) : Type :=
| Ret (a : A)
| Throw (what : string)
| OutOfBounds (container : string) (index : Z) (size : nat).
Arguments Ret {A} a.
Arguments Throw {A} what.
Arguments OutOfBounds {A} container index size.

(** A state variable of steam: its value, a transformation or a vector,
    and whether it is locked. *)
Record StateVarOf (T : Type) := mkStateVar {
  var_kind : VarKind;
  var_value : T + Vector6d;
  var_locked : bool
}.
Arguments mkStateVar {T} _ _ _.
Arguments var_kind {T} _.
Arguments var_value {T} _.
Arguments var_locked {T} _.

(** [SteamLioOdometry]: the members the file uses, the store of the state
    variables its shared pointers point to, and the log of calls.  The
    record is over the types of the transformations, of the map and of the
    filter. *)
Record SteamLioOdometryOf (T VM SWF : Type) := mkSteamLioOdometry {
  options_ : Options;
  trajectory_ : list TrajectoryFrame;
  trajectory_vars_ : list TrajectoryVar;
  to_marginalize_ : Z;
  map_ : VM;
  sliding_window_filter_ : SWF;
  T_i_r_gt_poses : list Matrix4d;
  state_vars_ : list (StateVarOf T);
  steam_log_ : list Event
}.
Arguments mkSteamLioOdometry {T VM SWF} _ _ _ _ _ _ _ _ _.
Arguments options_ {T VM SWF} _.
Arguments trajectory_ {T VM SWF} _.
Arguments trajectory_vars_ {T VM SWF} _.
Arguments to_marginalize_ {T VM SWF} _.
Arguments map_ {T VM SWF} _.
Arguments sliding_window_filter_ {T VM SWF} _.
Arguments T_i_r_gt_poses {T VM SWF} _.
Arguments state_vars_ {T VM SWF} _.
Arguments steam_log_ {T VM SWF} _.

(** What the first part of [icp] leaves on the stack. *)
Record PreviousStateOf (T : Type) := mkPreviousState {
  prev_trajectory_var_index : Z;
  prev_time : float;
  prev_imu_biases : Vector6d;
  prev_T_mi : T;
  prev_T_mi_var : VarId;
  previous_trajectory : Interface;
  previous_state_vars : list VarId
}.
Arguments mkPreviousState {T} _ _ _ _ _ _ _.
Arguments prev_trajectory_var_index {T} _.
Arguments prev_time {T} _.
Arguments prev_imu_biases {T} _.
Arguments prev_T_mi {T} _.
Arguments prev_T_mi_var {T} _.
Arguments previous_trajectory {T} _.
Arguments previous_state_vars {T} _.

(** What the setup of [icp] leaves for the loop and for the final solve. *)
Record IcpContextOf (T : Type) := mkIcpContext {
  icp_prev : PreviousStateOf T;
  steam_trajectory : Interface;
  steam_state_vars : list VarId;
  imu_cost_terms : list CostTerm;
  imu_prior_cost_terms : list CostTerm;
  T_mi_prior_cost_terms : list CostTerm
}.
Arguments mkIcpContext {T} _ _ _ _ _ _.
Arguments icp_prev {T} _.
Arguments steam_trajectory {T} _.
Arguments steam_state_vars {T} _.
Arguments imu_cost_terms {T} _.
Arguments imu_prior_cost_terms {T} _.
Arguments T_mi_prior_cost_terms {T} _.

(** The variables of the loop of [icp] that outlive an iteration. *)
Record LoopState := mkLoopState {
  loop_keypoints : list Point3D;
  meas_cost_terms : list CostTerm;
  number_keypoints_used : Z;
  icp_success : bool
}.

Abbreviation Value := (Transformation + Vector6d)%type.
Abbreviation PreviousState := (PreviousStateOf Transformation).
Abbreviation IcpContext := (IcpContextOf Transformation).
Abbreviation StateVar := (StateVarOf Transformation).
Abbreviation SteamLioOdometry :=
  (SteamLioOdometryOf Transformation VoxelMap SlidingWindowFilter).

Section Engine.

Context `{External}.

Definition set_trajectory_ (x : list TrajectoryFrame) (s : SteamLioOdometry) :=
  mkSteamLioOdometry (options_ s) x (trajectory_vars_ s) (to_marginalize_ s)
    (map_ s) (sliding_window_filter_ s) (T_i_r_gt_poses s) (state_vars_ s)
    (steam_log_ s).
Definition set_trajectory_vars_ (x : list TrajectoryVar) (s : SteamLioOdometry) :=
  mkSteamLioOdometry (options_ s) (trajectory_ s) x (to_marginalize_ s)
    (map_ s) (sliding_window_filter_ s) (T_i_r_gt_poses s) (state_vars_ s)
    (steam_log_ s).
Definition set_to_marginalize_ (x : Z) (s : SteamLioOdometry) :=
  mkSteamLioOdometry (options_ s) (trajectory_ s) (trajectory_vars_ s) x
    (map_ s) (sliding_window_filter_ s) (T_i_r_gt_poses s) (state_vars_ s)
    (steam_log_ s).
Definition set_map_ (x : VoxelMap) (s : SteamLioOdometry) :=
  mkSteamLioOdometry (options_ s) (trajectory_ s) (trajectory_vars_ s)
    (to_marginalize_ s) x (sliding_window_filter_ s) (T_i_r_gt_poses s)
    (state_vars_ s) (steam_log_ s).
Definition set_sliding_window_filter_ (x : SlidingWindowFilter)
    (s : SteamLioOdometry) :=
  mkSteamLioOdometry (options_ s) (trajectory_ s) (trajectory_vars_ s)
    (to_marginalize_ s) (map_ s) x (T_i_r_gt_poses s) (state_vars_ s)
    (steam_log_ s).
Definition set_state_vars_ (x : list StateVar) (s : SteamLioOdometry) :=
  mkSteamLioOdometry (options_ s) (trajectory_ s) (trajectory_vars_ s)
    (to_marginalize_ s) (map_ s) (sliding_window_filter_ s) (T_i_r_gt_poses s)
    x (steam_log_ s).
Definition set_steam_log_ (x : list Event) (s : SteamLioOdometry) :=
  mkSteamLioOdometry (options_ s) (trajectory_ s) (trajectory_vars_ s)
    (to_marginalize_ s) (map_ s) (sliding_window_filter_ s) (T_i_r_gt_poses s)
    (state_vars_ s) x.

(** State passing with exceptions: the state reached when an exception is
    raised is kept, as C++ does. *)
Definition M (A : Type) : Type := SteamLioOdometry -> Outcome A * SteamLioOdometry.

Definition ret {A} (a : A) : M A := fun s => (Ret a, s).
Definition bind {A B} (m : M A) (k : A -> M B) : M B :=
  fun s =>
    match m s with
    | (Ret a, s') => k a s'
    | (Throw what, s') => (Throw what, s')
    | (OutOfBounds c i n, s') => (OutOfBounds c i n, s')
    end.
Definition throw {A} (what : string) : M A := fun s => (Throw what, s).
Definition out_of_bounds {A} (c : string) (i : Z) (n : nat) : M A :=
  fun s => (OutOfBounds c i n, s).
Definition gets {A} (f : SteamLioOdometry -> A) : M A := fun s => (Ret (f s), s).
Definition modify (f : SteamLioOdometry -> SteamLioOdometry) : M unit :=
  fun s => (Ret tt, f s).
Definition when (b : bool) (m : M unit) : M unit := if b then m else ret tt.

#[global] Instance M_ret : MRet M := @ret.
#[global] Instance M_bind : MBind M := fun A B k m => bind m k.

(** [for (x : l) body], with the accumulator of the loop. *)
Fixpoint for_each {A B} (l : list A) (body : B -> A -> M B) (acc : B) : M B :=
  match l with
  | [] => ret acc
  | x :: l' => acc' ← body acc x; for_each l' body acc'
  end.

Definition log (e : Event) : M unit :=
  modify (fun s => set_steam_log_ (steam_log_ s ++ [e]) s).

(** *** Vectors of the engine *)

Definition in_range {A} (l : list A) (i : Z) : bool :=
  ((0 <=? i) && (i <? Z.of_nat (length l)))%Z.

(** [v[i]]: unchecked. *)
Definition index {A} (name : string) (l : list A) (i : Z) : M A :=
  match (if (0 <=? i)%Z then l !! Z.to_nat i else None) with
  | Some x => ret x
  | None => out_of_bounds name i (length l)
  end.

(** [v.at(i)]: [std::out_of_range] past the end. *)
Definition at_ {A} (l : list A) (i : Z) : M A :=
  match (if (0 <=? i)%Z then l !! Z.to_nat i else None) with
  | Some x => ret x
  | None => throw "vector::_M_range_check"
  end.

Definition frame_index (i : Z) : M TrajectoryFrame :=
  fr ← gets trajectory_; index "trajectory_" fr i.
Definition frame_at (i : Z) : M TrajectoryFrame :=
  fr ← gets trajectory_; at_ fr i.
Definition var_index (i : Z) : M TrajectoryVar :=
  vs ← gets trajectory_vars_; index "trajectory_vars_" vs i.
Definition var_at (i : Z) : M TrajectoryVar :=
  vs ← gets trajectory_vars_; at_ vs i.

(** [trajectory_[i].field = ...] *)
Definition modify_frame (i : Z) (f : TrajectoryFrame -> TrajectoryFrame) : M unit :=
  fr ← frame_index i;
  modify (fun s => set_trajectory_ (<[Z.to_nat i := f fr]> (trajectory_ s)) s).

(** *** The store of state variables *)

(** [SE3StateVar::MakeShared(T)], [VSpaceStateVar<6>::MakeShared(v)]: a
    fresh, unlocked variable. *)
Definition MakeShared (k : VarKind) (v : Value) : M VarId :=
  id ← gets (fun s => length (state_vars_ s));
  modify (fun s => set_state_vars_ (state_vars_ s ++ [mkStateVar k v false]) s);;
  ret id.

Definition value_T (v : Value) : Transformation :=
  match v with inl T => T | inr _ => Transformation_default end.
Definition value_v (v : Value) : Vector6d :=
  match v with inr x => x | inl _ => Eigen.Vector6d_Zero end.

Definition store_T (store : list StateVar) (id : VarId) : Transformation :=
  from_option (fun x => value_T (var_value x)) Transformation_default (store !! id).
Definition store_v (store : list StateVar) (id : VarId) : Vector6d :=
  from_option (fun x => value_v (var_value x)) Eigen.Vector6d_Zero (store !! id).
Definition store_locked (store : list StateVar) (id : VarId) : bool :=
  from_option var_locked false (store !! id).

(** [var->value()], [var->locked()] *)
Definition value_of_T (id : VarId) : M Transformation :=
  gets (fun s => store_T (state_vars_ s) id).
Definition value_of_v (id : VarId) : M Vector6d :=
  gets (fun s => store_v (state_vars_ s) id).
Definition locked (id : VarId) : M bool :=
  gets (fun s => store_locked (state_vars_ s) id).

Definition alter_var (id : VarId) (f : StateVar -> StateVar) : M unit :=
  modify (fun s => set_state_vars_ (alter f id (state_vars_ s)) s).
(** [var->update(perturbation)] *)
Definition update (id : VarId) (xi : Vector6d) : M unit :=
  alter_var id (fun x =>
    mkStateVar (var_kind x)
      (inl (SE3StateVar_update (value_T (var_value x)) xi)) (var_locked x)).
(** [var->locked() = true] *)
Definition lock (id : VarId) : M unit :=
  alter_var id (fun x => mkStateVar (var_kind x) (var_value x) true).

(** *** The filter and the solver *)

Definition swf_addStateVariable (vars : list VarId) : M unit :=
  modify (fun s =>
    set_sliding_window_filter_ (addStateVariable (sliding_window_filter_ s) vars) s);;
  log (E_addStateVariable vars).

Definition swf_marginalizeVariable (vars : list VarId) : M unit :=
  modify (fun s =>
    set_sliding_window_filter_
      (marginalizeVariable (sliding_window_filter_ s)
         (var_value <$> state_vars_ s) vars) s);;
  log (E_marginalizeVariable vars).

Definition swf_addCostTerm (c : CostTerm) : M unit :=
  modify (fun s =>
    set_sliding_window_filter_ (addCostTerm (sliding_window_filter_ s) c) s);;
  log (E_addCostTerm SlidingWindowProblem c).

(** The variables that were handed to the filter so far. *)
Definition enrolled (l : list Event) : list VarId :=
  flat_map (fun e => match e with E_addStateVariable vs => vs | _ => [] end) l.

(** A solver writes the variables of its problem that are not locked:
    the proposed value is stored in the unlocked variables that were
    added to the filter, and in no other. *)
Definition commit (enr : list VarId) (proposal : list Value)
    (store : list StateVar) : list StateVar :=
  imap (fun id x =>
          match proposal !! id with
          | Some v =>
              if bool_decide (id ∈ enr) && negb (var_locked x)
              then mkStateVar (var_kind x) v (var_locked x) else x
          | None => x
          end) store.

(** [GaussNewtonSolver solver(problem, params); solver.optimize();] *)
Definition optimize (p : Problem) (problem : SlidingWindowFilter)
    (max_iter : Z) : M unit :=
  log (E_optimize p max_iter);;
  store ← gets state_vars_;
  match GaussNewtonSolver_optimize problem max_iter (var_value <$> store) with
  | inl what => throw what
  | inr proposal =>
      modify (fun s =>
        set_state_vars_ (commit (enrolled (steam_log_ s)) proposal (state_vars_ s)) s)
  end.

(** *** Helpers of the anonymous namespace *)

Definition lift {A} (r : Outcome A) : M A := fun s => (r, s).

Definition AngularDistance (rota rotb : Matrix3d) : float :=
  let norm := (Eigen.trace (Eigen.mmul rota (Eigen.transpose rotb)) - 1) / 2 in
  let norm := std_acos norm * 180 / Double.M_PI in
  norm.

(** The upper triangle of the scatter matrix, one point at a time. *)
Definition covariance_add (barycenter : Vector3d)
    (c : float * float * float * float * float * float) (point : Vector3d) :=
  let '(c00, c01, c02, c11, c12, c22) := c in
  let d k := Eigen.coeff point k - Eigen.coeff barycenter k in
  (c00 + d 0%nat * d 0%nat, c01 + d 0%nat * d 1%nat, c02 + d 0%nat * d 2%nat,
   c11 + d 1%nat * d 1%nat, c12 + d 1%nat * d 2%nat, c22 + d 2%nat * d 2%nat).

Definition compute_neighborhood_distribution (points : list Vector3d)
    : Outcome Neighborhood :=
  let barycenter := foldl Eigen.vadd Eigen.Vector3d_Zero points in
  let barycenter := Eigen.vdiv barycenter (Double.of_Z (Z.of_nat (length points))) in
  let '(c00, c01, c02, c11, c12, c22) :=
    foldl (covariance_add barycenter) (0, 0, 0, 0, 0, 0) points in
  let covariance_Matrix : Matrix3d :=
    ((c00, c01, c02), (c01, c11, c12), (c02, c12, c22)) in
  let '(eigenvalues, eigenvectors) := SelfAdjointEigenSolver covariance_Matrix in
  let normal := Eigen.normalized (Eigen.col eigenvectors 0) in
  let sigma_1 := sqrt (abs (Eigen.coeff eigenvalues 2)) in
  let sigma_2 := sqrt (abs (Eigen.coeff eigenvalues 1)) in
  let sigma_3 := sqrt (abs (Eigen.coeff eigenvalues 0)) in
  let a2D := (sigma_2 - sigma_3) / sigma_1 in
  if Double.neb a2D a2D then Throw "error"
  else Ret (mkNeighborhood barycenter normal covariance_Matrix a2D).

(** *** Frame preprocessing *)

(** The scan of [initializeTimestamp]: the running minimum and maximum of
    the time stamps, from their initial values. *)
Definition scan_timestamps (points : list Point3D) : float * float :=
  foldl (fun '(min_timestamp, max_timestamp) point =>
           let max_timestamp :=
             if Double.gtb (timestamp point) max_timestamp
             then timestamp point else max_timestamp in
           let min_timestamp :=
             if timestamp point <? min_timestamp
             then timestamp point else min_timestamp in
           (min_timestamp, max_timestamp))
        (Double.DBL_MAX, Double.DBL_MIN) points.

Definition initializeTimestamp (index_frame : Z)
    (const_frame : float * list Point3D * list IMUData) : M unit :=
  let '(t_eval, const_points, _) := const_frame in
  let '(min_timestamp, max_timestamp) := scan_timestamps const_points in
  modify_frame index_frame (set_timestamps min_timestamp max_timestamp t_eval).

Definition initializeMotion (index_frame : Z) : M unit :=
  o ← gets options_;
  if (index_frame <=? 1)%Z then
    let T_rs := Matrix4d_inverse (T_sr o) in
    modify_frame index_frame
      (set_poses (block33 T_rs) (block31 T_rs) (block33 T_rs) (block31 T_rs))
  else
    f1 ← frame_index (index_frame - 1);
    f2 ← frame_index (index_frame - 2);
    let R_next_end :=
      Eigen.mmul (Eigen.mmul (end_R f1) (Matrix3d_inverse (end_R f2))) (end_R f1) in
    let t_next_end :=
      Eigen.vadd (end_t f1)
        (Eigen.mvmul (Eigen.mmul (end_R f1) (Matrix3d_inverse (end_R f2)))
           (Eigen.vsub (end_t f1) (end_t f2))) in
    modify_frame index_frame (set_poses (end_R f1) (end_t f1) R_next_end t_next_end).

(** The world coordinates of a point of a frame, between its begin and
    its end pose. *)
Definition place (fr : TrajectoryFrame) (point : Point3D) : Point3D :=
  let alpha_timestamp := alpha_timestamp point in
  let R := slerp_rotation (begin_R fr) (end_R fr) alpha_timestamp in
  let t := Eigen.vadd (Eigen.vscale (1 - alpha_timestamp) (begin_t fr))
                      (Eigen.vscale alpha_timestamp (end_t fr)) in
  set_pt (Eigen.vadd (Eigen.mvmul R (raw_pt point)) t) point.

Definition initializeFrame (index_frame : Z) (const_frame : list Point3D)
    : M (list Point3D) :=
  o ← gets options_;
  let frame := const_frame in
  let sample_size :=
    if (index_frame <? init_num_frames o)%Z then init_voxel_size o else voxel_size o in
  let g := mt19937_64_default in
  let '(frame, g) := std_shuffle frame g in
  let frame := sub_sample_frame frame sample_size in
  let '(frame, g) := std_shuffle frame g in
  fr ← frame_index index_frame;
  ret (place fr <$> frame).

(** *** The map update *)

Definition knot_of (var : TrajectoryVar) : Knot :=
  (time var, T_rm var, w_mr_inr var, dw_mr_inr var).

(** The loop of [updateMap] over the knots from [to_marginalize_ - 1]. *)
Fixpoint updateMap_knots (vars : list TrajectoryVar) (end_steam_time : Time)
    (update_trajectory : Interface) : Outcome Interface :=
  match vars with
  | [] => Ret update_trajectory
  | var :: vars' =>
      let update_trajectory := Interface_add (knot_of var) update_trajectory in
      if time var =? end_steam_time then Ret update_trajectory
      else if Double.gtb (time var) end_steam_time
           then Throw "var.time > end_steam_time, should not happen"
           else updateMap_knots vars' end_steam_time update_trajectory
  end.

(** [inverse(compose(T_sr_var_, T_rm(t)))->evaluate().matrix()] *)
Definition T_ms_at (o : Options) (tr : Interface) (values : list Value) (t : Time)
    : Matrix4d :=
  Transformation_matrix
    (Transformation_inverse
       (Transformation_compose (Transformation_of_matrix (T_sr o))
          (Interface_evaluate tr values t).1.1)).

Definition deskew (o : Options) (tr : Interface) (values : list Value)
    (p : Point3D) : Point3D :=
  let T_ms := T_ms_at o tr values (timestamp p) in
  set_pt (Eigen.vadd (Eigen.mvmul (block33 T_ms) (raw_pt p)) (block31 T_ms)) p.

Definition updateMap (index_frame update_frame : Z) : M unit :=
  o ← gets options_;
  uf ← frame_index update_frame;
  let frame := points uf in
  let end_steam_time := end_timestamp uf in
  to_marg ← gets to_marginalize_;
  vars ← gets trajectory_vars_;
  (* size_t i = to_marginalize_ - 1 wraps past every index when the pointer is 0 *)
  let from := if (to_marg <=? 0)%Z then [] else drop (Z.to_nat (to_marg - 1)) vars in
  update_trajectory ←
    lift (updateMap_knots from end_steam_time
            (Interface_MakeShared (ConstAcc (qc_diag o))));
  store ← gets state_vars_;
  let frame := deskew o update_trajectory (var_value <$> store) <$> frame in
  modify (fun s =>
    set_map_ (Map_add (map_ s) frame (size_voxel_map o)
                (max_num_points_in_voxel o) (min_distance_points o)) s);;
  modify_frame update_frame (set_points []);;
  cf ← frame_index index_frame;
  modify (fun s => set_map_ (Map_remove (map_ s) (end_t cf) (max_distance o)) s).

(** *** [icp]: the states of the frame *)

(** The local flag of [icp]. *)
Definition use_T_mi_gt : bool := true.

(** [T_mi_gt]: from the ground-truth pose of the frame, its translation
    zeroed, and the previous pose. *)
Definition T_mi_gt_of (T_i_r_gt : Matrix4d) (prev_T_rm : Transformation)
    : Transformation :=
  let T_i_r_gt := Eigen.zero_translation T_i_r_gt in
  let T_mi_gt_mat :=
    Matrix4d_inverse (Matrix4d_mul T_i_r_gt (Transformation_matrix prev_T_rm)) in
  let T_mi_gt_mat := Eigen.zero_translation T_mi_gt_mat in
  Transformation_of_matrix T_mi_gt_mat.

(** The state at the end of the previous scan opens the trajectory of the
    frame. *)
Definition icp_previous_state (index_frame : Z) : M PreviousState :=
  o ← gets options_;
  vars ← gets trajectory_vars_;
  let prev_trajectory_var_index := (Z.of_nat (length vars) - 1)%Z in
  prev_frame ← frame_index (index_frame - 1);
  let prev_time := end_timestamp prev_frame in
  back ← index "trajectory_vars_" vars prev_trajectory_var_index;
  if Double.neb (time back) prev_time
  then throw "missing previous scan end variable"
  else
    let prev_steam_time := time back in
    prev_T_rm ← value_of_T (T_rm back);
    prev_imu_biases ← value_of_v (imu_biases back);
    prev_T_mi ← value_of_T (T_mi back);
    gt ← gets T_i_r_gt_poses;
    T_i_r_gt ← index "T_i_r_gt_poses" gt index_frame;
    let T_mi_gt := T_mi_gt_of T_i_r_gt prev_T_rm in
    let prev_T_mi_var := T_mi back in
    let steam_trajectory :=
      Interface_add (prev_steam_time, T_rm back, w_mr_inr back, dw_mr_inr back)
        (Interface_MakeShared (Singer (ad_diag o) (qc_diag o))) in
    let steam_state_vars := [T_rm back; w_mr_inr back; dw_mr_inr back] in
    steam_state_vars ←
      (if use_imu o then
         let steam_state_vars := steam_state_vars ++ [imu_biases back] in
         if negb use_T_mi_gt then
           ret (if negb (T_mi_init_only o) || (index_frame =? 1)%Z
                then steam_state_vars ++ [prev_T_mi_var]
                else steam_state_vars)
         else
           update prev_T_mi_var (Transformation_vec T_mi_gt);;
           lock prev_T_mi_var;;
           ret steam_state_vars
       else ret steam_state_vars);
    ret (mkPreviousState prev_trajectory_var_index prev_time prev_imu_biases
           prev_T_mi prev_T_mi_var steam_trajectory steam_state_vars).

Definition knot_times (o : Options) (prev_time curr_time : float) : list float :=
  let num_states := (num_extra_states o + 1)%Z in
  let time_diff := (curr_time - prev_time) / Double.of_Z num_states in
  ((fun i : Z => prev_time + Double.of_Z (i + 1) * time_diff)
     <$> seqZ 0 (num_extra_states o)) ++ [curr_time].

Definition push_knot (k : TrajectoryVar) : M unit :=
  modify (fun s => set_trajectory_vars_ (trajectory_vars_ s ++ [k]) s).

(** One new knot: its variables start from the extrapolated trajectory
    and from the previous bias. *)
Definition icp_add_state (o : Options) (prev : PreviousState)
    (acc : Interface * list VarId * Z) (knot_time : float)
    : M (Interface * list VarId * Z) :=
  let '(steam_trajectory, steam_state_vars, curr_trajectory_var_index) := acc in
  store ← gets state_vars_;
  let '(knot_T_rm, w, dw) :=
    Interface_evaluate steam_trajectory (var_value <$> store) knot_time in
  T_rm_var ← MakeShared K_T_rm (inl knot_T_rm);
  w_mr_inr_var ← MakeShared K_w_mr_inr (inr w);
  dw_mr_inr_var ← MakeShared K_dw_mr_inr (inr dw);
  imu_biases_var ← MakeShared K_imu_biases (inr (prev_imu_biases prev));
  let steam_trajectory :=
    Interface_add (knot_time, T_rm_var, w_mr_inr_var, dw_mr_inr_var)
      steam_trajectory in
  let steam_state_vars :=
    steam_state_vars ++ [T_rm_var; w_mr_inr_var; dw_mr_inr_var] in
  let steam_state_vars :=
    if use_imu o then steam_state_vars ++ [imu_biases_var] else steam_state_vars in
  steam_state_vars ←
    (if use_T_mi_gt then
       T_mi_var ← MakeShared K_T_mi
                    (inl (Transformation_of_matrix Eigen.Matrix4d_Identity));
       lock T_mi_var;;
       push_knot (mkTrajectoryVar knot_time T_rm_var w_mr_inr_var dw_mr_inr_var
                    imu_biases_var T_mi_var);;
       ret steam_state_vars
     else
       T_mi_var ← MakeShared K_T_mi (inl (prev_T_mi prev));
       steam_state_vars ←
         (if use_imu o then
            if T_mi_init_only o then lock T_mi_var;; ret steam_state_vars
            else ret (steam_state_vars ++ [T_mi_var])
          else ret steam_state_vars);
       push_knot (mkTrajectoryVar knot_time T_rm_var w_mr_inr_var dw_mr_inr_var
                    imu_biases_var T_mi_var);;
       ret steam_state_vars);
  ret (steam_trajectory, steam_state_vars, (curr_trajectory_var_index + 1)%Z).

(** The new knots of the frame: [num_extra_states] between the two scan
    ends, and one at the end of the scan. *)
Definition icp_new_states (index_frame : Z) (prev : PreviousState)
    : M (Interface * list VarId * Z) :=
  o ← gets options_;
  curr_frame ← frame_index index_frame;
  let curr_time := end_timestamp curr_frame in
  (* knot_times.reserve(num_states) *)
  if (num_extra_states o + 1 <? 0)%Z then throw "vector::reserve"
  else
    for_each (knot_times o (prev_time prev) curr_time) (icp_add_state o prev)
      (previous_trajectory prev, previous_state_vars prev,
       prev_trajectory_var_index prev).

(** The priors on the first state, at the second frame. *)
Definition icp_state_priors (index_frame : Z) (prev : PreviousState)
    (steam_trajectory : Interface) : M Interface :=
  if (index_frame =? 1)%Z then
    prev_var ← var_at (prev_trajectory_var_index prev);
    let steam_trajectory :=
      addPosePrior (time prev_var) (scaled_identity 6 1e-4) steam_trajectory in
    let steam_trajectory :=
      addVelocityPrior (time prev_var) (scaled_identity 6 1e-4) steam_trajectory in
    let steam_trajectory :=
      addAccelerationPrior (time prev_var) (scaled_identity 6 1e-1) steam_trajectory in
    f0 ← frame_at 0;
    if Double.neb (time prev_var) (end_timestamp f0)
    then throw "inconsistent timestamp"
    else ret steam_trajectory
  else ret steam_trajectory.

(** The priors on the first bias and on the first [T_mi]: the lists
    [imu_prior_cost_terms] and [T_mi_prior_cost_terms]. *)
Definition icp_imu_init_priors (index_frame : Z) (prev : PreviousState)
    : M (list CostTerm * list CostTerm) :=
  o ← gets options_;
  if use_imu o then
    imu_prior_cost_terms ←
      (if (index_frame =? 1)%Z then
         prev_var ← var_at (prev_trajectory_var_index prev);
         ret [mkCostTerm (BiasPriorError (imu_biases prev_var) Eigen.Vector6d_Zero)
                (mkNoiseModel (scaled_identity 6 (p0_imu o)) COVARIANCE)
                L2LossFunc]
       else ret []);
    T_mi_prior_cost_terms ←
      (if negb (T_mi_init_only o) || (index_frame =? 1)%Z then
         if negb use_T_mi_gt then
           prev_var ← var_at (prev_trajectory_var_index prev);
           ret [mkCostTerm (TmiPriorError (T_mi prev_var))
                  (mkNoiseModel
                     (diagonal_matrix [1.0e-3; 1.0e-3; 1.0e-3; 0.1; 0.1; 1.0e-4])
                     COVARIANCE)
                  L2LossFunc]
         else ret []
       else ret []);
    ret (imu_prior_cost_terms, T_mi_prior_cost_terms)
  else ret ([], []).

(** *** [icp]: the sliding window *)

Definition icp_enroll_var (o : Options) (first : bool) (var : TrajectoryVar)
    : M unit :=
  swf_addStateVariable [T_rm var; w_mr_inr var; dw_mr_inr var];;
  when (use_imu o)
    (swf_addStateVariable [imu_biases var];;
     if first then
       when (negb use_T_mi_gt) (swf_addStateVariable [T_mi var])
     else
       when (negb (T_mi_init_only o))
         (when (negb use_T_mi_gt) (swf_addStateVariable [T_mi var]))).

Definition icp_add_filter_variables (index_frame : Z) (prev : PreviousState)
    (curr_trajectory_var_index : Z) : M unit :=
  o ← gets options_;
  when (index_frame =? 1)%Z
    (prev_var ← var_at (prev_trajectory_var_index prev);
     icp_enroll_var o true prev_var);;
  for_each
    (seqZ (prev_trajectory_var_index prev + 1)
       (curr_trajectory_var_index - prev_trajectory_var_index prev))
    (fun _ i => var ← var_at i; icp_enroll_var o false var) tt.

(** The loop that collects the variables to marginalize: it stops at the
    first knot after [marg_time] and leaves the pointer on it. *)
Fixpoint icp_marginalize_loop (o : Options) (marg_time : Time) (indices : list Z)
    (marg_vars : list VarId) : M (list VarId) :=
  match indices with
  | [] => ret marg_vars
  | i :: indices' =>
      var ← var_at i;
      if time var <=? marg_time then
        let marg_vars := marg_vars ++ [T_rm var; w_mr_inr var; dw_mr_inr var] in
        marg_vars ←
          (if use_imu o then
             let marg_vars := marg_vars ++ [imu_biases var] in
             l ← locked (T_mi var);
             ret (if negb l then marg_vars ++ [T_mi var] else marg_vars)
           else ret marg_vars);
        icp_marginalize_loop o marg_time indices' marg_vars
      else
        modify (set_to_marginalize_ i);;
        ret marg_vars
  end.

Definition icp_marginalize (index_frame : Z) (curr_trajectory_var_index : Z)
    : M unit :=
  o ← gets options_;
  when (index_frame - delay_adding_points o >? 0)%Z
    (to_marg ← gets to_marginalize_;
     _ ← var_at to_marg;
     marg_frame ← frame_at (index_frame - delay_adding_points o - 1);
     let marg_time := end_timestamp marg_frame in
     marg_vars ←
       icp_marginalize_loop o marg_time
         (seqZ to_marg (curr_trajectory_var_index - to_marg + 1)) [];
     swf_marginalizeVariable marg_vars).

(** *** [icp]: the IMU cost terms *)

(** The search loop [for (; i < trajectory_vars_.size() - 1; i++)]: it
    stops at the first [i] whose knot and next knot bracket [t], or at
    the last index.  [trips] is the number of indices left. *)
Fixpoint knot_search (vars : list TrajectoryVar) (t : float) (i trips : nat) : nat :=
  match trips with
  | O => i
  | S trips' =>
      match vars !! i, vars !! S i with
      | Some a, Some b =>
          if Double.geb t (time a) && (t <? time b) then i
          else knot_search vars t (S i) trips'
      | _, _ => i
      end
  end.

(** The search and the check that follows it: the index of the bracket,
    the exception [what], or a read past the end of the vector. *)
Definition knot_bracket (what : string) (vars : list TrajectoryVar) (t : float)
    (from : nat) : Outcome nat :=
  let i := knot_search vars t from (length vars - 1 - from) in
  match vars !! i with
  | None => OutOfBounds "trajectory_vars_" (Z.of_nat i) (length vars)
  | Some a =>
      if t <? time a then Throw what
      else
        match vars !! S i with
        | None => OutOfBounds "trajectory_vars_" (Z.of_nat (S i)) (length vars)
        | Some b => if Double.geb t (time b) then Throw what else Ret i
        end
  end.

(** The cost term of one IMU sample: the gyroscope term only. *)
Definition icp_imu_cost_term (o : Options) (prev : PreviousState)
    (imu_cost_terms : list CostTerm) (imu_data : IMUData) : M (list CostTerm) :=
  vars ← gets trajectory_vars_;
  i ← lift (knot_bracket "imu stamp not within knot times" vars
              (imu_timestamp imu_data) (Z.to_nat (prev_trajectory_var_index prev)));
  var ← index "trajectory_vars_" vars (Z.of_nat i);
  let gyro_noise_model :=
    mkNoiseModel (diagonal_matrix (vector3_list (r_imu_ang o))) COVARIANCE in
  let gyro_loss_func := L1LossFunc in
  let gyro_error_func :=
    GyroError (imu_timestamp imu_data) (imu_biases var) (ang_vel imu_data) in
  let gyro_cost := mkCostTerm gyro_error_func gyro_noise_model gyro_loss_func in
  ret (imu_cost_terms ++ [gyro_cost]).

(** The pairs of consecutive knots from an index on. *)
Definition consecutive_from (vars : list TrajectoryVar) (from : Z)
    : list (TrajectoryVar * TrajectoryVar) :=
  let w := drop (Z.to_nat from) vars in
  zip w (drop 1 w).

Definition icp_imu_cost_terms (prev : PreviousState) (imu_data_vec : list IMUData)
    (imu_prior_cost_terms T_mi_prior_cost_terms : list CostTerm)
    : M (list CostTerm * list CostTerm * list CostTerm) :=
  o ← gets options_;
  if use_imu o then
    imu_cost_terms ← for_each imu_data_vec (icp_imu_cost_term o prev) [];
    vars ← gets trajectory_vars_;
    let pairs := consecutive_from vars (prev_trajectory_var_index prev) in
    let imu_prior_cost_terms :=
      imu_prior_cost_terms ++
      ((fun '(a, b) =>
          mkCostTerm (BiasRandomWalkError (imu_biases a) (imu_biases b))
            (mkNoiseModel (scaled_identity 6 (q_imu o)) COVARIANCE) L2LossFunc)
         <$> pairs) in
    let T_mi_prior_cost_terms :=
      if negb (T_mi_init_only o) && negb use_T_mi_gt then
        T_mi_prior_cost_terms ++
        ((fun '(a, b) =>
            mkCostTerm (TmiRandomWalkError (T_mi b) (T_mi a))
              (mkNoiseModel (diagonal_matrix (qg_diag o)) COVARIANCE) L2LossFunc)
           <$> pairs)
      else T_mi_prior_cost_terms in
    ret (imu_cost_terms, imu_prior_cost_terms, T_mi_prior_cost_terms)
  else ret ([], imu_prior_cost_terms, T_mi_prior_cost_terms).

(** *** [icp]: the outer loop *)

(** [prior_cost_terms]: declared, and never filled. *)
Definition prior_cost_terms : list CostTerm := [].

Definition transform_keypoints (ctx : IcpContext) (keypoints : list Point3D)
    : M (list Point3D) :=
  o ← gets options_;
  store ← gets state_vars_;
  ret (deskew o (steam_trajectory ctx) (var_value <$> store) <$> keypoints).

Definition p2p_loss (o : Options) : LossFunc :=
  match p2p_loss_func o with
  | L2 => L2LossFunc
  | DCS => DcsLossFunc (p2p_loss_sigma o)
  | CAUCHY => CauchyLossFunc (p2p_loss_sigma o)
  | GM => GemanMcClureLossFunc (p2p_loss_sigma o)
  end.

(** [n * n.transpose() + 1e-5 * Identity] *)
Definition p2p_information (closest_normal : Vector3d) : Matrix3d :=
  let '(a, b, c) := closest_normal in
  ((a * a + 1e-5 * 1, a * b + 1e-5 * 0, a * c + 1e-5 * 0),
   (b * a + 1e-5 * 0, b * b + 1e-5 * 1, b * c + 1e-5 * 0),
   (c * a + 1e-5 * 0, c * b + 1e-5 * 0, c * c + 1e-5 * 1)).

(** The association of one keypoint: its neighbours in the map, their
    plane, and the point-to-plane cost term when the point is close
    enough to the plane. *)
Definition associate (o : Options) (map : VoxelMap) (nb_voxels_visited : Z)
    (keypoint : Point3D) : Outcome (option CostTerm) :=
  let vector_neighbors :=
    Map_searchNeighbors map (pt keypoint) nb_voxels_visited (size_voxel_map o)
      (max_number_neighbors o) in
  if (Z.of_nat (length vector_neighbors) <? min_number_neighbors o)%Z then Ret None
  else
    match compute_neighborhood_distribution vector_neighbors with
    | Throw what => Throw what
    | OutOfBounds c i n => OutOfBounds c i n
    | Ret neighborhood =>
        let weight := std_pow (a2D neighborhood) (power_planarity o) in
        match vector_neighbors with
        | [] => OutOfBounds "vector_neighbors" 0 0
        | closest_pt :: _ =>
            let dist_to_plane :=
              abs (Eigen.dot (Eigen.vsub (pt keypoint) closest_pt)
                     (normal neighborhood)) in
            if dist_to_plane <? p2p_max_dist o then
              let closest_normal := Eigen.vscale weight (normal neighborhood) in
              let W := p2p_information closest_normal in
              let noise_model := mkNoiseModel (matrix3_list W) INFORMATION in
              let error_func :=
                P2PError (timestamp keypoint) closest_pt (raw_pt keypoint) in
              Ret (Some (mkCostTerm error_func noise_model (p2p_loss o)))
            else Ret None
        end
    end.

(** The association loop, in the order of the keypoints (one thread). *)
Fixpoint association (o : Options) (map : VoxelMap) (nb_voxels_visited : Z)
    (keypoints : list Point3D) (meas_cost_terms : list CostTerm)
    : Outcome (list CostTerm) :=
  match keypoints with
  | [] => Ret meas_cost_terms
  | keypoint :: keypoints' =>
      match associate o map nb_voxels_visited keypoint with
      | Throw what => Throw what
      | OutOfBounds c i n => OutOfBounds c i n
      | Ret None => association o map nb_voxels_visited keypoints' meas_cost_terms
      | Ret (Some cost) =>
          association o map nb_voxels_visited keypoints' (meas_cost_terms ++ [cost])
      end
  end.

(** [problem.addCostTerm(c)] on the copy of the filter an iteration solves. *)
Definition problem_addCostTerms (iter : Z) (costs : list CostTerm)
    (problem : SlidingWindowFilter) : M SlidingWindowFilter :=
  for_each costs
    (fun problem c => log (E_addCostTerm (IcpProblem iter) c);;
                      ret (addCostTerm problem c)) problem.

(** The pose of the sensor at a time: [inverse(T_rm(t)) * T_sr.inverse()]. *)
Definition sensor_pose (o : Options) (tr : Interface) (values : list Value)
    (t : Time) : Matrix4d :=
  Matrix4d_mul
    (Transformation_matrix
       (Transformation_inverse (Interface_evaluate tr values t).1.1))
    (Matrix4d_inverse (T_sr o)).

(** One iteration; the flag is true when the iteration ends in [break]. *)
Definition icp_iteration (index_frame : Z) (ctx : IcpContext) (st : LoopState)
    (iter : Z) : M (LoopState * bool) :=
  o ← gets options_;
  keypoints ← transform_keypoints ctx (loop_keypoints st);
  problem ← gets sliding_window_filter_;
  log (E_addPriorCostTerms (IcpProblem iter) (steam_trajectory ctx));;
  let problem := addPriorCostTerms (steam_trajectory ctx) problem in
  problem ← problem_addCostTerms iter prior_cost_terms problem;
  map ← gets map_;
  let nb_voxels_visited := if (index_frame <? init_num_frames o)%Z then 2%Z else 1%Z in
  meas_cost_terms ← lift (association o map nb_voxels_visited keypoints []);
  let number_keypoints_used := Z.of_nat (length meas_cost_terms) in
  problem ← problem_addCostTerms iter meas_cost_terms problem;
  problem ← problem_addCostTerms iter (imu_cost_terms ctx) problem;
  problem ← problem_addCostTerms iter (imu_prior_cost_terms ctx) problem;
  problem ← problem_addCostTerms iter (T_mi_prior_cost_terms ctx) problem;
  if (number_keypoints_used <? min_number_keypoints o)%Z then
    ret (mkLoopState keypoints meas_cost_terms number_keypoints_used false, true)
  else
    optimize (IcpProblem iter) problem (max_iterations o);;
    store ← gets state_vars_;
    let values := var_value <$> store in
    current_estimate ← frame_index index_frame;
    let diff_trans := 0 in
    let diff_rot := 0 in
    let begin_T_ms :=
      sensor_pose o (steam_trajectory ctx) values (begin_timestamp current_estimate) in
    let diff_trans :=
      diff_trans + Eigen.norm (Eigen.vsub (begin_t current_estimate) (block31 begin_T_ms)) in
    let diff_rot :=
      diff_rot + AngularDistance (begin_R current_estimate) (block33 begin_T_ms) in
    let end_T_ms :=
      sensor_pose o (steam_trajectory ctx) values (end_timestamp current_estimate) in
    let diff_trans :=
      diff_trans + Eigen.norm (Eigen.vsub (end_t current_estimate) (block31 end_T_ms)) in
    let diff_rot :=
      diff_rot + AngularDistance (end_R current_estimate) (block33 end_T_ms) in
    let mid_T_ms :=
      sensor_pose o (steam_trajectory ctx) values (eval_timestamp current_estimate) in
    modify_frame index_frame
      (fun f => set_poses (block33 begin_T_ms) (block31 begin_T_ms)
                  (block33 end_T_ms) (block31 end_T_ms) (setMidPose mid_T_ms f));;
    when ((index_frame >? 1)%Z &&
          ((diff_rot <? threshold_orientation_norm o) &&
           (diff_trans <? threshold_translation_norm o)))
      (when (debug_print o)
         (log (E_LOG_INFO "CT_ICP: Finished with N= ICP iterations" iter)));;
    ret (mkLoopState keypoints meas_cost_terms number_keypoints_used (icp_success st),
         false).

(** [for (int iter(0); iter < options_.num_iters_icp; iter++)] *)
Fixpoint icp_iterations (index_frame : Z) (ctx : IcpContext) (iters : list Z)
    (st : LoopState) : M LoopState :=
  match iters with
  | [] => ret st
  | iter :: iters' =>
      '(st, stop) ← icp_iteration index_frame ctx st iter;
      if (stop : bool) then ret st else icp_iterations index_frame ctx iters' st
  end.

(** *** [icp]: the final solve over the sliding window *)

Definition swf_addPriorCostTerms (tr : Interface) : M unit :=
  modify (fun s =>
    set_sliding_window_filter_ (addPriorCostTerms tr (sliding_window_filter_ s)) s);;
  log (E_addPriorCostTerms SlidingWindowProblem tr).

Definition swf_addCostTerms (costs : list CostTerm) : M unit :=
  for_each costs (fun _ c => swf_addCostTerm c) tt.

(** The cost terms of the frame enter the filter. *)
Definition icp_assemble_window (ctx : IcpContext) (st : LoopState) : M unit :=
  swf_addPriorCostTerms (steam_trajectory ctx);;
  swf_addCostTerms prior_cost_terms;;
  swf_addCostTerms (meas_cost_terms st);;
  swf_addCostTerms (imu_cost_terms ctx);;
  swf_addCostTerms (imu_prior_cost_terms ctx);;
  swf_addCostTerms (T_mi_prior_cost_terms ctx).

(** The bounds on the size of the window, and the final solve. *)
Definition icp_solve_window : M unit :=
  filter ← gets sliding_window_filter_;
  if (getNumberOfVariables filter >? 100)%Z
  then throw "too many variables in the filter!"
  else if (getNumberOfCostTerms filter >? 100000)%Z
  then throw "too many cost terms in the filter!"
  else optimize SlidingWindowProblem filter 20.

(** *** [icp]: the estimate of the frame *)

Definition set_T_mi (id : VarId) (k : TrajectoryVar) : TrajectoryVar :=
  mkTrajectoryVar (time k) (T_rm k) (w_mr_inr k) (dw_mr_inr k) (imu_biases k) id.

(** [trajectory_vars_[i].T_mi = SE3StateVar::MakeShared(...)], locked. *)
Definition icp_reset_T_mi (prev : PreviousState) (acc : unit) (i : Z) : M unit :=
  v ← value_of_T (prev_T_mi_var prev);
  id ← MakeShared K_T_mi (inl v);
  lock id;;
  var ← var_index i;
  modify (fun s =>
    set_trajectory_vars_ (<[Z.to_nat i := set_T_mi id var]> (trajectory_vars_ s)) s).

(** The end of [icp], after the solve of the window: the estimate of the
    frame is read off the trajectory.  A [TrajectoryFrame] has no
    covariance here: [Covariance covariance(solver)] and
    [getCovariance], which fill [mid_state_cov], are left out.  Reading a
    trajectory or the solver is no [Event]. *)
Definition icp_finish (index_frame : Z) (ctx : IcpContext)
    (imu_data_vec : list IMUData) (st : LoopState) : M (bool * list Point3D) :=
  o ← gets options_;
  let prev := icp_prev ctx in
  vars ← gets trajectory_vars_;
  when (T_mi_init_only o && negb use_T_mi_gt)
    (for_each
       (seqZ (prev_trajectory_var_index prev + 1)
          (Z.of_nat (length vars) - (prev_trajectory_var_index prev + 1)))
       (icp_reset_T_mi prev) tt);;
  current_estimate ← frame_at index_frame;
  store ← gets state_vars_;
  let values := var_value <$> store in
  let tr := steam_trajectory ctx in
  let curr_begin_T_ms := sensor_pose o tr values (begin_timestamp current_estimate) in
  let curr_end_T_ms := sensor_pose o tr values (end_timestamp current_estimate) in
  let curr_mid_steam_time := eval_timestamp current_estimate in
  let mid_T_ms := sensor_pose o tr values curr_mid_steam_time in
  let '(_, mid_w, mid_dw) := Interface_evaluate tr values curr_mid_steam_time in
  prev_var ← var_index (prev_trajectory_var_index prev);
  mid_T_mi ← value_of_T (T_mi prev_var);
  modify_frame index_frame
    (fun f =>
       set_poses (block33 curr_begin_T_ms) (block31 curr_begin_T_ms)
         (block33 curr_end_T_ms) (block31 curr_end_T_ms)
         (set_mid_state mid_w mid_dw (Transformation_matrix mid_T_mi)
            (setMidPose mid_T_ms f)));;
  when (use_imu o)
    ((* imu_data_vec.back() *)
     _ ← index "imu_data_vec" imu_data_vec (Z.of_nat (length imu_data_vec) - 1);
     vars ← gets trajectory_vars_;
     i ← lift (knot_bracket "mid time not within knot times" vars
                 curr_mid_steam_time (Z.to_nat (prev_trajectory_var_index prev)));
     var ← index "trajectory_vars_" vars (Z.of_nat i);
     b ← value_of_v (imu_biases var);
     modify_frame index_frame (set_mid_b b);;
     _ ← index "trajectory_vars_" vars (Z.of_nat (length vars) - 1);
     _ ← index "trajectory_vars_" vars (Z.of_nat (length vars) - 2);
     ret tt);;
  keypoints ← transform_keypoints ctx (loop_keypoints st);
  ret (icp_success st, keypoints).

(** *** [icp] *)

(** The states, the priors, the filter variables, the marginalization and
    the IMU cost terms: what precedes the loop. *)
Definition icp_setup (index_frame : Z) (imu_data_vec : list IMUData)
    : M IcpContext :=
  prev ← icp_previous_state index_frame;
  '(steam_trajectory, steam_state_vars, curr_trajectory_var_index) ←
    icp_new_states index_frame prev;
  steam_trajectory ← icp_state_priors index_frame prev steam_trajectory;
  '(imu_prior_cost_terms, T_mi_prior_cost_terms) ←
    icp_imu_init_priors index_frame prev;
  icp_add_filter_variables index_frame prev curr_trajectory_var_index;;
  icp_marginalize index_frame curr_trajectory_var_index;;
  '(imu_cost_terms, imu_prior_cost_terms, T_mi_prior_cost_terms) ←
    icp_imu_cost_terms prev imu_data_vec imu_prior_cost_terms T_mi_prior_cost_terms;
  ret (mkIcpContext prev steam_trajectory steam_state_vars imu_cost_terms
         imu_prior_cost_terms T_mi_prior_cost_terms).

(** [icp] up to the point where the cost terms of the frame are in the
    filter: the setup, the loop and the assembly of the window. *)
Definition icp_assembled (index_frame : Z) (keypoints : list Point3D)
    (imu_data_vec : list IMUData) : M (IcpContext * LoopState) :=
  o ← gets options_;
  ctx ← icp_setup index_frame imu_data_vec;
  _ ← frame_at index_frame;
  st ← icp_iterations index_frame ctx (seqZ 0 (num_iters_icp o))
         (mkLoopState keypoints [] 0 true);
  icp_assemble_window ctx st;;
  ret (ctx, st).

(** [icp]: the success flag, and the keypoints it was given by reference. *)
Definition icp (index_frame : Z) (keypoints : list Point3D)
    (imu_data_vec : list IMUData) : M (bool * list Point3D) :=
  '(ctx, st) ← icp_assembled index_frame keypoints imu_data_vec;
  icp_solve_window;;
  icp_finish index_frame ctx imu_data_vec st.

(** *** [registerFrame] *)

Definition RegistrationSummary_new : RegistrationSummary :=
  mkRegistrationSummary false [] [] Eigen.Matrix3d_Identity Eigen.Vector3d_Zero.

(** The two knots of the first frame: at its begin and at its end. *)
Definition initial_state (t : Time) : M unit :=
  T_rm_var ← MakeShared K_T_rm (inl Transformation_default);
  w_mr_inr_var ← MakeShared K_w_mr_inr (inr Eigen.Vector6d_Zero);
  dw_mr_inr_var ← MakeShared K_dw_mr_inr (inr Eigen.Vector6d_Zero);
  imu_biases_var ← MakeShared K_imu_biases (inr Eigen.Vector6d_Zero);
  T_mi_var ← MakeShared K_T_mi (inl Transformation_default);
  push_knot (mkTrajectoryVar t T_rm_var w_mr_inr_var dw_mr_inr_var imu_biases_var
               T_mi_var).

(** The first steps of [registerFrame]: the new frame, its time stamps,
    its motion guess and its downsampled points. *)
Definition ingest (const_frame : float * list Point3D * list IMUData)
    : M (Z * list Point3D) :=
  index_frame ← gets (fun s => Z.of_nat (length (trajectory_ s)));
  modify (fun s => set_trajectory_ (trajectory_ s ++ [TrajectoryFrame_new]) s);;
  initializeTimestamp index_frame const_frame;;
  initializeMotion index_frame;;
  frame ← initializeFrame index_frame const_frame.1.2;
  ret (index_frame, frame).

(** The keypoints [registerFrame] hands to [icp]. *)
Definition select_keypoints (o : Options) (index_frame : Z) (frame : list Point3D)
    : list Point3D :=
  let sample_voxel_size :=
    if (index_frame <? init_num_frames o)%Z
    then init_sample_voxel_size o else sample_voxel_size o in
  grid_sampling frame sample_voxel_size.

Definition registerFrame (const_frame : float * list Point3D * list IMUData)
    : M RegistrationSummary :=
  o ← gets options_;
  let summary := RegistrationSummary_new in
  '(index_frame, frame) ← ingest const_frame;
  summary ←
    (if (index_frame >? 0)%Z then
       let keypoints := select_keypoints o index_frame frame in
       let imu_data_vec := const_frame.2 in
       '(icp_ok, keypoints) ← icp index_frame keypoints imu_data_vec;
       ret (mkRegistrationSummary icp_ok keypoints (corrected_points summary)
              (R_ms summary) (t_ms summary))
     else
       fr ← frame_index index_frame;
       initial_state (begin_timestamp fr);;
       initial_state (end_timestamp fr);;
       modify (set_to_marginalize_ 1);;
       ret (mkRegistrationSummary true (keypoints summary)
              (corrected_points summary) (R_ms summary) (t_ms summary)));
  if negb (success summary) then ret summary
  else
    modify_frame index_frame (set_points frame);;
    (if (index_frame =? 0)%Z then updateMap index_frame index_frame
     else when (index_frame - delay_adding_points o >? 0)%Z
            (updateMap index_frame (index_frame - delay_adding_points o)));;
    fr ← frame_index index_frame;
    ret (mkRegistrationSummary (success summary) (keypoints summary) frame
           (end_R fr) (end_t fr)).

(** *** [trajectory] *)

(** [full_trajectory->add(var.time, var.T_rm, var.w_mr_inr, var.dw_mr_inr)]
    for every knot. *)
Definition full_trajectory (o : Options) (vars : list TrajectoryVar) : Interface :=
  foldl (fun tr var => Interface_add (knot_of var) tr)
    (Interface_MakeShared (ConstAcc (qc_diag o))) vars.

(** The body of the loop over the frames: the poses at the begin, at the
    evaluation time and at the end of the frame. *)
Definition final_state_value (o : Options) (tr : Interface) (values : list Value)
    (frame : TrajectoryFrame) : TrajectoryFrame :=
  let begin_T_ms := sensor_pose o tr values (begin_timestamp frame) in
  let frame :=
    set_poses (block33 begin_T_ms) (block31 begin_T_ms) (end_R frame) (end_t frame)
      frame in
  let mid_T_ms := sensor_pose o tr values (eval_timestamp frame) in
  let frame := setMidPose mid_T_ms frame in
  let end_T_ms := sensor_pose o tr values (end_timestamp frame) in
  set_poses (begin_R frame) (begin_t frame) (block33 end_T_ms) (block31 end_T_ms)
    frame.

(** [trajectory()].  The record of the options above has the fields that
    [registerFrame] reads; [options_.use_final_state_value] is an argument
    here. *)
Definition trajectory (use_final_state_value : bool) : M (list TrajectoryFrame) :=
  when use_final_state_value
    (o ← gets options_;
     vars ← gets trajectory_vars_;
     store ← gets state_vars_;
     let full_trajectory := full_trajectory o vars in
     modify (fun s =>
       set_trajectory_
         (final_state_value o full_trajectory (var_value <$> store) <$> trajectory_ s)
         s));;
  gets trajectory_.

End Engine.

(** ** A bench: the libraries on a small rigid world

    An instance of [External] on which the engine can be run: rigid
    transformations as 4x4 matrices; a trajectory that holds the value of
    the latest knot; a solver that finds its problem already solved; an
    eigen-solver for diagonal scatter matrices; a map that is the list of
    its points.  It serves the examples and the counterexamples below. *)
Module Bench.

Definition rigid_inverse (m : Matrix4d) : Matrix4d :=
  let Rt := Eigen.transpose (block33 m) in
  mkMatrix4d Rt (Eigen.vsub Eigen.Vector3d_Zero (Eigen.mvmul Rt (block31 m))) (row3 m).

Definition rigid_mul (a b : Matrix4d) : Matrix4d :=
  mkMatrix4d (Eigen.mmul (block33 a) (block33 b))
    (Eigen.vadd (Eigen.mvmul (block33 a) (block31 b)) (block31 a)) (row3 a).

Definition translation (v : Vector3d) : Matrix4d :=
  mkMatrix4d Eigen.Matrix3d_Identity v (0, 0, 0, 1).

(** The translation part of the logarithm. *)
Definition rigid_vec (m : Matrix4d) : Vector6d :=
  vector3_list (block31 m) ++ [0; 0; 0].

Definition rigid_update (m : Matrix4d) (xi : Vector6d) : Matrix4d :=
  match xi with
  | x :: y :: z :: _ => rigid_mul (translation (x, y, z)) m
  | _ => m
  end.

(** Small angles: [acos x] is about [sqrt (2 (1 - x))]. *)
Definition small_acos (x : float) : float := sqrt (2 * (1 - x)).

(** Whole exponents. *)
Definition whole_pow (x y : float) : float :=
  match Double.truncate y with
  | Some n => Nat.iter (Z.to_nat n) (fun a => a * x) 1
  | None => x
  end.

Definition reverse_shuffle (l : list Point3D) (g : Z) : list Point3D * Z :=
  (rev l, (g + 1)%Z).

(** Eigenvalues of a diagonal matrix in increasing order, with the axes
    as eigenvectors. *)
Definition insert_sorted (x : float * Vector3d) (l : list (float * Vector3d)) :=
  let '(smaller, larger) := List.partition (fun y => y.1 <=? x.1) l in
  smaller ++ x :: larger.

Definition diagonal_eigen (m : Matrix3d) : Vector3d * Matrix3d :=
  let '((a, _, _), (_, e, _), (_, _, i)) := m in
  match foldr insert_sorted [] [(a, (1, 0, 0)); (e, (0, 1, 0)); (i, (0, 0, 1))] with
  | [(l0, v0); (l1, v1); (l2, v2)] => ((l0, l1, l2), Eigen.transpose (v0, v1, v2))
  | _ => ((a, e, i), Eigen.Matrix3d_Identity)
  end.

Definition knot_value (values : list (Matrix4d + Vector6d)) (k : Knot)
    : Matrix4d * Vector6d * Vector6d :=
  let '(_, T, w, dw) := k in
  (match values !! T with Some (inl m) => m | _ => Eigen.Matrix4d_Identity end,
   match values !! w with Some (inr v) => v | _ => Eigen.Vector6d_Zero end,
   match values !! dw with Some (inr v) => v | _ => Eigen.Vector6d_Zero end).

(** The value of the latest knot at or before [t], of the first knot
    before it. *)
Definition hold (tr : Interface) (values : list (Matrix4d + Vector6d)) (t : Time)
    : Matrix4d * Vector6d * Vector6d :=
  match knots tr with
  | [] => (Eigen.Matrix4d_Identity, Eigen.Vector6d_Zero, Eigen.Vector6d_Zero)
  | k0 :: ks =>
      knot_value values
        (foldl (fun best k => if k.1.1.1 <=? t then k else best) k0 ks)
  end.

Record Filter := mkFilter {
  filter_variables : list VarId;
  filter_cost_terms : list CostTerm;
  filter_priors : list Interface
}.

Definition sq_dist (a b : Vector3d) : float :=
  Eigen.dot (Eigen.vsub a b) (Eigen.vsub a b).

Definition insert_by_distance (q x : Vector3d) (l : list Vector3d) : list Vector3d :=
  let '(nearer, farther) := List.partition (fun y => sq_dist q y <=? sq_dist q x) l in
  nearer ++ x :: farther.

#[export] Instance bench : External := {|
  std_acos := small_acos;
  std_pow := whole_pow;
  mt19937_64 := Z;
  mt19937_64_default := 5489%Z;
  std_shuffle := reverse_shuffle;
  Matrix4d_mul := rigid_mul;
  Matrix4d_inverse := rigid_inverse;
  Matrix3d_inverse := Eigen.transpose;
  slerp_rotation := fun Ra Rb alpha => if alpha <? 0.5 then Ra else Rb;
  SelfAdjointEigenSolver := diagonal_eigen;
  Transformation := Matrix4d;
  Transformation_default := Eigen.Matrix4d_Identity;
  Transformation_of_matrix := fun m => m;
  Transformation_matrix := fun m => m;
  Transformation_vec := rigid_vec;
  Transformation_inverse := rigid_inverse;
  Transformation_compose := rigid_mul;
  SE3StateVar_update := rigid_update;
  Interface_evaluate := hold;
  SlidingWindowFilter := Filter;
  addStateVariable := fun f vars =>
    mkFilter (filter_variables f ++ vars) (filter_cost_terms f) (filter_priors f);
  marginalizeVariable := fun f _ vars =>
    mkFilter (List.filter (fun v => negb (bool_decide (v ∈ vars))) (filter_variables f))
      (filter_cost_terms f) (filter_priors f);
  addCostTerm := fun f c =>
    mkFilter (filter_variables f) (filter_cost_terms f ++ [c]) (filter_priors f);
  addPriorCostTerms := fun tr f =>
    mkFilter (filter_variables f) (filter_cost_terms f) (filter_priors f ++ [tr]);
  getNumberOfVariables := fun f => Z.of_nat (length (filter_variables f));
  getNumberOfCostTerms := fun f => Z.of_nat (length (filter_cost_terms f));
  GaussNewtonSolver_optimize := fun _ _ values => inr values;
  VoxelMap := list Vector3d;
  Map_add := fun m ps _ _ _ => m ++ (pt <$> ps);
  Map_remove := fun m c d => List.filter (fun p => sq_dist c p <=? d * d) m;
  Map_searchNeighbors := fun m q _ _ max_count =>
    take (Z.to_nat max_count) (foldr (insert_by_distance q) [] m)
|}.

Definition options : Options := {|
  init_num_frames := 20;
  init_voxel_size := 0.2;
  voxel_size := 0.5;
  init_sample_voxel_size := 1.0;
  sample_voxel_size := 1.5;
  size_voxel_map := 1.0;
  min_distance_points := 0.1;
  max_num_points_in_voxel := 20;
  max_distance := 100.0;
  min_number_neighbors := 4;
  max_number_neighbors := 4;
  num_iters_icp := 3;
  threshold_orientation_norm := 0.0001;
  threshold_translation_norm := 0.001;
  min_number_keypoints := 1;
  debug_print := true;
  T_sr := Eigen.Matrix4d_Identity;
  qc_diag := [1; 1; 1; 1; 1; 1];
  ad_diag := [1; 1; 1; 1; 1; 1];
  num_extra_states := 0;
  power_planarity := 2.0;
  p2p_max_dist := 0.5;
  p2p_loss_func := CAUCHY;
  p2p_loss_sigma := 0.1;
  verbose := false;
  max_iterations := 5;
  num_threads := 1;
  delay_adding_points := 0;
  use_imu := false;
  T_mi_init_only := true;
  gravity := -9.8042;
  r_imu_acc := (0.1, 0.1, 0.1);
  r_imu_ang := (0.01, 0.01, 0.01);
  p0_imu := 0.0001;
  q_imu := 0.0001;
  qg_diag := [1; 1; 1; 1; 1; 1]
|}.

Definition with_imu (o : Options) : Options :=
  mkOptions (init_num_frames o) (init_voxel_size o) (voxel_size o)
    (init_sample_voxel_size o) (sample_voxel_size o) (size_voxel_map o)
    (min_distance_points o) (max_num_points_in_voxel o) (max_distance o)
    (min_number_neighbors o) (max_number_neighbors o) (num_iters_icp o)
    (threshold_orientation_norm o) (threshold_translation_norm o)
    (min_number_keypoints o) (debug_print o) (T_sr o) (qc_diag o) (ad_diag o)
    (num_extra_states o) (power_planarity o) (p2p_max_dist o) (p2p_loss_func o)
    (p2p_loss_sigma o) (verbose o) (max_iterations o) (num_threads o)
    (delay_adding_points o) true (T_mi_init_only o) (gravity o) (r_imu_acc o)
    (r_imu_ang o) (p0_imu o) (q_imu o) (qg_diag o).

Definition with_min_number_keypoints (n : Z) (o : Options) : Options :=
  mkOptions (init_num_frames o) (init_voxel_size o) (voxel_size o)
    (init_sample_voxel_size o) (sample_voxel_size o) (size_voxel_map o)
    (min_distance_points o) (max_num_points_in_voxel o) (max_distance o)
    (min_number_neighbors o) (max_number_neighbors o) (num_iters_icp o)
    (threshold_orientation_norm o) (threshold_translation_norm o)
    n (debug_print o) (T_sr o) (qc_diag o) (ad_diag o)
    (num_extra_states o) (power_planarity o) (p2p_max_dist o) (p2p_loss_func o)
    (p2p_loss_sigma o) (verbose o) (max_iterations o) (num_threads o)
    (delay_adding_points o) (use_imu o) (T_mi_init_only o) (gravity o)
    (r_imu_acc o) (r_imu_ang o) (p0_imu o) (q_imu o) (qg_diag o).

(** The engine as its constructor leaves it, with ground-truth poses. *)
Definition engine (o : Options) : SteamLioOdometry :=
  mkSteamLioOdometry o [] [] 0 [] (mkFilter [] [] [])
    (replicate 4 Eigen.Matrix4d_Identity) [] [].

(** A scan of a floor: four points of the plane [z = 0], taken at the
    given times, seen from a sensor that does not move. *)
Definition floor_point (x y t alpha : float) : Point3D :=
  mkPoint3D (x, y, 0) (x, y, 0) 0 alpha t 0.

Definition scan (t0 t1 : float) : list Point3D :=
  [floor_point 1 1 t0 0; floor_point (-1) 1 (t0 + (t1 - t0) / 4) 0.25;
   floor_point (-1) (-1) (t0 + (t1 - t0) / 2) 0.5; floor_point 1 (-1) t1 1].

Definition frame0 : float * list Point3D * list IMUData := (0.05, scan 0 0.1, []).
Definition frame1 : float * list Point3D * list IMUData := (0.15, scan 0.1 0.2, []).
Definition frame2 : float * list Point3D * list IMUData := (0.25, scan 0.2 0.3, []).

(** The second scan with two IMU samples: one within the scan, one at
    the time of its last point. *)
Definition imu_within : IMUData := mkIMUData 0.15 (0, 0, 9.8) (0, 0, 0.01).
Definition imu_at_end : IMUData := mkIMUData 0.2 (0, 0, 9.8) (0, 0, 0.01).
Definition frame1_imu : float * list Point3D * list IMUData :=
  (0.15, scan 0.1 0.2, [imu_within; imu_at_end]).

(** The second scan with the first of these samples only. *)
Definition frame1_imu_within : float * list Point3D * list IMUData :=
  (0.15, scan 0.1 0.2, [imu_within]).

(** A first scan whose time stamps are all negative. *)
Definition frame0_negative : float * list Point3D * list IMUData :=
  (-0.15, scan (-0.2) (-0.1), []).

(** A configuration that asks for more keypoints than a scan has. *)
Definition demanding : Options := with_min_number_keypoints 100 options.

(** Run a frame from a state; the state it leaves. *)
Definition after (const_frame : float * list Point3D * list IMUData)
    (s : SteamLioOdometry) : SteamLioOdometry :=
  (registerFrame const_frame s).2.

(** The state in which [registerFrame] calls [icp], and the keypoints it
    hands over. *)
Definition at_icp (const_frame : float * list Point3D * list IMUData)
    (s : SteamLioOdometry) : SteamLioOdometry :=
  (ingest const_frame s).2.

Definition keypoints_at_icp (const_frame : float * list Point3D * list IMUData)
    (s : SteamLioOdometry) : list Point3D :=
  match (ingest const_frame s).1 with
  | Ret (index_frame, frame) => select_keypoints (options_ s) index_frame frame
  | _ => []
  end.

(** What [icp] keeps of the previous state at the second scan: the
    previous knot is the second one, at 0.1. *)
Definition previous_at_second_knot : PreviousState :=
  mkPreviousState 1 0.1 Eigen.Vector6d_Zero Eigen.Matrix4d_Identity 9%nat
    (Interface_MakeShared (Singer [] [])) [].

(** A filter that already holds [n] variables. *)
Definition with_filter_variables (n : nat) (s : SteamLioOdometry)
    : SteamLioOdometry :=
  set_sliding_window_filter_
    (mkFilter (filter_variables (sliding_window_filter_ s) ++ seq 1000 n)
       (filter_cost_terms (sliding_window_filter_ s))
       (filter_priors (sliding_window_filter_ s))) s.

End Bench.

(** * Part II: properties *)

(** ** The order of doubles

    The comparison of two binary64 values that are not NaN compares sign,
    exponent and mantissa in turn; what the proofs below need of it is that
    [<=] is transitive and excludes the converse [<]. *)

Module DoubleOrder.

Ltac compare_cases :=
  repeat match goal with b : bool |- _ => destruct b end;
  try discriminate; try reflexivity;
  change (PosDef.Pos.compare_cont Eq) with Pos.compare.

Lemma SFleb_trans (x y z : spec_float) :
  SFleb x y = true -> SFleb y z = true -> SFleb x z = true.
Proof.
  unfold SFleb, SFcompare.
  destruct x as [sx|sx| |sx mx ex], y as [sy|sy| |sy my ey], z as [sz|sz| |sz mz ez];
    try discriminate; try reflexivity; compare_cases.
  all: destruct (Z.compare_spec ex ey), (Z.compare_spec ey ez), (Z.compare_spec ex ez);
    try discriminate; try reflexivity; try lia.
  all: destruct (Pos.compare_spec mx my), (Pos.compare_spec my mz),
         (Pos.compare_spec mx mz);
    simpl; try discriminate; try reflexivity; try lia.
Qed.

Lemma SFleb_not_SFltb (x y : spec_float) : SFleb x y = true -> SFltb y x = false.
Proof.
  unfold SFleb, SFltb, SFcompare.
  destruct x as [sx|sx| |sx mx ex], y as [sy|sy| |sy my ey];
    try discriminate; try reflexivity; compare_cases.
  all: destruct (Z.compare_spec ex ey), (Z.compare_spec ey ex);
    try discriminate; try reflexivity; try lia.
  all: destruct (Pos.compare_spec mx my), (Pos.compare_spec my mx);
    simpl; try discriminate; try reflexivity; try lia.
Qed.

Lemma leb_trans (x y z : float) :
  (x <=? y) = true -> (y <=? z) = true -> (x <=? z) = true.
Proof. rewrite !leb_spec. apply SFleb_trans. Qed.

Lemma leb_not_ltb (x y : float) : (x <=? y) = true -> (y <? x) = false.
Proof. rewrite leb_spec, ltb_spec. apply SFleb_not_SFltb. Qed.

Lemma geb_not_ltb (t x : float) : Double.geb t x = true -> (t <? x) = false.
Proof. unfold Double.geb. apply leb_not_ltb. Qed.

End DoubleOrder.

(** ** [sub_sample_frame] *)

Section SubSample.

Variable size_voxel : float.

Local Abbreviation key := (voxel_of size_voxel).
Local Abbreviation bucket k frame := (filter (fun p => key p = k) frame).

Lemma bin_points_snoc (frame : list Point3D) (p : Point3D) :
  bin_points size_voxel (frame ++ [p])
  = grid_push_back (bin_points size_voxel frame) (key p) p.
Proof. unfold bin_points. by rewrite foldl_snoc. Qed.

(** The bucket of a voxel holds the points of the frame that fall in it,
    in the order of the frame; a voxel is present when a point fell in it. *)
Lemma bin_points_lookup (frame : list Point3D) (k : Voxel) :
  bin_points size_voxel frame !! k
  = match bucket k frame with [] => None | l => Some l end.
Proof.
  induction frame as [|p frame IH] using rev_ind; [done|].
  rewrite bin_points_snoc, filter_app. unfold grid_push_back.
  destruct (decide (key p = k)) as [<-|Hne].
  - rewrite lookup_insert_eq, IH. rewrite filter_cons_True by done. rewrite filter_nil.
    by destruct (filter _ frame).
  - rewrite lookup_insert_ne, IH by done. rewrite filter_cons_False by done. rewrite filter_nil, app_nil_r.
    done.
Qed.

Lemma bin_points_dom (frame : list Point3D) :
  dom (bin_points size_voxel frame) = voxel_keys size_voxel frame.
Proof.
  apply set_eq. intros k. unfold voxel_keys.
  rewrite elem_of_dom, bin_points_lookup, elem_of_list_to_set, list_elem_of_fmap.
  split.
  - intros [l Hl]. destruct (bucket k frame) as [|q l'] eqn:E; [done|].
    assert (q ∈ bucket k frame) as Hq by (rewrite E; left).
    apply list_elem_of_filter in Hq as [Hk Hq]. by exists q.
  - intros (q & -> & Hq).
    assert (q ∈ bucket (key q) frame) as Hin by (by apply list_elem_of_filter).
    destruct (bucket (key q) frame); [by apply elem_of_nil in Hin|by eexists].
Qed.

(** The second loop keeps the head of every non-empty bucket. *)
Lemma keep_heads_omap (buckets : list (Voxel * list Point3D)) (out : list Point3D) :
  foldl (fun out (n : Voxel * list Point3D) =>
           match n.2 with q :: _ => out ++ [q] | [] => out end) out buckets
  = out ++ omap (fun n => head n.2) buckets.
Proof.
  revert out. induction buckets as [|[k l] buckets IH]; intros out; csimpl.
  - by rewrite app_nil_r.
  - rewrite IH. destruct l as [|q l]; csimpl; [done|]. by rewrite <- app_assoc.
Qed.

Lemma sub_sample_frame_omap (frame : list Point3D) :
  sub_sample_frame frame size_voxel
  = omap (fun n => head n.2) (map_to_list (bin_points size_voxel frame)).
Proof. unfold sub_sample_frame. by rewrite keep_heads_omap. Qed.

Lemma first_binned_is_Some (frame : list Point3D) (k : Voxel) :
  k ∈ voxel_keys size_voxel frame → is_Some (first_binned size_voxel frame k).
Proof.
  rewrite <- bin_points_dom, elem_of_dom, bin_points_lookup.
  unfold first_binned. intros [l Hl].
  destruct (bucket k frame); [done|by eexists].
Qed.

Lemma sub_sample_frame_first_binned (frame : list Point3D) :
  sub_sample_frame frame size_voxel
  ≡ₚ omap (first_binned size_voxel frame)
       (elements (voxel_keys size_voxel frame)).
Proof.
  rewrite sub_sample_frame_omap.
  set (grid := bin_points size_voxel frame).
  transitivity (omap (first_binned size_voxel frame) (map_to_list grid).*1).
  - replace (omap (fun n => head n.2) (map_to_list grid))
      with (omap (first_binned size_voxel frame) (map_to_list grid).*1); [done|].
    symmetry. apply list_omap_ext, Forall2_fmap_r, Forall_Forall2_diag.
    apply Forall_forall. intros [k l] Hkl. simpl.
    apply elem_of_map_to_list in Hkl. unfold grid in Hkl.
    rewrite bin_points_lookup in Hkl. unfold first_binned.
    destruct (bucket k frame); by simplify_eq.
  - apply omap_Permutation.
    rewrite <- bin_points_dom. fold grid.
    assert (dom grid = list_to_set (map_to_list grid).*1) as ->
      by apply leibniz_equiv, dom_alt.
    symmetry. apply elements_list_to_set, NoDup_fst_map_to_list.
Qed.

Lemma sub_sample_frame_length (frame : list Point3D) :
  length (sub_sample_frame frame size_voxel)
  = size (voxel_keys size_voxel frame).
Proof.
  rewrite sub_sample_frame_omap, <- bin_points_dom, size_dom.
  rewrite <- length_map_to_list.
  set (grid := bin_points size_voxel frame).
  assert (Forall (fun n : Voxel * list Point3D => is_Some (head n.2))
            (map_to_list grid)) as Hall.
  { apply Forall_forall. intros [k l] Hkl.
    apply elem_of_map_to_list in Hkl. unfold grid in Hkl.
    rewrite bin_points_lookup in Hkl. simpl.
    destruct (bucket k frame); simplify_eq. by eexists. }
  induction Hall as [|n ns [q Hq] _ IH]; csimpl; [done|].
  rewrite Hq. simpl. by rewrite IH.
Qed.

End SubSample.

(** C8. For every point list and voxel size, [sub_sample_frame] returns,
    up to the order in which the unordered map is traversed, the first
    point binned into each voxel that occurs among the keys of the input
    (keys: the three coordinates divided by the voxel size, truncated by
    the cast to [short]): one point for every distinct key, each key
    having such a first point, and so as many points as distinct keys. *)
Theorem sub_sample_frame_one_point_per_voxel
    (frame : list Point3D) (size_voxel : float) :
  let out := sub_sample_frame frame size_voxel in
  let keys := voxel_keys size_voxel frame in
  out ≡ₚ omap (first_binned size_voxel frame) (elements keys)
  ∧ (∀ k, k ∈ keys → is_Some (first_binned size_voxel frame k))
  ∧ NoDup (voxel_of size_voxel <$> out)
  ∧ length out = size keys.
Proof.
  cbv zeta. set (keys := voxel_keys size_voxel frame).
  split; [|split; [|split]].
  - apply sub_sample_frame_first_binned.
  - intros k. apply first_binned_is_Some.
  - rewrite sub_sample_frame_first_binned. fold keys.
    assert (voxel_of size_voxel <$> omap (first_binned size_voxel frame) (elements keys)
            = elements keys) as ->; [|apply NoDup_elements].
    assert (Forall (fun k => k ∈ keys) (elements keys)) as Hall.
    { apply Forall_forall. intros k. by rewrite elem_of_elements. }
    induction Hall as [|k ks Hk _ IH]; csimpl; [done|].
    destruct (first_binned_is_Some size_voxel frame k Hk) as [q Hq].
    rewrite Hq. csimpl. rewrite IH. f_equal.
    unfold first_binned in Hq. apply head_Some_elem_of in Hq.
    by apply list_elem_of_filter in Hq as [? _].
  - apply sub_sample_frame_length.
Qed.

(** ** The bracket search of [icp] *)

(** The invariant of the knot list: times do not decrease. *)
Definition knots_ordered (vars : list TrajectoryVar) : Prop :=
  forall i a b, vars !! i = Some a -> vars !! S i = Some b ->
    (time a <=? time b) = true.

Section Bracket.

Context `{External}.

Variable vars : list TrajectoryVar.
Variable t : float.

(** No knot of the list brackets [t] from the right. *)
Definition past_all_knots : Prop :=
  forall i a, vars !! i = Some a -> (t <? time a) = false.

Lemma knot_search_exhausts (i trips : nat) :
  past_all_knots -> (i + trips < length vars)%nat ->
  knot_search vars t i trips = (i + trips)%nat.
Proof.
  intros Hpast. revert i.
  induction trips as [|trips IH]; intros i Hlen; simpl; [lia|].
  destruct (lookup_lt_is_Some_2 vars i) as [a Ha]; [lia|].
  destruct (lookup_lt_is_Some_2 vars (S i)) as [b Hb]; [lia|].
  rewrite Ha, Hb, (Hpast _ _ Hb), andb_false_r.
  rewrite IH by lia. lia.
Qed.

Lemma ordered_past_all_knots (z : TrajectoryVar) :
  knots_ordered vars -> last vars = Some z -> Double.geb t (time z) = true ->
  forall i a, vars !! i = Some a -> (time a <=? t) = true.
Proof.
  intros Hord Hlast Hge.
  assert (forall k i a, (i + k = length vars - 1)%nat -> vars !! i = Some a ->
            (time a <=? t) = true) as Hall.
  { induction k as [|k IH]; intros i a Hik Ha.
    - rewrite last_lookup in Hlast.
      replace (pred (length vars)) with i in Hlast by lia.
      rewrite Ha in Hlast. by simplify_eq.
    - destruct (lookup_lt_is_Some_2 vars (S i)) as [b Hb]; [lia|].
      eapply DoubleOrder.leb_trans; [by eapply Hord|].
      apply (IH (S i)); [lia|done]. }
  intros i a Ha. apply lookup_lt_Some in Ha as Hlt.
  apply (Hall (length vars - 1 - i)%nat i); [lia|done].
Qed.

Lemma knot_bracket_out_of_bounds (what : string) (from : nat) :
  past_all_knots -> (from < length vars)%nat ->
  knot_bracket what vars t from
  = OutOfBounds "trajectory_vars_" (Z.of_nat (length vars)) (length vars).
Proof.
  intros Hpast Hfrom. unfold knot_bracket.
  rewrite knot_search_exhausts by (done || lia).
  replace (from + (length vars - 1 - from))%nat with (length vars - 1)%nat by lia.
  destruct (lookup_lt_is_Some_2 vars (length vars - 1)) as [a Ha]; [lia|].
  rewrite Ha, (Hpast _ _ Ha).
  replace (S (length vars - 1)) with (length vars) by lia.
  by rewrite (lookup_ge_None_2 vars (length vars)).
Qed.

End Bracket.

(** C5. When the knot times do not decrease and the queried time is at or
    after the time of the last knot, the search of [icp] for the bracketing
    knots (for an IMU sample as for the mid time: whatever the exception
    that was meant) ends in a read of [trajectory_vars_[i + 1]] with
    [i + 1] equal to the size of the vector, before any exception: that
    index is not in range; the cost term of such an IMU sample is never
    built. *)
Theorem knot_bracket_reads_past_the_end `{External}
    (what : string) (vars : list TrajectoryVar) (t : float) (from : nat)
    (z : TrajectoryVar) :
  knots_ordered vars ->
  (from < length vars)%nat ->
  last vars = Some z ->
  Double.geb t (time z) = true ->
  knot_bracket what vars t from
  = OutOfBounds "trajectory_vars_" (Z.of_nat (length vars)) (length vars)
  /\ vars !! length vars = None
  /\ forall o prev costs imu s,
       trajectory_vars_ s = vars ->
       Z.to_nat (prev_trajectory_var_index prev) = from ->
       imu_timestamp imu = t ->
       icp_imu_cost_term o prev costs imu s
       = (OutOfBounds "trajectory_vars_" (Z.of_nat (length vars)) (length vars), s).
Proof.
  intros Hord Hfrom Hlast Hge.
  assert (past_all_knots vars t) as Hpast.
  { intros i a Ha. apply DoubleOrder.leb_not_ltb.
    by eapply ordered_past_all_knots. }
  split; [by apply knot_bracket_out_of_bounds|].
  split; [by apply lookup_ge_None_2|].
  intros o prev costs imu s Hvars Hprev Himu.
  unfold icp_imu_cost_term, mbind, M_bind, bind, gets, lift. simpl.
  rewrite Hvars, Hprev, Himu.
  by rewrite (knot_bracket_out_of_bounds vars t _ from Hpast Hfrom).
Qed.

(** ** Reasoning about runs of the engine *)

Section Runs.

Context `{External}.

(** *** Runs that return *)

Lemma bind_returns {A B} (k : A -> M B) (m : M A) s b s' :
  mbind k m s = (Ret b, s') ->
  exists a s1, m s = (Ret a, s1) /\ k a s1 = (Ret b, s').
Proof.
  unfold mbind, M_bind, bind. destruct (m s) as [[a|w|c i n] s1]; [eauto|done..].
Qed.

Lemma ret_returns {A} (a b : A) s s' : ret a s = (Ret b, s') -> b = a /\ s' = s.
Proof. unfold ret. intros [= -> ->]. done. Qed.

Lemma gets_returns {A} (f : SteamLioOdometry -> A) s b s' :
  gets f s = (Ret b, s') -> b = f s /\ s' = s.
Proof. unfold gets. intros [= <- <-]. done. Qed.

Lemma modify_returns (f : SteamLioOdometry -> SteamLioOdometry) s b s' :
  modify f s = (Ret b, s') -> s' = f s.
Proof. unfold modify. intros [= _ <-]. done. Qed.

Lemma lift_returns {A} (r : Outcome A) s b s' :
  lift r s = (Ret b, s') -> r = Ret b /\ s' = s.
Proof. unfold lift. intros [= -> ->]. done. Qed.

Lemma index_returns {A} name (l : list A) i s b s' :
  index name l i s = (Ret b, s') ->
  (0 <= i)%Z /\ l !! Z.to_nat i = Some b /\ s' = s.
Proof.
  unfold index. destruct (0 <=? i)%Z eqn:Hi; [|done].
  destruct (l !! Z.to_nat i) eqn:Hl; [|done].
  intros [= <- <-]. split; [lia|done].
Qed.

Lemma at_returns {A} (l : list A) i s b s' :
  at_ l i s = (Ret b, s') ->
  (0 <= i)%Z /\ l !! Z.to_nat i = Some b /\ s' = s.
Proof.
  unfold at_. destruct (0 <=? i)%Z eqn:Hi; [|done].
  destruct (l !! Z.to_nat i) eqn:Hl; [|done].
  intros [= <- <-]. split; [lia|done].
Qed.

End Runs.

(** Take a returning run apart, one step at a time. *)
Ltac run_step :=
  match goal with
  | H : mbind _ _ _ = (Ret _, _) |- _ =>
      let H1 := fresh "Hrun" in
      apply bind_returns in H; destruct H as (? & ? & H1 & H)
  | H : ret _ _ = (Ret _, _) |- _ => apply ret_returns in H; destruct H as [-> ->]
  | H : mret _ _ = (Ret _, _) |- _ => apply ret_returns in H; destruct H as [-> ->]
  | H : gets _ _ = (Ret _, _) |- _ => apply gets_returns in H; destruct H as [-> ->]
  | H : modify _ _ = (Ret _, _) |- _ => apply modify_returns in H; subst
  | H : throw _ _ = (Ret _, _) |- _ => discriminate H
  | H : out_of_bounds _ _ _ _ = (Ret _, _) |- _ => discriminate H
  | H : lift _ _ = (Ret _, _) |- _ =>
      let E := fresh "Hlift" in apply lift_returns in H; destruct H as [E ->]
  | H : index _ _ _ _ = (Ret _, _) |- _ =>
      let E := fresh "Hidx" in let P := fresh "Hpos" in
      apply index_returns in H; destruct H as (P & E & ->)
  | H : at_ _ _ _ = (Ret _, _) |- _ =>
      let E := fresh "Hat" in let P := fresh "Hpos" in
      apply at_returns in H; destruct H as (P & E & ->)
  | H : frame_index _ _ = (Ret _, _) |- _ => unfold frame_index in H
  | H : frame_at _ _ = (Ret _, _) |- _ => unfold frame_at in H
  | H : var_index _ _ = (Ret _, _) |- _ => unfold var_index in H
  | H : var_at _ _ = (Ret _, _) |- _ => unfold var_at in H
  | H : value_of_T _ _ = (Ret _, _) |- _ => unfold value_of_T in H
  | H : value_of_v _ _ = (Ret _, _) |- _ => unfold value_of_v in H
  | H : locked _ _ = (Ret _, _) |- _ => unfold locked in H
  | H : (let '(_, _) := ?p in _) _ = (Ret _, _) |- _ => destruct p
  | H : (let '(_, _) := ?p in _) = (Ret _, _) |- _ => destruct p
  end.

Ltac run_inv := repeat run_step.

(** *** What a run leaves unchanged

    [preserves R m]: the state [m] leaves is related by [R] to the state it
    started from, however the run ends. *)

Definition preserves `{External} {A} (R : relation SteamLioOdometry) (m : M A)
    : Prop :=
  forall s, R s (m s).2.

Section Preserves.

Context `{External}.
Context (R : relation SteamLioOdometry) `{!PreOrder R}.

Lemma preserves_ret {A} (a : A) : preserves R (ret a).
Proof. intros s. simpl. reflexivity. Qed.

Lemma preserves_mret {A} (a : A) : preserves R (mret a).
Proof. apply preserves_ret. Qed.

Lemma preserves_throw {A} what : preserves R (throw (A:=A) what).
Proof. intros s. simpl. reflexivity. Qed.

Lemma preserves_out_of_bounds {A} c i n : preserves R (out_of_bounds (A:=A) c i n).
Proof. intros s. simpl. reflexivity. Qed.

Lemma preserves_gets {A} (f : SteamLioOdometry -> A) : preserves R (gets f).
Proof. intros s. simpl. reflexivity. Qed.

Lemma preserves_lift {A} (r : Outcome A) : preserves R (lift r).
Proof. intros s. simpl. reflexivity. Qed.

Lemma preserves_modify f : (forall s, R s (f s)) -> preserves R (modify f).
Proof. intros Hf s. apply Hf. Qed.

Lemma preserves_bind {A B} (m : M A) (k : A -> M B) :
  preserves R m -> (forall a, preserves R (k a)) -> preserves R (mbind k m).
Proof.
  intros Hm Hk s. unfold mbind, M_bind, bind.
  specialize (Hm s). destruct (m s) as [[a|w|c i n] s1]; simpl in *; [|done..].
  etransitivity; [exact Hm|apply Hk].
Qed.

(** The same, when the rest of the computation relies on a property of
    the value that was returned. *)
Lemma preserves_bind_post {A B} (Q : A -> Prop) (m : M A) (k : A -> M B) :
  preserves R m -> (forall s a s1, m s = (Ret a, s1) -> Q a) ->
  (forall a, Q a -> preserves R (k a)) -> preserves R (mbind k m).
Proof.
  intros Hm HQ Hk s. unfold mbind, M_bind, bind.
  specialize (Hm s). specialize (HQ s).
  destruct (m s) as [[a|w|c i n] s1]; simpl in *; [|done..].
  etransitivity; [exact Hm|]. apply Hk. by eapply HQ.
Qed.

(** The same from one state, when only the first step depends on it. *)
Lemma preserves_bind_at {A B} (Q : A -> Prop) (m : M A) (k : A -> M B) s :
  R s (m s).2 -> (forall a s1, m s = (Ret a, s1) -> Q a) ->
  (forall a, Q a -> preserves R (k a)) -> R s (mbind k m s).2.
Proof.
  intros Hm HQ Hk. unfold mbind, M_bind, bind.
  destruct (m s) as [[a|w|c i n] s1]; simpl in *; [|done..].
  etransitivity; [exact Hm|]. apply Hk. by eapply HQ.
Qed.

Lemma preserves_index {A} name (l : list A) i : preserves R (index name l i).
Proof.
  unfold index. destruct (if (0 <=? i)%Z then l !! Z.to_nat i else None);
    [apply preserves_ret|apply preserves_out_of_bounds].
Qed.

Lemma preserves_at {A} (l : list A) i : preserves R (at_ l i).
Proof.
  unfold at_. destruct (if (0 <=? i)%Z then l !! Z.to_nat i else None);
    [apply preserves_ret|apply preserves_throw].
Qed.

Lemma preserves_when b m : preserves R m -> preserves R (when b m).
Proof. intros. destruct b; [done|apply preserves_ret]. Qed.

Lemma preserves_for_each {A B} (l : list A) (body : B -> A -> M B) acc :
  (forall acc x, preserves R (body acc x)) -> preserves R (for_each l body acc).
Proof.
  intros Hbody. revert acc. induction l as [|x l IH]; intros acc; simpl.
  - apply preserves_ret.
  - apply preserves_bind; [apply Hbody|apply IH].
Qed.

Lemma preserves_frame_index i : preserves R (frame_index i).
Proof. apply preserves_bind; [apply preserves_gets|intros; apply preserves_index]. Qed.
Lemma preserves_frame_at i : preserves R (frame_at i).
Proof. apply preserves_bind; [apply preserves_gets|intros; apply preserves_at]. Qed.
Lemma preserves_var_index i : preserves R (var_index i).
Proof. apply preserves_bind; [apply preserves_gets|intros; apply preserves_index]. Qed.
Lemma preserves_var_at i : preserves R (var_at i).
Proof. apply preserves_bind; [apply preserves_gets|intros; apply preserves_at]. Qed.
Lemma preserves_value_of_T id : preserves R (value_of_T id).
Proof. apply preserves_gets. Qed.
Lemma preserves_value_of_v id : preserves R (value_of_v id).
Proof. apply preserves_gets. Qed.
Lemma preserves_locked id : preserves R (locked id).
Proof. apply preserves_gets. Qed.

End Preserves.

(** A run that returns is covered by what the computation preserves. *)
Lemma preserves_returns `{External} {A} (R : relation SteamLioOdometry) (m : M A)
    s a s' :
  preserves R m -> m s = (Ret a, s') -> R s s'.
Proof. intros Hm Hrun. specialize (Hm s). by rewrite Hrun in Hm. Qed.

Create HintDb preserves discriminated.

(** Walk through a computation: the structure is handled here, and each
    write to the state is left to [side]. *)
Ltac preserves_step side :=
  first
    [ match goal with
      | |- PreOrder _ => apply _
      | |- forall _, preserves _ _ => intro
      | |- forall _ _, preserves _ _ => intro
      end
    | apply preserves_ret | apply preserves_mret | apply preserves_throw
    | apply preserves_out_of_bounds | apply preserves_gets | apply preserves_lift
    | apply preserves_index | apply preserves_at | apply preserves_frame_index
    | apply preserves_frame_at | apply preserves_var_index | apply preserves_var_at
    | apply preserves_value_of_T | apply preserves_value_of_v | apply preserves_locked
    | solve [eauto with preserves]
    | apply preserves_bind
    | apply preserves_when
    | apply preserves_for_each
    | apply preserves_modify; intros; side
    | match goal with
      | |- preserves _ (if ?b then _ else _) => destruct b
      | |- preserves _ (let '(_, _) := ?p in _) => destruct p
      | |- preserves _ (match ?x with _ => _ end) => destruct x
      end ].

Ltac preserves_walk side := repeat preserves_step side.

(** ** What the operations of the engine keep

    Every operation keeps the configuration, only appends to the log and
    to the store (the kind of a variable never changes) and never moves
    the marginalization pointer backwards.  A [Frame] says what it is
    asked to keep besides: the map, the knot list, the pointer, the
    variables that are locked, and the log itself. *)

Record Frame := mkFrame {
  keep_map : bool;
  keep_knots : bool;
  keep_pointer : bool;
  keep_locked : bool;
  keep_log : bool
}.

Section Keeps.

Context `{External}.

Definition kinds (s : SteamLioOdometry) : list VarKind :=
  var_kind <$> state_vars_ s.

Definition locked_stable (s s' : SteamLioOdometry) : Prop :=
  forall id x, state_vars_ s !! id = Some x -> var_locked x = true ->
    state_vars_ s' !! id = Some x.

Definition keeps (φ : Frame) (s s' : SteamLioOdometry) : Prop :=
  options_ s' = options_ s
  /\ T_i_r_gt_poses s' = T_i_r_gt_poses s
  /\ kinds s `prefix_of` kinds s'
  /\ steam_log_ s `prefix_of` steam_log_ s'
  /\ (to_marginalize_ s <= to_marginalize_ s')%Z
  /\ (keep_map φ -> map_ s' = map_ s)
  /\ (keep_knots φ -> trajectory_vars_ s' = trajectory_vars_ s)
  /\ (keep_pointer φ -> to_marginalize_ s' = to_marginalize_ s)
  /\ (keep_locked φ -> locked_stable s s')
  /\ (keep_log φ -> steam_log_ s' = steam_log_ s).

#[global] Instance keeps_preorder φ : PreOrder (keeps φ).
Proof.
  split.
  - intros s. unfold keeps, locked_stable. repeat split; auto; lia.
  - intros s1 s2 s3 (Ho & Hg & Hk & Hl & Hp & Hm & Hv & Hq & Hs & He)
      (Ho' & Hg' & Hk' & Hl' & Hp' & Hm' & Hv' & Hq' & Hs' & He').
    unfold keeps. repeat split.
    + congruence.
    + congruence.
    + by etransitivity.
    + by etransitivity.
    + lia.
    + intros ?. rewrite Hm', Hm; done.
    + intros ?. rewrite Hv', Hv; done.
    + intros ?. rewrite Hq', Hq; done.
    + intros Hφ id x Hx Hlock. apply Hs'; [done| |done]. by apply Hs.
    + intros ?. rewrite He', He; done.
Qed.

(** A write that touches none of the listed components. *)
Lemma keeps_intro φ s s' :
  options_ s' = options_ s -> T_i_r_gt_poses s' = T_i_r_gt_poses s ->
  state_vars_ s' = state_vars_ s -> steam_log_ s' = steam_log_ s ->
  to_marginalize_ s' = to_marginalize_ s ->
  (keep_map φ -> map_ s' = map_ s) ->
  (keep_knots φ -> trajectory_vars_ s' = trajectory_vars_ s) ->
  keeps φ s s'.
Proof.
  intros Ho Hg Hst Hl Hp Hm Hv. unfold keeps, kinds, locked_stable.
  rewrite Ho, Hg, Hst, Hl, Hp. repeat split; auto; try lia.
Qed.

(** *** The store *)

Lemma MakeShared_keeps φ k v : preserves (keeps φ) (MakeShared k v).
Proof.
  intros s. unfold MakeShared, mbind, M_bind, bind, gets, modify, ret. simpl.
  unfold keeps, kinds, locked_stable. simpl. repeat split; auto; try lia.
  - rewrite fmap_app. by apply prefix_app_r.
  - intros _ id x Hx _. by apply lookup_app_l_Some.
Qed.

Lemma alter_var_keeps φ id f :
  (forall x, var_kind (f x) = var_kind x) ->
  (keep_locked φ -> forall x, var_locked x = true -> f x = x) ->
  preserves (keeps φ) (alter_var id f).
Proof.
  intros Hkind Hlocked s. unfold alter_var, modify. simpl.
  unfold keeps, kinds, locked_stable. simpl. repeat split; auto; try lia.
  - replace (var_kind <$> alter f id (state_vars_ s))
      with (var_kind <$> state_vars_ s); [done|].
    apply list_eq. intros i. rewrite !list_lookup_fmap.
    destruct (decide (id = i)) as [->|Hne].
    + rewrite list_lookup_alter_eq. destruct (_ !! i); simpl; [|done].
      by rewrite Hkind.
    + by rewrite list_lookup_alter_ne.
  - intros Hφ i x Hx Hl. destruct (decide (id = i)) as [->|Hne].
    + rewrite list_lookup_alter_eq, Hx. simpl. by rewrite Hlocked.
    + by rewrite list_lookup_alter_ne.
Qed.

Lemma lock_keeps φ id : preserves (keeps φ) (lock id).
Proof.
  apply alter_var_keeps; [done|]. intros _ [k v l] Hl. simpl in *. by subst.
Qed.

Lemma update_keeps φ id xi : keep_locked φ = false -> preserves (keeps φ) (update id xi).
Proof. intros Hφ. apply alter_var_keeps; [done|]. by rewrite Hφ. Qed.

Lemma commit_kinds enr proposal store :
  var_kind <$> commit enr proposal store = var_kind <$> store.
Proof.
  unfold commit. apply list_eq. intros i.
  rewrite !list_lookup_fmap, list_lookup_imap.
  destruct (store !! i) as [x|]; [|done]. simpl.
  destruct (proposal !! i); [|done]. by case_match.
Qed.

Lemma commit_locked enr proposal store id x :
  store !! id = Some x -> var_locked x = true ->
  commit enr proposal store !! id = Some x.
Proof.
  intros Hx Hl. unfold commit. rewrite list_lookup_imap, Hx. simpl.
  destruct (proposal !! id); [|done]. by rewrite Hl, andb_false_r.
Qed.

(** *** The log, the filter and the solver *)

Lemma log_keeps φ e : keep_log φ = false -> preserves (keeps φ) (log e).
Proof.
  intros Hφ s. unfold log, modify. simpl.
  unfold keeps, kinds, locked_stable. simpl. rewrite Hφ.
  repeat split; auto; try lia; try done.
  by apply prefix_app_r.
Qed.

Lemma set_filter_keeps φ f :
  preserves (keeps φ) (modify (fun s => set_sliding_window_filter_ (f s) s)).
Proof. intros s. by apply keeps_intro. Qed.

Lemma swf_addStateVariable_keeps φ vars :
  keep_log φ = false -> preserves (keeps φ) (swf_addStateVariable vars).
Proof.
  intros Hφ. unfold swf_addStateVariable.
  apply preserves_bind; [apply _|apply set_filter_keeps|intros; by apply log_keeps].
Qed.

Lemma swf_marginalizeVariable_keeps φ vars :
  keep_log φ = false -> preserves (keeps φ) (swf_marginalizeVariable vars).
Proof.
  intros Hφ. unfold swf_marginalizeVariable.
  apply preserves_bind; [apply _| |intros; by apply log_keeps].
  apply (set_filter_keeps φ
           (fun s => marginalizeVariable (sliding_window_filter_ s)
                       (var_value <$> state_vars_ s) vars)).
Qed.

Lemma swf_addCostTerm_keeps φ c :
  keep_log φ = false -> preserves (keeps φ) (swf_addCostTerm c).
Proof.
  intros Hφ. unfold swf_addCostTerm.
  apply preserves_bind; [apply _|apply set_filter_keeps|intros; by apply log_keeps].
Qed.

Lemma swf_addPriorCostTerms_keeps φ tr :
  keep_log φ = false -> preserves (keeps φ) (swf_addPriorCostTerms tr).
Proof.
  intros Hφ. unfold swf_addPriorCostTerms.
  apply preserves_bind; [apply _|apply set_filter_keeps|intros; by apply log_keeps].
Qed.

Lemma optimize_keeps φ p problem n :
  keep_log φ = false -> preserves (keeps φ) (optimize p problem n).
Proof.
  intros Hφ. unfold optimize.
  apply preserves_bind; [apply _|by apply log_keeps|intros _].
  apply preserves_bind; [apply _|apply preserves_gets; apply _|intros store].
  destruct (GaussNewtonSolver_optimize _ _ _) as [what|proposal];
    [apply preserves_throw; apply _|].
  intros s. unfold modify. simpl.
  unfold keeps, kinds, locked_stable. simpl. repeat split; auto; try lia.
  - by rewrite commit_kinds.
  - intros _ id x. apply commit_locked.
Qed.

(** *** Frames, knots and the pointer *)

Lemma modify_frame_keeps φ i f : preserves (keeps φ) (modify_frame i f).
Proof.
  unfold modify_frame.
  apply preserves_bind; [apply _|apply preserves_frame_index; apply _|intros fr].
  intros s. by apply keeps_intro.
Qed.

Lemma push_frame_keeps φ fr :
  preserves (keeps φ) (modify (fun s => set_trajectory_ (trajectory_ s ++ [fr]) s)).
Proof. intros s. by apply keeps_intro. Qed.

Lemma push_knot_keeps φ k : keep_knots φ = false -> preserves (keeps φ) (push_knot k).
Proof.
  intros Hφ s. unfold push_knot, modify. simpl.
  apply keeps_intro; auto. by rewrite Hφ.
Qed.

Lemma set_map_keeps φ f :
  keep_map φ = false -> preserves (keeps φ) (modify (fun s => set_map_ (f s) s)).
Proof. intros Hφ s. simpl. apply keeps_intro; auto. by rewrite Hφ. Qed.

End Keeps.

#[export] Hint Resolve MakeShared_keeps lock_keeps update_keeps log_keeps
  swf_addStateVariable_keeps swf_marginalizeVariable_keeps swf_addCostTerm_keeps
  swf_addPriorCostTerms_keeps optimize_keeps modify_frame_keeps push_frame_keeps
  push_knot_keeps set_map_keeps : preserves.

(** The walk of a computation for [keeps]. *)
Ltac keeps_walk := preserves_walk ltac:(first [done | by apply keeps_intro]).

(** ** What the stages of [registerFrame] keep *)

Section Stages.

Context `{External}.
Variable φ : Frame.

Lemma initializeTimestamp_keeps i cf : preserves (keeps φ) (initializeTimestamp i cf).
Proof. unfold initializeTimestamp. destruct cf as [[? ?] ?]. keeps_walk. Qed.

Lemma initializeMotion_keeps i : preserves (keeps φ) (initializeMotion i).
Proof. unfold initializeMotion. keeps_walk. Qed.

Lemma initializeFrame_keeps i cf : preserves (keeps φ) (initializeFrame i cf).
Proof. unfold initializeFrame. keeps_walk. Qed.

Local Hint Resolve initializeTimestamp_keeps initializeMotion_keeps
  initializeFrame_keeps : preserves.

Lemma ingest_keeps cf : preserves (keeps φ) (ingest cf).
Proof. unfold ingest. keeps_walk. Qed.

Lemma updateMap_keeps i u : keep_map φ = false -> preserves (keeps φ) (updateMap i u).
Proof. intros Hφ. unfold updateMap. keeps_walk. Qed.

Lemma icp_previous_state_keeps i :
  keep_locked φ = false -> preserves (keeps φ) (icp_previous_state i).
Proof. intros Hφ. unfold icp_previous_state. keeps_walk. Qed.

Lemma icp_add_state_keeps o prev acc t :
  keep_knots φ = false -> preserves (keeps φ) (icp_add_state o prev acc t).
Proof. intros Hφ. unfold icp_add_state. keeps_walk. Qed.

Local Hint Resolve icp_add_state_keeps : preserves.

Lemma icp_new_states_keeps i prev :
  keep_knots φ = false -> preserves (keeps φ) (icp_new_states i prev).
Proof. intros Hφ. unfold icp_new_states. keeps_walk. Qed.

Lemma icp_state_priors_keeps i prev tr : preserves (keeps φ) (icp_state_priors i prev tr).
Proof. unfold icp_state_priors. keeps_walk. Qed.

Lemma icp_imu_init_priors_keeps i prev : preserves (keeps φ) (icp_imu_init_priors i prev).
Proof. unfold icp_imu_init_priors. keeps_walk. Qed.

Lemma icp_enroll_var_keeps o first var :
  keep_log φ = false -> preserves (keeps φ) (icp_enroll_var o first var).
Proof. intros Hφ. unfold icp_enroll_var. keeps_walk. Qed.

Local Hint Resolve icp_enroll_var_keeps : preserves.

Lemma icp_add_filter_variables_keeps i prev curr :
  keep_log φ = false -> preserves (keeps φ) (icp_add_filter_variables i prev curr).
Proof. intros Hφ. unfold icp_add_filter_variables. keeps_walk. Qed.

(** Reads leave the state as it is. *)
Lemma var_at_state i s : (var_at i s).2 = s.
Proof.
  unfold var_at, at_, mbind, M_bind, bind, gets. simpl.
  by destruct (if (0 <=? i)%Z then _ else _).
Qed.

Lemma frame_at_state i s : (frame_at i s).2 = s.
Proof.
  unfold frame_at, at_, mbind, M_bind, bind, gets. simpl.
  by destruct (if (0 <=? i)%Z then _ else _).
Qed.

(** The loop moves the pointer to one of the indices it visits. *)
Lemma icp_marginalize_loop_keeps o t indices marg_vars s :
  keep_pointer φ = false ->
  (forall i, i ∈ indices -> (to_marginalize_ s <= i)%Z) ->
  keeps φ s (icp_marginalize_loop o t indices marg_vars s).2.
Proof.
  intros Hφ. revert marg_vars.
  induction indices as [|i indices IH]; intros marg_vars Hge; simpl.
  { reflexivity. }
  unfold mbind, M_bind, bind.
  pose proof (var_at_state i s) as Hs.
  destruct (var_at i s) as [[var|w|c j n] s1]; simpl in Hs; subst s1; try reflexivity.
  destruct (time var <=? t).
  - destruct (use_imu o); simpl.
    + apply IH. intros j Hj. apply Hge. by right.
    + apply IH. intros j Hj. apply Hge. by right.
  - simpl. assert (to_marginalize_ s <= i)%Z as Hi by (apply Hge; by left).
    unfold keeps, kinds, locked_stable. simpl. rewrite Hφ.
    repeat split; auto; done.
Qed.

Lemma icp_marginalize_keeps i curr :
  keep_pointer φ = false -> keep_log φ = false ->
  preserves (keeps φ) (icp_marginalize i curr).
Proof.
  intros Hφ Hlog s. unfold icp_marginalize, mbind, M_bind, bind, gets. simpl.
  destruct (i - delay_adding_points (options_ s) >? 0)%Z; simpl; [|reflexivity].
  pose proof (var_at_state (to_marginalize_ s) s) as Hs.
  destruct (var_at (to_marginalize_ s) s) as [[var|w|c j n] s1];
    simpl in Hs; subst s1; try reflexivity.
  pose proof (frame_at_state (i - delay_adding_points (options_ s) - 1) s) as Hs.
  destruct (frame_at _ s) as [[fr|w|c j n] s1]; simpl in Hs; subst s1; try reflexivity.
  match goal with |- context [icp_marginalize_loop ?o ?t ?l ?mv s] =>
    pose proof (icp_marginalize_loop_keeps o t l mv s Hφ) as Hloop;
    destruct (icp_marginalize_loop o t l mv s) as [[mv'|w|c j n] s1]
  end; simpl in *.
  - etransitivity; [apply Hloop|by apply swf_marginalizeVariable_keeps].
    intros k Hk. apply elem_of_seqZ in Hk. lia.
  - apply Hloop. intros k Hk. apply elem_of_seqZ in Hk. lia.
  - apply Hloop. intros k Hk. apply elem_of_seqZ in Hk. lia.
Qed.

Lemma icp_imu_cost_term_keeps o prev costs imu :
  preserves (keeps φ) (icp_imu_cost_term o prev costs imu).
Proof. unfold icp_imu_cost_term. keeps_walk. Qed.

Local Hint Resolve icp_imu_cost_term_keeps : preserves.

Lemma icp_imu_cost_terms_keeps prev imu c1 c2 :
  preserves (keeps φ) (icp_imu_cost_terms prev imu c1 c2).
Proof. unfold icp_imu_cost_terms. keeps_walk. Qed.

Local Hint Resolve icp_previous_state_keeps icp_new_states_keeps
  icp_state_priors_keeps icp_imu_init_priors_keeps icp_add_filter_variables_keeps
  icp_marginalize_keeps icp_imu_cost_terms_keeps : preserves.

Lemma icp_setup_keeps i imu :
  keep_knots φ = false -> keep_pointer φ = false -> keep_locked φ = false ->
  keep_log φ = false -> preserves (keeps φ) (icp_setup i imu).
Proof. intros Hk Hp Hl He. unfold icp_setup. keeps_walk. Qed.

Lemma transform_keypoints_keeps ctx kp : preserves (keeps φ) (transform_keypoints ctx kp).
Proof. unfold transform_keypoints. keeps_walk. Qed.

Lemma problem_addCostTerms_keeps iter costs problem :
  keep_log φ = false -> preserves (keeps φ) (problem_addCostTerms iter costs problem).
Proof. intros He. unfold problem_addCostTerms. keeps_walk. Qed.

Local Hint Resolve transform_keypoints_keeps problem_addCostTerms_keeps : preserves.

Lemma icp_iteration_keeps i ctx st iter :
  keep_log φ = false -> preserves (keeps φ) (icp_iteration i ctx st iter).
Proof. intros He. unfold icp_iteration. keeps_walk. Qed.

Local Hint Resolve icp_iteration_keeps : preserves.

Lemma icp_iterations_keeps i ctx iters st :
  keep_log φ = false -> preserves (keeps φ) (icp_iterations i ctx iters st).
Proof.
  intros He. revert st. induction iters as [|iter iters IH]; intros st; simpl.
  - keeps_walk.
  - keeps_walk.
Qed.

Lemma swf_addCostTerms_keeps costs :
  keep_log φ = false -> preserves (keeps φ) (swf_addCostTerms costs).
Proof. intros He. unfold swf_addCostTerms. keeps_walk. Qed.

Local Hint Resolve swf_addCostTerms_keeps : preserves.

Lemma icp_assemble_window_keeps ctx st :
  keep_log φ = false -> preserves (keeps φ) (icp_assemble_window ctx st).
Proof. intros He. unfold icp_assemble_window. keeps_walk. Qed.

Lemma icp_solve_window_keeps : keep_log φ = false -> preserves (keeps φ) icp_solve_window.
Proof. intros He. unfold icp_solve_window. keeps_walk. Qed.

Lemma icp_finish_keeps i ctx imu st : preserves (keeps φ) (icp_finish i ctx imu st).
Proof.
  unfold icp_finish, use_T_mi_gt. simpl negb.
  apply preserves_bind; [apply _|keeps_walk|intros o].
  apply preserves_bind; [apply _|keeps_walk|intros vars].
  rewrite andb_false_r. keeps_walk.
Qed.

Local Hint Resolve icp_setup_keeps icp_iterations_keeps icp_assemble_window_keeps
  icp_solve_window_keeps icp_finish_keeps : preserves.

Lemma icp_assembled_keeps i kp imu :
  keep_knots φ = false -> keep_pointer φ = false -> keep_locked φ = false ->
  keep_log φ = false -> preserves (keeps φ) (icp_assembled i kp imu).
Proof. intros Hk Hp Hl He. unfold icp_assembled. keeps_walk. Qed.

Local Hint Resolve icp_assembled_keeps : preserves.

Lemma icp_keeps i kp imu :
  keep_knots φ = false -> keep_pointer φ = false -> keep_locked φ = false ->
  keep_log φ = false -> preserves (keeps φ) (icp i kp imu).
Proof. intros Hk Hp Hl He. unfold icp. keeps_walk. Qed.

End Stages.

#[export] Hint Resolve initializeTimestamp_keeps initializeMotion_keeps
  initializeFrame_keeps ingest_keeps updateMap_keeps icp_previous_state_keeps
  icp_add_state_keeps icp_new_states_keeps icp_state_priors_keeps
  icp_imu_init_priors_keeps icp_enroll_var_keeps icp_add_filter_variables_keeps
  icp_marginalize_keeps icp_imu_cost_term_keeps icp_imu_cost_terms_keeps
  icp_setup_keeps transform_keypoints_keeps problem_addCostTerms_keeps
  icp_iteration_keeps icp_iterations_keeps swf_addCostTerms_keeps
  icp_assemble_window_keeps icp_solve_window_keeps icp_finish_keeps
  icp_assembled_keeps icp_keeps : preserves.

#[export] Hint Extern 1 (_ = false) => reflexivity : preserves.

(** For every step of a run in the context, what it keeps under [φ] (the
    steps that do not keep it are passed over). *)
Ltac kept φ :=
  repeat match goal with
  | Hr : ?m ?s = (Ret _, ?s') |- _ =>
      lazymatch goal with
      | _ : keeps φ s s' |- _ => fail
      | _ => idtac
      end;
      let K := fresh "Hkeep" in
      assert (keeps φ s s') as K
        by (eapply (preserves_returns (keeps φ) m s); [eauto with preserves|exact Hr])
  end.

(** ** A frame whose registration fails *)

Section Abort.

Context `{External}.

(** Keep the map, and keep the knot list. *)
Definition only_map : Frame := mkFrame true false false false false.
Definition only_knots : Frame := mkFrame false true false false false.

Lemma keeps_map s s' : keeps only_map s s' -> map_ s' = map_ s.
Proof. unfold keeps. simpl. intros (_ & _ & _ & _ & _ & Hm & _). by apply Hm. Qed.

Lemma keeps_knots s s' : keeps only_knots s s' -> trajectory_vars_ s' = trajectory_vars_ s.
Proof. unfold keeps. simpl. intros (_ & _ & _ & _ & _ & _ & Hk & _). by apply Hk. Qed.

Lemma keeps_options φ s s' : keeps φ s s' -> options_ s' = options_ s.
Proof. by intros (Ho & _). Qed.

Lemma keeps_pointer φ s s' : keeps φ s s' -> (to_marginalize_ s <= to_marginalize_ s')%Z.
Proof. by intros (_ & _ & _ & _ & Hp & _). Qed.

(** Every new state is one knot more. *)
Lemma icp_add_state_knot o prev acc t s r s' :
  icp_add_state o prev acc t s = (Ret r, s') ->
  exists k, trajectory_vars_ s' = trajectory_vars_ s ++ [k].
Proof.
  destruct acc as [[tr ssv] idx]. unfold icp_add_state, use_T_mi_gt.
  intros Hrun. run_inv.
  repeat match goal with
  | Hr : MakeShared _ _ _ = (Ret _, _) |- _ =>
      apply (preserves_returns (keeps only_knots)) in Hr;
      [apply keeps_knots in Hr|apply MakeShared_keeps]
  | Hr : lock _ _ = (Ret _, _) |- _ =>
      apply (preserves_returns (keeps only_knots)) in Hr;
      [apply keeps_knots in Hr|apply lock_keeps]
  end.
  unfold push_knot in *. run_inv. simpl.
  eexists. repeat match goal with Hr : trajectory_vars_ _ = _ |- _ => rewrite Hr; clear Hr end.
  reflexivity.
Qed.

Lemma icp_add_states_knots o prev l acc s r s' :
  for_each l (icp_add_state o prev) acc s = (Ret r, s') ->
  exists new, trajectory_vars_ s' = trajectory_vars_ s ++ new
              /\ length new = length l.
Proof.
  revert acc s. induction l as [|t l IH]; intros acc s Hrun; simpl in Hrun.
  - run_inv. exists []. by rewrite app_nil_r.
  - run_inv. apply icp_add_state_knot in Hrun0 as [k Hk].
    apply IH in Hrun as (new & Hnew & Hlen).
    exists (k :: new). split; [|simpl; lia].
    rewrite Hnew, Hk, <- app_assoc. done.
Qed.

Lemma knot_times_length o t0 t1 :
  length (knot_times o t0 t1) = S (Z.to_nat (num_extra_states o)).
Proof. unfold knot_times. rewrite length_app, length_fmap, length_seqZ. simpl. lia. Qed.

Lemma icp_new_states_knots i prev s r s' :
  icp_new_states i prev s = (Ret r, s') ->
  exists new, trajectory_vars_ s' = trajectory_vars_ s ++ new
              /\ length new = S (Z.to_nat (num_extra_states (options_ s))).
Proof.
  unfold icp_new_states. intros Hrun. run_inv.
  destruct (_ <? 0)%Z; [run_inv|].
  apply icp_add_states_knots in Hrun as (new & Hnew & Hlen).
  exists new. split; [done|]. by rewrite Hlen, knot_times_length.
Qed.

Lemma icp_setup_knots i imu s ctx s' :
  icp_setup i imu s = (Ret ctx, s') ->
  exists new, trajectory_vars_ s' = trajectory_vars_ s ++ new
              /\ length new = S (Z.to_nat (num_extra_states (options_ s))).
Proof.
  unfold icp_setup. intros Hrun. run_inv. kept only_knots.
  match goal with Hn : icp_new_states _ _ _ = _ |- _ =>
    apply icp_new_states_knots in Hn as (new & Hnew & Hlen) end.
  repeat match goal with Hk : keeps only_knots _ _ |- _ =>
    pose proof (keeps_options _ _ _ Hk); apply keeps_knots in Hk end.
  exists new. split; [congruence|]. rewrite Hlen. congruence.
Qed.

Lemma icp_knots i kp imu s r s' :
  icp i kp imu s = (Ret r, s') ->
  exists new, trajectory_vars_ s' = trajectory_vars_ s ++ new
              /\ length new = S (Z.to_nat (num_extra_states (options_ s))).
Proof.
  unfold icp, icp_assembled. intros Hrun. run_inv. kept only_knots.
  match goal with Hn : icp_setup _ _ _ = _ |- _ =>
    apply icp_setup_knots in Hn as (new & Hnew & Hlen) end.
  repeat match goal with Hk : keeps only_knots _ _ |- _ =>
    pose proof (keeps_options _ _ _ Hk); apply keeps_knots in Hk end.
  exists new. split; [congruence|]. rewrite Hlen. congruence.
Qed.

End Abort.

(** C2, as the code has it.  When [registerFrame] returns a summary whose
    [success] is false, the voxel map is exactly as it was before the
    call; the knot list keeps its knots and has gained the knots of the
    frame, [num_extra_states + 1] of them; and the marginalization pointer
    has not moved backwards (it advances as for any frame). *)
Theorem registerFrame_failed_registration `{External}
    (const_frame : float * list Point3D * list IMUData)
    (s s' : SteamLioOdometry) (summary : RegistrationSummary) :
  registerFrame const_frame s = (Ret summary, s') ->
  success summary = false ->
  map_ s' = map_ s
  /\ (exists new,
        trajectory_vars_ s' = trajectory_vars_ s ++ new
        /\ length new = S (Z.to_nat (num_extra_states (options_ s))))
  /\ (to_marginalize_ s <= to_marginalize_ s')%Z.
Proof.
  unfold registerFrame. intros Hrun Hfail. run_inv.
  destruct (_ >? 0)%Z.
  - run_inv. simpl in Hrun.
    destruct (negb _) eqn:Hneg in Hrun.
    + run_inv. simpl in *.
      match goal with Hi : icp _ _ _ _ = _ |- _ =>
        pose proof (icp_knots _ _ _ _ _ _ Hi) as (new & Hnew & Hlen) end.
      kept only_map. kept only_knots.
      repeat match goal with Hk : keeps only_map _ _ |- _ =>
        pose proof (keeps_pointer _ _ _ Hk); apply keeps_map in Hk end.
      repeat match goal with Hk : keeps only_knots _ _ |- _ =>
        pose proof (keeps_options _ _ _ Hk); apply keeps_knots in Hk end.
      split; [by etransitivity|]. split; [|lia].
      exists new. split; [by rewrite Hnew, Hkeep1|]. by rewrite Hlen, H2.
    + run_inv. simpl in *. by destruct b.
  - run_inv. simpl in *. run_inv. simpl in *. done.
Qed.

(** The theorem at the second frame of the bench, which has four keypoints
    where a hundred are asked for. *)
Lemma registerFrame_failed_registration_bench :
  let s := Bench.after Bench.frame0 (Bench.engine Bench.demanding) in
  exists summary s',
    registerFrame Bench.frame1 s = (Ret summary, s')
    /\ success summary = false
    /\ map_ s' = map_ s
    /\ (exists new,
          trajectory_vars_ s' = trajectory_vars_ s ++ new
          /\ length new = S (Z.to_nat (num_extra_states (options_ s))))
    /\ (to_marginalize_ s <= to_marginalize_ s')%Z.
Proof.
  cbv zeta. eexists _, _.
  split; [vm_compute; reflexivity|].
  split; [reflexivity|].
  eapply (registerFrame_failed_registration Bench.frame1);
    [vm_compute; reflexivity|reflexivity].
Defined.

(** C2, as the specification states it, fails: on the same frame the
    registration returns [success = false], and the knot list has grown
    from two knots to three while the marginalization pointer has moved
    from 1 to 2. *)
Lemma failed_registration_changes_the_knots :
  let s := Bench.after Bench.frame0 (Bench.engine Bench.demanding) in
  exists summary s',
    registerFrame Bench.frame1 s = (Ret summary, s')
    /\ success summary = false
    /\ length (trajectory_vars_ s) = 2%nat
    /\ length (trajectory_vars_ s') = 3%nat
    /\ trajectory_vars_ s' <> trajectory_vars_ s
    /\ to_marginalize_ s = 1%Z
    /\ to_marginalize_ s' = 2%Z.
Proof.
  cbv zeta. eexists _, _.
  split; [vm_compute; reflexivity|].
  repeat split; try reflexivity.
  intros Heq. apply (f_equal length) in Heq. vm_compute in Heq. discriminate.
Qed.

(** ** Runs on the bench *)

(** The theorem above on three knots at 0, 0.1 and 0.2, for a query at
    0.2 that starts from the second knot. *)
Lemma knot_bracket_reads_past_the_end_bench :
  let vars := [mkTrajectoryVar 0 0%nat 1%nat 2%nat 3%nat 4%nat;
               mkTrajectoryVar 0.1 5%nat 6%nat 7%nat 8%nat 9%nat;
               mkTrajectoryVar 0.2 10%nat 11%nat 12%nat 13%nat 14%nat] in
  knot_bracket "mid time not within knot times" vars 0.2 1%nat
  = OutOfBounds "trajectory_vars_" 3 3
  /\ vars !! 3%nat = None.
Proof.
  cbv zeta.
  destruct (knot_bracket_reads_past_the_end (H := Bench.bench)
              "mid time not within knot times"
              [mkTrajectoryVar 0 0%nat 1%nat 2%nat 3%nat 4%nat;
               mkTrajectoryVar 0.1 5%nat 6%nat 7%nat 8%nat 9%nat;
               mkTrajectoryVar 0.2 10%nat 11%nat 12%nat 13%nat 14%nat] 0.2 1%nat
              (mkTrajectoryVar 0.2 10%nat 11%nat 12%nat 13%nat 14%nat)) as (Hb & Hn & _).
  - intros [|[|[|i]]] a b Ha Hb; simpl in *; simplify_eq; reflexivity.
  - simpl. lia.
  - reflexivity.
  - reflexivity.
  - split; [exact Hb|exact Hn].
Defined.

(** C4, at an IMU sample that no pair of knots brackets.  The second scan
    of the bench arrives with two IMU samples, at 0.15 and at 0.2; the
    knots of the window are at 0, 0.1 and 0.2, so that the second sample
    is at the time of the last knot.  [registerFrame] ends in a read of
    [trajectory_vars_[3]] in a vector of three knots, and not in the
    exception. *)
Theorem registerFrame_imu_stamp_at_last_knot :
  let s := Bench.after Bench.frame0 (Bench.engine (Bench.with_imu Bench.options)) in
  (registerFrame Bench.frame1_imu s).1 = OutOfBounds "trajectory_vars_" 3 3
  /\ time <$> trajectory_vars_ (registerFrame Bench.frame1_imu s).2 = [0; 0.1; 0.2]
  /\ imu_timestamp <$> Bench.frame1_imu.2 = [0.15; 0.2].
Proof. cbv zeta. split; [|split]; vm_compute; reflexivity. Qed.

(** C6, on a first scan whose time stamps are all negative: the scan goes
    from -0.2 to -0.1 and is evaluated at -0.15.  The frame gets the
    minimum as its begin and the evaluation time, and as its end the
    initial value of the running maximum, the smallest positive normal
    double, which is greater than every time stamp of the scan. *)
Theorem registerFrame_negative_stamps :
  let points := Bench.frame0_negative.1.2 in
  exists summary s' fr,
    registerFrame Bench.frame0_negative (Bench.engine Bench.options) = (Ret summary, s')
    /\ trajectory_ s' !! 0%nat = Some fr
    /\ forallb (fun p => (-0.2 <=? timestamp p) && (timestamp p <=? -0.1)) points = true
    /\ head (timestamp <$> points) = Some (-0.2)
    /\ last (timestamp <$> points) = Some (-0.1)
    /\ scan_timestamps points = (-0.2, Double.DBL_MIN)
    /\ begin_timestamp fr = -0.2
    /\ eval_timestamp fr = -0.15
    /\ end_timestamp fr = Double.DBL_MIN
    /\ (-0.1 <? end_timestamp fr) = true.
Proof.
  cbv zeta. eexists _, _, _.
  split; [vm_compute; reflexivity|].
  split; [vm_compute; reflexivity|].
  repeat split; vm_compute; reflexivity.
Qed.

(** C1, on the third scan of the bench (frame index 2, with
    [num_iters_icp = 3]).  The message of the convergence branch is
    logged at iteration 0: the changes are below both thresholds.  The
    loop goes on all the same: the problems of iterations 1 and 2 are
    solved before the sliding-window solve. *)
Theorem registerFrame_converged_loop_goes_on :
  let s := Bench.after Bench.frame1 (Bench.after Bench.frame0 (Bench.engine Bench.options)) in
  length (trajectory_ s) = 2%nat
  /\ num_iters_icp (options_ s) = 3%Z
  /\ loop_trace (drop (length (steam_log_ s)) (steam_log_ (Bench.after Bench.frame2 s)))
     = [E_optimize (IcpProblem 0) 5;
        E_LOG_INFO "CT_ICP: Finished with N= ICP iterations" 0;
        E_optimize (IcpProblem 1) 5;
        E_LOG_INFO "CT_ICP: Finished with N= ICP iterations" 1;
        E_optimize (IcpProblem 2) 5;
        E_LOG_INFO "CT_ICP: Finished with N= ICP iterations" 2;
        E_optimize SlidingWindowProblem 20].
Proof. cbv zeta. repeat split; vm_compute; reflexivity. Qed.

(** ** An IMU sample between two knots *)

(** When the search ends on a knot and its successor that bracket the time
    of the sample, the sample gives one cost term, on the gyroscope: the
    rate of the trajectory at the time of the sample against the measured
    rate and the bias of the knot, with the covariance [r_imu_ang] on the
    diagonal and the L1 loss.  No term on the accelerometer is added. *)
Theorem icp_imu_cost_term_within_knots `{External} (o : Options)
    (prev : PreviousState) (costs : list CostTerm) (imu : IMUData)
    (s : SteamLioOdometry) (i : nat) :
  knot_bracket "imu stamp not within knot times" (trajectory_vars_ s)
    (imu_timestamp imu) (Z.to_nat (prev_trajectory_var_index prev)) = Ret i ->
  exists a b,
    trajectory_vars_ s !! i = Some a
    /\ trajectory_vars_ s !! S i = Some b
    /\ (imu_timestamp imu <? time a) = false
    /\ Double.geb (imu_timestamp imu) (time b) = false
    /\ icp_imu_cost_term o prev costs imu s
       = (Ret (costs ++ [mkCostTerm
                           (GyroError (imu_timestamp imu) (imu_biases a) (ang_vel imu))
                           (mkNoiseModel (diagonal_matrix (vector3_list (r_imu_ang o)))
                              COVARIANCE)
                           L1LossFunc]), s).
Proof.
  intros Hbracket.
  unfold icp_imu_cost_term, mbind, M_bind, bind, gets, lift, index, ret. simpl.
  rewrite Hbracket. unfold knot_bracket in Hbracket.
  destruct (trajectory_vars_ s !! knot_search _ _ _ _) as [a|] eqn:Ha; [|done].
  destruct (imu_timestamp imu <? time a) eqn:Hlt; [done|].
  destruct (trajectory_vars_ s !! S (knot_search _ _ _ _)) as [b|] eqn:Hb; [|done].
  destruct (Double.geb (imu_timestamp imu) (time b)) eqn:Hge; [done|].
  injection Hbracket as <-.
  exists a, b. rewrite Nat2Z.id, Ha.
  destruct (Z.leb_spec 0 (Z.of_nat (knot_search (trajectory_vars_ s)
              (imu_timestamp imu) (Z.to_nat (prev_trajectory_var_index prev))
              (length (trajectory_vars_ s) - 1
               - Z.to_nat (prev_trajectory_var_index prev))))); [|lia].
  by repeat split.
Qed.

(** The theorem on the bench, for the sample at 0.15 between the knots at
    0.1 and at 0.2. *)
Lemma icp_imu_cost_term_within_knots_bench :
  let s := Bench.after Bench.frame1
             (Bench.after Bench.frame0 (Bench.engine Bench.options)) in
  let prev := Bench.previous_at_second_knot in
  exists a b,
    trajectory_vars_ s !! 1%nat = Some a
    /\ trajectory_vars_ s !! 2%nat = Some b
    /\ (imu_timestamp Bench.imu_within <? time a) = false
    /\ Double.geb (imu_timestamp Bench.imu_within) (time b) = false
    /\ icp_imu_cost_term Bench.options prev [] Bench.imu_within s
       = (Ret [mkCostTerm
                 (GyroError (imu_timestamp Bench.imu_within) (imu_biases a)
                    (ang_vel Bench.imu_within))
                 (mkNoiseModel
                    (diagonal_matrix (vector3_list (r_imu_ang Bench.options)))
                    COVARIANCE)
                 L1LossFunc], s).
Proof.
  cbv zeta.
  apply (icp_imu_cost_term_within_knots Bench.options
           Bench.previous_at_second_knot [] Bench.imu_within
           (Bench.after Bench.frame1
              (Bench.after Bench.frame0 (Bench.engine Bench.options)))
           1%nat).
  vm_compute. reflexivity.
Defined.

(** ** The bounds on the sliding window *)

Section Bounds.

Context `{External}.

(** The solver logs its call before anything else. *)
Lemma optimize_log p problem n s :
  steam_log_ (optimize p problem n s).2 = steam_log_ s ++ [E_optimize p n].
Proof.
  unfold optimize, log, mbind, M_bind, bind, gets, modify, throw. simpl.
  by destruct (GaussNewtonSolver_optimize _ _ _).
Qed.

Lemma bind_log_prefix {A B} (m : M A) (k : A -> M B) s l :
  l `prefix_of` steam_log_ (m s).2 ->
  (forall a, preserves (keeps (mkFrame false false false false false)) (k a)) ->
  l `prefix_of` steam_log_ (mbind k m s).2.
Proof.
  intros Hm Hk. unfold mbind, M_bind, bind.
  destruct (m s) as [[a|w|c i n] s1]; simpl in *; [|done..].
  etransitivity; [exact Hm|]. apply (Hk a s1).
Qed.

End Bounds.

(** C7. Once the cost terms of the frame are in the filter, [icp] throws
    when the filter has more than 100 variables, and otherwise when it
    has more than 100000 cost terms; in both cases the state is the one
    the assembly left: no solve was started.  When neither bound is
    exceeded [icp] goes on with the solve of the sliding window, with at
    most 20 iterations, which is the next call that is logged. *)
Theorem icp_window_bounds `{External} (index_frame : Z) (keypoints : list Point3D)
    (imu_data_vec : list IMUData) (s s1 : SteamLioOdometry)
    (ctx : IcpContext) (st : LoopState) :
  icp_assembled index_frame keypoints imu_data_vec s = (Ret (ctx, st), s1) ->
  let filter := sliding_window_filter_ s1 in
  ((100 < getNumberOfVariables filter)%Z ->
     icp index_frame keypoints imu_data_vec s
     = (Throw "too many variables in the filter!", s1))
  /\ ((getNumberOfVariables filter <= 100)%Z ->
      (100000 < getNumberOfCostTerms filter)%Z ->
      icp index_frame keypoints imu_data_vec s
      = (Throw "too many cost terms in the filter!", s1))
  /\ ((getNumberOfVariables filter <= 100)%Z ->
      (getNumberOfCostTerms filter <= 100000)%Z ->
      icp index_frame keypoints imu_data_vec s
      = (optimize SlidingWindowProblem filter 20;;
         icp_finish index_frame ctx imu_data_vec st) s1
      /\ steam_log_ s1 ++ [E_optimize SlidingWindowProblem 20]
         `prefix_of` steam_log_ (icp index_frame keypoints imu_data_vec s).2).
Proof.
  intros Hasm filter.
  assert (icp index_frame keypoints imu_data_vec s
          = (icp_solve_window;; icp_finish index_frame ctx imu_data_vec st) s1)
    as ->.
  { unfold icp. unfold mbind at 1, M_bind at 1, bind at 1. by rewrite Hasm. }
  assert ((icp_solve_window;; icp_finish index_frame ctx imu_data_vec st) s1
          = if (getNumberOfVariables filter >? 100)%Z
            then (Throw "too many variables in the filter!", s1)
            else if (getNumberOfCostTerms filter >? 100000)%Z
            then (Throw "too many cost terms in the filter!", s1)
            else (optimize SlidingWindowProblem filter 20;;
                  icp_finish index_frame ctx imu_data_vec st) s1) as ->.
  { unfold icp_solve_window, mbind, M_bind, bind, gets, throw. fold filter.
    destruct (getNumberOfVariables filter >? 100)%Z; [done|].
    by destruct (getNumberOfCostTerms filter >? 100000)%Z. }
  split; [|split].
  - intros Hv. apply Z.gtb_lt in Hv. by rewrite Hv.
  - intros Hv Hc. apply Z.gtb_lt in Hc.
    destruct (Z.gtb_spec (getNumberOfVariables filter) 100); [lia|].
    by rewrite Hc.
  - intros Hv Hc.
    destruct (Z.gtb_spec (getNumberOfVariables filter) 100); [lia|].
    destruct (Z.gtb_spec (getNumberOfCostTerms filter) 100000); [lia|].
    split; [done|].
    apply bind_log_prefix; [by rewrite optimize_log|].
    intros _. apply icp_finish_keeps.
Qed.

(** The theorem at the second frame of the bench: three variables and four
    cost terms, and the solve goes on. *)
Lemma icp_window_bounds_bench :
  let s := Bench.at_icp Bench.frame1 (Bench.after Bench.frame0 (Bench.engine Bench.options)) in
  let keypoints :=
    Bench.keypoints_at_icp Bench.frame1
      (Bench.after Bench.frame0 (Bench.engine Bench.options)) in
  exists ctx st s1,
    icp_assembled 1 keypoints [] s = (Ret (ctx, st), s1)
    /\ getNumberOfVariables (sliding_window_filter_ s1) = 3%Z
    /\ getNumberOfCostTerms (sliding_window_filter_ s1) = 4%Z
    /\ icp 1 keypoints [] s
       = (optimize SlidingWindowProblem (sliding_window_filter_ s1) 20;;
          icp_finish 1 ctx [] st) s1
    /\ steam_log_ s1 ++ [E_optimize SlidingWindowProblem 20]
       `prefix_of` steam_log_ (icp 1 keypoints [] s).2.
Proof.
  cbv zeta. eexists _, _, _.
  split; [vm_compute; reflexivity|].
  split; [vm_compute; reflexivity|].
  split; [vm_compute; reflexivity|].
  eapply (icp_window_bounds 1
            (Bench.keypoints_at_icp Bench.frame1
               (Bench.after Bench.frame0 (Bench.engine Bench.options)))
            []
            (Bench.at_icp Bench.frame1
               (Bench.after Bench.frame0 (Bench.engine Bench.options))));
    [vm_compute; reflexivity|vm_compute; discriminate|vm_compute; discriminate].
Defined.

(** The same frame with 101 more variables in the filter: [icp] throws,
    and the last solves of the log are those of the loop. *)
Lemma icp_too_many_variables_bench :
  let s0 := Bench.after Bench.frame0 (Bench.engine Bench.options) in
  let s := Bench.with_filter_variables 101 (Bench.at_icp Bench.frame1 s0) in
  let r := icp 1 (Bench.keypoints_at_icp Bench.frame1 s0) [] s in
  r.1 = Throw "too many variables in the filter!"
  /\ getNumberOfVariables (sliding_window_filter_ r.2) = 104%Z
  /\ loop_trace (drop (length (steam_log_ s)) (steam_log_ r.2))
     = [E_optimize (IcpProblem 0) 5; E_optimize (IcpProblem 1) 5;
        E_optimize (IcpProblem 2) 5].
Proof. cbv zeta. repeat split; vm_compute; reflexivity. Qed.

(** ** The extrinsics [T_mi] stay out of the problems

    With [use_T_mi_gt] set, no variable that was made for a [T_mi] is
    handed to the filter, and no cost term on a [T_mi] is built.  This is
    an invariant of the engine: [T_mi_out]. *)

Section Fence.

Context `{External}.

(** A variable of the store that was not made for a [T_mi]. *)
Definition not_T_mi (ks : list VarKind) (id : VarId) : Prop :=
  exists k, ks !! id = Some k /\ k <> K_T_mi.

(** A call that puts no [T_mi] into a problem. *)
Definition T_mi_free (ks : list VarKind) (e : Event) : Prop :=
  match e with
  | E_addStateVariable vars => Forall (not_T_mi ks) vars
  | E_addCostTerm _ c => is_T_mi_cost c = false
  | _ => True
  end.

(** The variables of a knot are what their names say. *)
Definition knot_kinded (ks : list VarKind) (k : TrajectoryVar) : Prop :=
  ks !! T_rm k = Some K_T_rm
  /\ ks !! w_mr_inr k = Some K_w_mr_inr
  /\ ks !! dw_mr_inr k = Some K_dw_mr_inr
  /\ ks !! imu_biases k = Some K_imu_biases
  /\ ks !! T_mi k = Some K_T_mi.

Definition T_mi_out (s : SteamLioOdometry) : Prop :=
  Forall (knot_kinded (kinds s)) (trajectory_vars_ s)
  /\ Forall (T_mi_free (kinds s)) (steam_log_ s).

(** The variables made for a [T_mi] are as they were. *)
Definition T_mi_vars_kept (s s' : SteamLioOdometry) : Prop :=
  forall id x, state_vars_ s !! id = Some x -> var_kind x = K_T_mi ->
    state_vars_ s' !! id = Some x.

(** A step keeps the invariant; a [strict] step keeps the [T_mi]
    variables besides. *)
Definition fenced (strict : bool) (s s' : SteamLioOdometry) : Prop :=
  T_mi_out s -> T_mi_out s' /\ (strict = true -> T_mi_vars_kept s s').

#[global] Instance fenced_preorder strict : PreOrder (fenced strict).
Proof.
  split.
  - intros s Hs. split; [done|]. by intros _ id x.
  - intros s1 s2 s3 H12 H23 H1.
    destruct (H12 H1) as [H2 K12]. destruct (H23 H2) as [H3 K23].
    split; [done|]. intros Hstrict id x Hx Hk.
    apply K23; [done| |done]. by apply K12.
Qed.

Lemma not_T_mi_mono ks ks' id : ks `prefix_of` ks' -> not_T_mi ks id -> not_T_mi ks' id.
Proof. intros Hp (k & Hk & Hne). exists k. split; [|done]. by eapply prefix_lookup_Some. Qed.

Lemma T_mi_free_mono ks ks' e : ks `prefix_of` ks' -> T_mi_free ks e -> T_mi_free ks' e.
Proof.
  intros Hp. destruct e; simpl; try done.
  intros Hvars. eapply Forall_impl; [exact Hvars|].
  intros id. by apply not_T_mi_mono.
Qed.

Lemma knot_kinded_mono ks ks' k : ks `prefix_of` ks' -> knot_kinded ks k -> knot_kinded ks' k.
Proof.
  intros Hp (H1 & H2 & H3 & H4 & H5).
  repeat split; by eapply prefix_lookup_Some.
Qed.

(** What a step may do: make variables, add knots whose variables are
    what their names say, and make calls that put no [T_mi] into a
    problem. *)
Lemma fenced_grow strict s s' knots events :
  kinds s `prefix_of` kinds s' ->
  trajectory_vars_ s' = trajectory_vars_ s ++ knots ->
  Forall (knot_kinded (kinds s')) knots ->
  steam_log_ s' = steam_log_ s ++ events ->
  Forall (T_mi_free (kinds s')) events ->
  (strict = true -> T_mi_vars_kept s s') ->
  fenced strict s s'.
Proof.
  intros Hp Hk Hknots Hl Hevents Hkept [Hs1 Hs2]. split; [|done]. split.
  - rewrite Hk. apply Forall_app. split; [|done].
    eapply Forall_impl; [exact Hs1|]. intros k. by apply knot_kinded_mono.
  - rewrite Hl. apply Forall_app. split; [|done].
    eapply Forall_impl; [exact Hs2|]. intros e. by apply T_mi_free_mono.
Qed.

Lemma fenced_intro strict s s' :
  state_vars_ s' = state_vars_ s -> trajectory_vars_ s' = trajectory_vars_ s ->
  steam_log_ s' = steam_log_ s -> fenced strict s s'.
Proof.
  intros Hst Hk Hl. apply (fenced_grow strict s s' [] []).
  - unfold kinds. by rewrite Hst.
  - by rewrite app_nil_r.
  - done.
  - by rewrite app_nil_r.
  - done.
  - intros _ id x. by rewrite Hst.
Qed.

Lemma fenced_log strict s s' e :
  state_vars_ s' = state_vars_ s -> trajectory_vars_ s' = trajectory_vars_ s ->
  steam_log_ s' = steam_log_ s ++ [e] -> T_mi_free (kinds s) e -> fenced strict s s'.
Proof.
  intros Hst Hk Hl He. apply (fenced_grow strict s s' [] [e]).
  - unfold kinds. by rewrite Hst.
  - by rewrite app_nil_r.
  - done.
  - done.
  - unfold kinds. rewrite Hst. by constructor.
  - intros _ id x. by rewrite Hst.
Qed.

(** *** The store *)

Lemma MakeShared_fenced strict k v : preserves (fenced strict) (MakeShared k v).
Proof.
  intros s. unfold MakeShared, mbind, M_bind, bind, gets, modify, ret. simpl.
  apply (fenced_grow strict _ _ [] []); simpl; try done.
  - unfold kinds. simpl. rewrite fmap_app. by apply prefix_app_r.
  - by rewrite app_nil_r.
  - by rewrite app_nil_r.
  - intros _ id x Hx _. by apply lookup_app_l_Some.
Qed.

Lemma alter_var_kinds id f (s : SteamLioOdometry) :
  (forall x, var_kind (f x) = var_kind x) ->
  var_kind <$> alter f id (state_vars_ s) = kinds s.
Proof.
  intros Hkind. unfold kinds. apply list_eq. intros i.
  rewrite !list_lookup_fmap.
  destruct (decide (id = i)) as [->|Hne].
  - rewrite list_lookup_alter_eq. destruct (_ !! i); simpl; [|done].
    by rewrite Hkind.
  - by rewrite list_lookup_alter_ne.
Qed.

Lemma alter_var_fenced strict id f :
  (forall x, var_kind (f x) = var_kind x) -> strict = false ->
  preserves (fenced strict) (alter_var id f).
Proof.
  intros Hkind -> s. unfold alter_var, modify. simpl.
  apply (fenced_grow false _ _ [] []); simpl; try done.
  - unfold kinds at 2. simpl. by rewrite alter_var_kinds.
  - by rewrite app_nil_r.
  - by rewrite app_nil_r.
Qed.

Lemma lock_fenced strict id : strict = false -> preserves (fenced strict) (lock id).
Proof. intros. by apply alter_var_fenced. Qed.

Lemma update_fenced strict id xi :
  strict = false -> preserves (fenced strict) (update id xi).
Proof. intros. by apply alter_var_fenced. Qed.

(** *** The log, the filter and the solver *)

Lemma log_fenced strict e :
  (forall ks, T_mi_free ks e) -> preserves (fenced strict) (log e).
Proof. intros He s. unfold log, modify. simpl. by apply (fenced_log strict _ _ e). Qed.

Lemma set_filter_fenced strict f :
  preserves (fenced strict) (modify (fun s => set_sliding_window_filter_ (f s) s)).
Proof. intros s. by apply fenced_intro. Qed.

Lemma swf_marginalizeVariable_fenced strict vars :
  preserves (fenced strict) (swf_marginalizeVariable vars).
Proof.
  unfold swf_marginalizeVariable.
  apply preserves_bind; [apply _| |intros; by apply log_fenced].
  apply (set_filter_fenced strict
           (fun s => marginalizeVariable (sliding_window_filter_ s)
                       (var_value <$> state_vars_ s) vars)).
Qed.

Lemma swf_addCostTerm_fenced strict c :
  is_T_mi_cost c = false -> preserves (fenced strict) (swf_addCostTerm c).
Proof.
  intros Hc. unfold swf_addCostTerm.
  apply preserves_bind; [apply _|apply set_filter_fenced|intros; by apply log_fenced].
Qed.

Lemma swf_addPriorCostTerms_fenced strict tr :
  preserves (fenced strict) (swf_addPriorCostTerms tr).
Proof.
  unfold swf_addPriorCostTerms.
  apply preserves_bind; [apply _|apply set_filter_fenced|intros; by apply log_fenced].
Qed.

(** The variables that were handed to the filter are in the calls of
    the log. *)
Lemma enrolled_elem_of l id :
  id ∈ enrolled l -> exists vars, E_addStateVariable vars ∈ l /\ id ∈ vars.
Proof.
  unfold enrolled. rewrite list_elem_of_In, in_flat_map.
  intros (e & He & Hid). destruct e; simpl in Hid; try done.
  exists vars. by rewrite !list_elem_of_In.
Qed.

(** A solver leaves the [T_mi] variables as they are: none is in its
    problem. *)
Lemma commit_T_mi_kept (s : SteamLioOdometry) l proposal id x :
  Forall (T_mi_free (kinds s)) l ->
  state_vars_ s !! id = Some x -> var_kind x = K_T_mi ->
  commit (enrolled l) proposal (state_vars_ s) !! id = Some x.
Proof.
  intros Hl Hx Hk. unfold commit. rewrite list_lookup_imap, Hx. simpl.
  destruct (proposal !! id); [|done].
  case_bool_decide as Hin; [|done].
  apply enrolled_elem_of in Hin as (vars & He & Hid).
  rewrite Forall_forall in Hl. specialize (Hl _ He). simpl in Hl.
  rewrite Forall_forall in Hl. destruct (Hl _ Hid) as (k & Hkind & Hne).
  unfold kinds in Hkind. rewrite list_lookup_fmap, Hx in Hkind.
  simpl in Hkind. congruence.
Qed.

Lemma optimize_fenced strict p problem n : preserves (fenced strict) (optimize p problem n).
Proof.
  intros s. unfold optimize, log, mbind, M_bind, bind, gets, modify, throw. simpl.
  destruct (GaussNewtonSolver_optimize _ _ _) as [what|proposal]; simpl.
  - by apply (fenced_log strict _ _ (E_optimize p n)).
  - intros Hs. pose proof Hs as [_ Hlog]. revert Hs.
    apply (fenced_grow strict _ _ [] [E_optimize p n]); simpl; try done.
    + unfold kinds at 2. simpl. by rewrite commit_kinds.
    + by rewrite app_nil_r.
    + by constructor.
    + intros _ id x Hx Hk. apply commit_T_mi_kept; [|done..].
      apply Forall_app. split; [done|]. by constructor.
Qed.

(** *** The new knots *)

(** One new knot: five new variables, the last one for [T_mi], the
    identity and locked. *)
Definition knot_at (t : float) (n : nat) : TrajectoryVar :=
  mkTrajectoryVar t n (1 + n)%nat (2 + n)%nat (3 + n)%nat (4 + n)%nat.

Definition knot_vars (T : Transformation) (w dw b : Vector6d) : list StateVar :=
  [mkStateVar K_T_rm (inl T) false; mkStateVar K_w_mr_inr (inr w) false;
   mkStateVar K_dw_mr_inr (inr dw) false; mkStateVar K_imu_biases (inr b) false;
   mkStateVar K_T_mi (inl (Transformation_of_matrix Eigen.Matrix4d_Identity)) true].

Lemma icp_add_state_run o prev acc t s :
  exists r T w dw,
    icp_add_state o prev acc t s
    = (Ret r,
       set_trajectory_vars_
         (trajectory_vars_ s ++ [knot_at t (length (state_vars_ s))])
         (set_state_vars_
            (state_vars_ s ++ knot_vars T w dw (prev_imu_biases prev)) s)).
Proof.
  destruct acc as [[tr ssv] idx].
  unfold icp_add_state, use_T_mi_gt, MakeShared, lock, alter_var, push_knot,
    mbind, M_bind, bind, gets, modify, ret. simpl.
  destruct (Interface_evaluate _ _ _) as [[T w] dw]. simpl.
  eexists _, T, w, dw. f_equal.
  unfold set_trajectory_vars_, set_state_vars_, knot_at, knot_vars. simpl.
  rewrite !length_app. simpl. rewrite <- !app_assoc. simpl.
  replace (length (state_vars_ s) + 1 + 1 + 1 + 1)%nat
    with (length (state_vars_ s) + 4)%nat by lia.
  rewrite alter_app_r. simpl.
  replace (length (state_vars_ s) + 1)%nat with (S (length (state_vars_ s))) by lia.
  replace (length (state_vars_ s) + 4)%nat
    with (S (S (S (S (length (state_vars_ s)))))) by lia.
  repeat f_equal; lia.
Qed.

Lemma knot_at_kinded t (vars new : list StateVar) :
  var_kind <$> new = [K_T_rm; K_w_mr_inr; K_dw_mr_inr; K_imu_biases; K_T_mi] ->
  knot_kinded (var_kind <$> vars ++ new) (knot_at t (length vars)).
Proof.
  intros Hnew. unfold knot_kinded, knot_at. simpl.
  rewrite fmap_app, Hnew, <- (length_fmap var_kind vars).
  repeat split.
  - by rewrite (lookup_app_r _ _ _) by lia; rewrite Nat.sub_diag.
  - rewrite lookup_app_r by lia.
    by replace (S (length (var_kind <$> vars)) - length (var_kind <$> vars))%nat
      with 1%nat by lia.
  - rewrite lookup_app_r by lia.
    by replace (S (S (length (var_kind <$> vars))) - length (var_kind <$> vars))%nat
      with 2%nat by lia.
  - rewrite lookup_app_r by lia.
    by replace (S (S (S (length (var_kind <$> vars)))) - length (var_kind <$> vars))%nat
      with 3%nat by lia.
  - rewrite lookup_app_r by lia.
    by replace (S (S (S (S (length (var_kind <$> vars))))) - length (var_kind <$> vars))%nat
      with 4%nat by lia.
Qed.

(** A knot on five new variables. *)
Lemma fenced_new_knot strict (s s' : SteamLioOdometry) t new :
  var_kind <$> new = [K_T_rm; K_w_mr_inr; K_dw_mr_inr; K_imu_biases; K_T_mi] ->
  state_vars_ s' = state_vars_ s ++ new ->
  trajectory_vars_ s' = trajectory_vars_ s ++ [knot_at t (length (state_vars_ s))] ->
  steam_log_ s' = steam_log_ s ->
  fenced strict s s'.
Proof.
  intros Hnew Hst Hk Hl.
  apply (fenced_grow strict _ _ [knot_at t (length (state_vars_ s))] []).
  - unfold kinds. rewrite Hst, fmap_app. by apply prefix_app_r.
  - done.
  - constructor; [|done]. unfold kinds. rewrite Hst. by apply knot_at_kinded.
  - by rewrite app_nil_r.
  - done.
  - intros _ id x Hx _. rewrite Hst. by apply lookup_app_l_Some.
Qed.

Lemma icp_add_state_fenced strict o prev acc t :
  preserves (fenced strict) (icp_add_state o prev acc t).
Proof.
  intros s. destruct (icp_add_state_run o prev acc t s) as (r & T & w & dw & ->).
  by apply (fenced_new_knot strict _ _ t (knot_vars T w dw (prev_imu_biases prev))).
Qed.

Lemma initial_state_run t s :
  initial_state t s
  = (Ret tt,
     set_trajectory_vars_
       (trajectory_vars_ s ++ [knot_at t (length (state_vars_ s))])
       (set_state_vars_
          (state_vars_ s
           ++ [mkStateVar K_T_rm (inl Transformation_default) false;
               mkStateVar K_w_mr_inr (inr Eigen.Vector6d_Zero) false;
               mkStateVar K_dw_mr_inr (inr Eigen.Vector6d_Zero) false;
               mkStateVar K_imu_biases (inr Eigen.Vector6d_Zero) false;
               mkStateVar K_T_mi (inl Transformation_default) false]) s)).
Proof.
  unfold initial_state, MakeShared, push_knot, mbind, M_bind, bind, gets, modify, ret.
  simpl. f_equal.
  unfold set_trajectory_vars_, set_state_vars_, knot_at. simpl.
  rewrite !length_app. simpl. rewrite <- !app_assoc. simpl.
  repeat f_equal; lia.
Qed.

Lemma initial_state_fenced strict t : preserves (fenced strict) (initial_state t).
Proof.
  intros s. rewrite initial_state_run.
  by apply (fenced_new_knot strict _ _ t
              [mkStateVar K_T_rm (inl Transformation_default) false;
               mkStateVar K_w_mr_inr (inr Eigen.Vector6d_Zero) false;
               mkStateVar K_dw_mr_inr (inr Eigen.Vector6d_Zero) false;
               mkStateVar K_imu_biases (inr Eigen.Vector6d_Zero) false;
               mkStateVar K_T_mi (inl Transformation_default) false]).
Qed.

(** *** The variables of the filter *)

Lemma knot_kinded_not_T_mi ks k :
  knot_kinded ks k ->
  Forall (not_T_mi ks) [T_rm k; w_mr_inr k; dw_mr_inr k]
  /\ Forall (not_T_mi ks) [imu_biases k].
Proof.
  intros (H1 & H2 & H3 & H4 & _). unfold not_T_mi.
  split; repeat constructor; eexists; (split; [eassumption|done]).
Qed.

(** The knot at an index, then its variables into the filter. *)
Lemma icp_enroll_var_at_fenced strict o first i :
  preserves (fenced strict) (var ← var_at i; icp_enroll_var o first var).
Proof.
  intros s. unfold var_at, at_, mbind, M_bind, bind, gets, ret, throw. simpl.
  destruct (0 <=? i)%Z; [|reflexivity].
  destruct (trajectory_vars_ s !! Z.to_nat i) as [var|] eqn:Hvar; [|reflexivity].
  intros Hs. pose proof Hs as [Hknots _].
  rewrite Forall_lookup in Hknots. specialize (Hknots _ _ Hvar).
  apply knot_kinded_not_T_mi in Hknots as [Hpose Hbias].
  revert Hs.
  unfold icp_enroll_var, use_T_mi_gt, swf_addStateVariable, when, log,
    mbind, M_bind, bind, gets, modify, ret. simpl.
  destruct (use_imu o); simpl.
  - assert (forall s' : SteamLioOdometry,
              state_vars_ s' = state_vars_ s ->
              trajectory_vars_ s' = trajectory_vars_ s ->
              steam_log_ s'
              = steam_log_ s ++ [E_addStateVariable [T_rm var; w_mr_inr var; dw_mr_inr var];
                                 E_addStateVariable [imu_biases var]] ->
              fenced strict s s') as Hboth.
    { intros s' Hst Hk Hl.
      apply (fenced_grow strict s s' []
               [E_addStateVariable [T_rm var; w_mr_inr var; dw_mr_inr var];
                E_addStateVariable [imu_biases var]]).
      - unfold kinds. by rewrite Hst.
      - by rewrite app_nil_r.
      - done.
      - done.
      - unfold kinds in *. rewrite Hst.
        constructor; [exact Hpose|]. constructor; [exact Hbias|done].
      - intros _ id x. by rewrite Hst. }
    destruct first; [|destruct (T_mi_init_only o)]; simpl;
      apply Hboth; simpl; try done; by rewrite <- app_assoc.
  - by apply (fenced_log strict _ _
                (E_addStateVariable [T_rm var; w_mr_inr var; dw_mr_inr var])).
Qed.

End Fence.

#[export] Hint Resolve MakeShared_fenced lock_fenced update_fenced log_fenced
  set_filter_fenced swf_marginalizeVariable_fenced swf_addCostTerm_fenced
  swf_addPriorCostTerms_fenced optimize_fenced icp_add_state_fenced
  initial_state_fenced icp_enroll_var_at_fenced : preserves.

#[export] Hint Extern 1 (forall _, T_mi_free _ _) => (intros; exact I) : preserves.

(** The walk of a computation for [fenced]. *)
Ltac fenced_walk := preserves_walk ltac:(first [done | by apply fenced_intro]).

(** ** The stages of [registerFrame] keep [T_mi_out] *)

(** Cost terms that are not on a [T_mi]. *)
Definition costs_free (costs : list CostTerm) : Prop :=
  Forall (fun c => is_T_mi_cost c = false) costs.

(** The lists of cost terms of the setup: none is on a [T_mi], and the
    list that is meant for them is empty. *)
Definition ctx_free {T} (ctx : IcpContextOf T) : Prop :=
  costs_free (imu_cost_terms ctx)
  /\ costs_free (imu_prior_cost_terms ctx)
  /\ T_mi_prior_cost_terms ctx = [].

Section FenceStages.

Context `{External}.
Variable strict : bool.

Lemma initializeTimestamp_fenced i cf :
  preserves (fenced strict) (initializeTimestamp i cf).
Proof.
  unfold initializeTimestamp, modify_frame. destruct cf as [[? ?] ?]. fenced_walk.
Qed.

Lemma modify_frame_fenced i f : preserves (fenced strict) (modify_frame i f).
Proof. unfold modify_frame. fenced_walk. Qed.

Local Hint Resolve modify_frame_fenced : preserves.

Lemma initializeMotion_fenced i : preserves (fenced strict) (initializeMotion i).
Proof. unfold initializeMotion. fenced_walk. Qed.

Lemma initializeFrame_fenced i cf : preserves (fenced strict) (initializeFrame i cf).
Proof. unfold initializeFrame. fenced_walk. Qed.

Local Hint Resolve initializeTimestamp_fenced initializeMotion_fenced
  initializeFrame_fenced : preserves.

Lemma ingest_fenced cf : preserves (fenced strict) (ingest cf).
Proof. unfold ingest. fenced_walk. Qed.

Lemma updateMap_fenced i u : preserves (fenced strict) (updateMap i u).
Proof. unfold updateMap. fenced_walk. Qed.

Lemma icp_previous_state_fenced i :
  strict = false -> preserves (fenced strict) (icp_previous_state i).
Proof. intros Hstrict. unfold icp_previous_state. fenced_walk. Qed.

Lemma icp_new_states_fenced i prev : preserves (fenced strict) (icp_new_states i prev).
Proof. unfold icp_new_states. fenced_walk. Qed.

Lemma icp_state_priors_fenced i prev tr :
  preserves (fenced strict) (icp_state_priors i prev tr).
Proof. unfold icp_state_priors. fenced_walk. Qed.

Lemma icp_imu_init_priors_fenced i prev :
  preserves (fenced strict) (icp_imu_init_priors i prev).
Proof. unfold icp_imu_init_priors. fenced_walk. Qed.

Lemma icp_add_filter_variables_fenced i prev curr :
  preserves (fenced strict) (icp_add_filter_variables i prev curr).
Proof. unfold icp_add_filter_variables. fenced_walk. Qed.

Lemma icp_marginalize_loop_fenced o t indices marg_vars :
  preserves (fenced strict) (icp_marginalize_loop o t indices marg_vars).
Proof.
  revert marg_vars. induction indices as [|i indices IH]; intros marg_vars; simpl.
  - fenced_walk.
  - fenced_walk.
Qed.

Local Hint Resolve icp_marginalize_loop_fenced : preserves.

Lemma icp_marginalize_fenced i curr : preserves (fenced strict) (icp_marginalize i curr).
Proof. unfold icp_marginalize. fenced_walk. Qed.

Lemma icp_imu_cost_term_fenced o prev costs imu :
  preserves (fenced strict) (icp_imu_cost_term o prev costs imu).
Proof. unfold icp_imu_cost_term. fenced_walk. Qed.

Local Hint Resolve icp_imu_cost_term_fenced : preserves.

Lemma icp_imu_cost_terms_fenced prev imu c1 c2 :
  preserves (fenced strict) (icp_imu_cost_terms prev imu c1 c2).
Proof. unfold icp_imu_cost_terms. fenced_walk. Qed.

Lemma transform_keypoints_fenced ctx kp :
  preserves (fenced strict) (transform_keypoints ctx kp).
Proof. unfold transform_keypoints. fenced_walk. Qed.

Lemma icp_solve_window_fenced : preserves (fenced strict) icp_solve_window.
Proof. unfold icp_solve_window. fenced_walk. Qed.

Lemma icp_finish_fenced i ctx imu st : preserves (fenced strict) (icp_finish i ctx imu st).
Proof.
  unfold icp_finish, use_T_mi_gt. simpl negb.
  apply preserves_bind; [apply _|fenced_walk|intros o].
  apply preserves_bind; [apply _|fenced_walk|intros vars].
  rewrite andb_false_r. fenced_walk.
Qed.

(** *** The cost terms *)

Lemma problem_addCostTerms_fenced iter costs problem :
  costs_free costs -> preserves (fenced strict) (problem_addCostTerms iter costs problem).
Proof.
  unfold problem_addCostTerms. intros Hfree. revert problem.
  induction Hfree as [|c costs Hc Hfree IH]; intros problem; simpl.
  - apply preserves_ret; apply _.
  - apply preserves_bind; [apply _| |intros problem'; apply IH].
    apply preserves_bind; [apply _| |intros; apply preserves_ret; apply _].
    apply log_fenced. by intros ks.
Qed.

Lemma swf_addCostTerms_fenced costs :
  costs_free costs -> preserves (fenced strict) (swf_addCostTerms costs).
Proof.
  unfold swf_addCostTerms. intros Hfree.
  induction Hfree as [|c costs Hc Hfree IH]; simpl.
  - apply preserves_ret; apply _.
  - apply preserves_bind; [apply _|by apply swf_addCostTerm_fenced|].
    intros []. apply IH.
Qed.

Lemma associate_free o map n keypoint cost :
  associate o map n keypoint = Ret (Some cost) -> is_T_mi_cost cost = false.
Proof.
  unfold associate. intros Hrun.
  repeat (case_match; simplify_eq); done.
Qed.

Lemma association_free o map n keypoints acc costs :
  association o map n keypoints acc = Ret costs -> costs_free acc -> costs_free costs.
Proof.
  revert acc. induction keypoints as [|keypoint keypoints IH]; intros acc; simpl.
  - by intros [= ->].
  - destruct (associate o map n keypoint) as [[cost|]|w|c i k] eqn:Ha; try done.
    + intros Hrun Hacc. apply (IH _ Hrun). apply Forall_app. split; [done|].
      constructor; [|done]. by eapply associate_free.
    + apply IH.
Qed.

Local Hint Resolve problem_addCostTerms_fenced swf_addCostTerms_fenced
  transform_keypoints_fenced modify_frame_fenced : preserves.
Local Hint Extern 1 (costs_free prior_cost_terms) => (by constructor) : preserves.
Local Hint Extern 1 (costs_free []) => (by constructor) : preserves.

Lemma icp_iteration_fenced i ctx st iter :
  ctx_free ctx -> preserves (fenced strict) (icp_iteration i ctx st iter).
Proof.
  intros (Himu & Hprior & HT_mi). unfold icp_iteration. rewrite HT_mi.
  repeat first
    [ match goal with
      | |- preserves _ (mbind _ (lift (association _ _ _ _ _))) =>
          apply (preserves_bind_post _ costs_free);
            [apply preserves_lift; apply _
            |intros ? ? ? [Hrun _]%lift_returns;
             by apply (association_free _ _ _ _ _ _ Hrun); constructor
            |intros ? ?]
      end
    | preserves_step ltac:(first [done | by apply fenced_intro]) ].
Qed.

Lemma icp_iteration_free i ctx st iter s st' stop s' :
  icp_iteration i ctx st iter s = (Ret (st', stop), s') -> costs_free (meas_cost_terms st').
Proof.
  unfold icp_iteration. intros Hrun.
  remember (st', stop) as result eqn:Hresult.
  run_inv.
  match goal with Hl : association _ _ _ _ _ = Ret _ |- _ =>
    apply association_free in Hl; [|by constructor] end.
  match goal with Hr : (if ?b then _ else _) _ = _ |- _ => destruct b end;
    run_inv; injection Hresult as <- _; done.
Qed.

Local Hint Resolve icp_iteration_fenced : preserves.

Lemma icp_iterations_fenced i ctx iters st :
  ctx_free ctx -> preserves (fenced strict) (icp_iterations i ctx iters st).
Proof.
  intros Hctx. revert st. induction iters as [|iter iters IH]; intros st; simpl.
  - fenced_walk.
  - fenced_walk.
Qed.

Lemma icp_iterations_free i ctx iters st s st' s' :
  icp_iterations i ctx iters st s = (Ret st', s') ->
  costs_free (meas_cost_terms st) -> costs_free (meas_cost_terms st').
Proof.
  revert st s. induction iters as [|iter iters IH]; intros st s Hrun Hst; simpl in Hrun.
  - run_inv. done.
  - apply bind_returns in Hrun as ([st1 stop] & s1 & Hiter & Hrun).
    apply icp_iteration_free in Hiter.
    destruct stop; [run_inv; done|]. by eapply IH.
Qed.

Lemma icp_assemble_window_fenced ctx st :
  ctx_free ctx -> costs_free (meas_cost_terms st) ->
  preserves (fenced strict) (icp_assemble_window ctx st).
Proof.
  intros (Himu & Hprior & HT_mi) Hst. unfold icp_assemble_window. rewrite HT_mi.
  fenced_walk.
Qed.

(** *** The lists of the setup *)

Lemma icp_imu_init_priors_free i prev s l1 l2 s' :
  icp_imu_init_priors i prev s = (Ret (l1, l2), s') -> costs_free l1 /\ l2 = [].
Proof.
  unfold icp_imu_init_priors, use_T_mi_gt. intros Hrun.
  remember (l1, l2) as result eqn:Hresult. run_inv.
  destruct (use_imu _);
    [|run_inv; injection Hresult as <- <-; split; [by constructor|done]].
  apply bind_returns in Hrun as (l1' & s1 & Hbias & Hrun).
  apply bind_returns in Hrun as (l2' & s2 & HT_mi & Hrun).
  run_inv. injection Hresult as <- <-. split.
  - destruct (i =? 1)%Z; run_inv; by repeat constructor.
  - destruct (_ || _); simpl in HT_mi; by run_inv.
Qed.

(** The cost term of an IMU sample whose knots are found: one more
    term, on the gyroscope. *)
Lemma icp_imu_cost_term_returns o prev costs imu s costs' s' :
  icp_imu_cost_term o prev costs imu s = (Ret costs', s') ->
  s' = s
  /\ exists i var,
       knot_bracket "imu stamp not within knot times" (trajectory_vars_ s)
         (imu_timestamp imu) (Z.to_nat (prev_trajectory_var_index prev)) = Ret i
       /\ trajectory_vars_ s !! i = Some var
       /\ costs'
          = costs ++ [mkCostTerm
                        (GyroError (imu_timestamp imu) (imu_biases var) (ang_vel imu))
                        (mkNoiseModel (diagonal_matrix (vector3_list (r_imu_ang o)))
                           COVARIANCE)
                        L1LossFunc].
Proof.
  unfold icp_imu_cost_term. intros Hrun. run_inv.
  split; [done|]. eexists _, _. split; [done|].
  rewrite Nat2Z.id in *. split; [done|]. done.
Qed.

Lemma icp_imu_cost_term_loop o prev imu_data_vec costs s costs' s' :
  for_each imu_data_vec (icp_imu_cost_term o prev) costs s = (Ret costs', s') ->
  s' = s
  /\ exists gyro, costs' = costs ++ gyro
       /\ length gyro = length imu_data_vec
       /\ Forall (fun c => is_gyro_cost c = true /\ loss_func c = L1LossFunc) gyro.
Proof.
  revert costs s. induction imu_data_vec as [|imu l IH]; intros costs s Hrun;
    simpl in Hrun.
  - run_inv. split; [done|]. exists []. by rewrite app_nil_r.
  - apply bind_returns in Hrun as (costs1 & s1 & Hone & Hrun).
    apply icp_imu_cost_term_returns in Hone as (-> & i & var & _ & _ & ->).
    apply IH in Hrun as (-> & gyro & -> & Hlen & Hgyro).
    split; [done|]. eexists (_ :: gyro). rewrite <- app_assoc. split; [done|].
    split; [simpl; lia|]. by constructor.
Qed.

Lemma gyro_costs_free gyro :
  Forall (fun c => is_gyro_cost c = true /\ loss_func c = L1LossFunc) gyro ->
  costs_free gyro.
Proof.
  intros Hgyro. eapply Forall_impl; [exact Hgyro|].
  intros [e n l] [Hg _]. unfold is_gyro_cost, is_T_mi_cost in *. simpl in *.
  by destruct e.
Qed.

Lemma icp_imu_cost_terms_free prev imu_data_vec c1 c2 s l1 l2 l3 s' :
  icp_imu_cost_terms prev imu_data_vec c1 c2 s = (Ret (l1, l2, l3), s') ->
  costs_free c1 -> costs_free l1 /\ costs_free l2 /\ l3 = c2.
Proof.
  unfold icp_imu_cost_terms, use_T_mi_gt. intros Hrun Hc1.
  remember (l1, l2, l3) as result eqn:Hresult. run_inv.
  destruct (use_imu _).
  - apply bind_returns in Hrun as (gyro & s1 & Hloop & Hrun).
    apply icp_imu_cost_term_loop in Hloop as (-> & gyro' & -> & _ & Hgyro).
    run_inv. injection Hresult as <- <- <-.
    split; [by apply gyro_costs_free|]. split; [|by rewrite andb_false_r].
    apply Forall_app. split; [done|].
    apply Forall_fmap, Forall_forall. by intros [a b] _.
  - run_inv. injection Hresult as <- <- <-. split; [by constructor|done].
Qed.

Lemma icp_setup_free i imu s ctx s' :
  icp_setup i imu s = (Ret ctx, s') -> ctx_free ctx.
Proof.
  unfold icp_setup. intros Hrun. run_inv.
  match goal with Hi : icp_imu_init_priors _ _ _ = _ |- _ =>
    apply icp_imu_init_priors_free in Hi as [Hbias ->] end.
  match goal with Hi : icp_imu_cost_terms _ _ _ _ _ = _ |- _ =>
    apply icp_imu_cost_terms_free in Hi as (? & ? & ->); [|done] end.
  by repeat split.
Qed.

Local Hint Resolve icp_previous_state_fenced icp_new_states_fenced
  icp_state_priors_fenced icp_imu_init_priors_fenced icp_add_filter_variables_fenced
  icp_marginalize_fenced icp_imu_cost_terms_fenced : preserves.

(** The setup after the previous state was read. *)
Lemma icp_setup_fenced i imu :
  strict = false -> preserves (fenced strict) (icp_setup i imu).
Proof. intros Hstrict. unfold icp_setup. fenced_walk. Qed.

Local Hint Resolve icp_setup_fenced icp_iterations_fenced icp_assemble_window_fenced
  icp_solve_window_fenced icp_finish_fenced : preserves.

Lemma icp_assembled_rest_fenced i kp ctx o :
  ctx_free ctx ->
  preserves (fenced strict)
    (_ ← frame_at i;
     st ← icp_iterations i ctx (seqZ 0 (num_iters_icp o)) (mkLoopState kp [] 0 true);
     icp_assemble_window ctx st;;
     ret (ctx, st)).
Proof.
  intros Hctx.
  apply preserves_bind; [apply _|fenced_walk|intros _].
  apply (preserves_bind_post _ (fun st => costs_free (meas_cost_terms st)));
    [fenced_walk| |intros st Hst; fenced_walk].
  intros s st s1 Hrun. apply (icp_iterations_free _ _ _ _ _ _ _ Hrun).
  by constructor.
Qed.

Lemma icp_assembled_fenced i kp imu :
  strict = false -> preserves (fenced strict) (icp_assembled i kp imu).
Proof.
  intros Hstrict. unfold icp_assembled.
  apply preserves_bind; [apply _|fenced_walk|intros o].
  apply (preserves_bind_post _ ctx_free); [fenced_walk| |].
  - intros s ctx s1. apply icp_setup_free.
  - intros ctx Hctx. by apply icp_assembled_rest_fenced.
Qed.

Local Hint Resolve icp_assembled_fenced : preserves.

Lemma icp_fenced i kp imu : strict = false -> preserves (fenced strict) (icp i kp imu).
Proof. intros Hstrict. unfold icp. fenced_walk. Qed.

End FenceStages.

#[export] Hint Resolve modify_frame_fenced initializeTimestamp_fenced
  initializeMotion_fenced initializeFrame_fenced ingest_fenced updateMap_fenced
  icp_previous_state_fenced icp_new_states_fenced icp_state_priors_fenced
  icp_imu_init_priors_fenced icp_add_filter_variables_fenced
  icp_marginalize_loop_fenced icp_marginalize_fenced icp_imu_cost_term_fenced
  icp_imu_cost_terms_fenced transform_keypoints_fenced icp_solve_window_fenced
  icp_finish_fenced problem_addCostTerms_fenced swf_addCostTerms_fenced
  icp_iteration_fenced icp_iterations_fenced icp_assemble_window_fenced
  icp_setup_fenced icp_assembled_fenced icp_fenced : preserves.

(** ** The [T_mi] of the previous knot and of the new knots *)

Section Extrinsics.

Context `{External}.


(** *** Without the IMU *)

Lemma icp_previous_state_unchanged i s :
  use_imu (options_ s) = false -> (icp_previous_state i s).2 = s.
Proof.
  intros Himu.
  unfold icp_previous_state, frame_index, index, value_of_T, value_of_v,
    mbind, M_bind, bind, gets, throw, out_of_bounds, ret. simpl.
  rewrite Himu.
  repeat (case_match; simplify_eq; simpl; try done).
Qed.

Lemma icp_setup_strict i imu s :
  use_imu (options_ s) = false -> fenced true s (icp_setup i imu s).2.
Proof.
  intros Himu. unfold icp_setup.
  apply (preserves_bind_at _ (fun _ => True)).
  - rewrite icp_previous_state_unchanged by done. reflexivity.
  - done.
  - intros prev _. fenced_walk.
Qed.

Lemma icp_assembled_strict i kp imu s :
  use_imu (options_ s) = false -> fenced true s (icp_assembled i kp imu s).2.
Proof.
  intros Himu. unfold icp_assembled.
  unfold mbind at 1, M_bind at 1, bind at 1, gets at 1.
  apply (preserves_bind_at _ ctx_free).
  - by apply icp_setup_strict.
  - intros ctx s1. apply icp_setup_free.
  - intros ctx Hctx. by apply icp_assembled_rest_fenced.
Qed.

Lemma icp_strict i kp imu s :
  use_imu (options_ s) = false -> fenced true s (icp i kp imu s).2.
Proof.
  intros Himu. unfold icp.
  apply (preserves_bind_at _ (fun _ => True)).
  - by apply icp_assembled_strict.
  - done.
  - intros [ctx st] _. fenced_walk.
Qed.

(** *** The new knots *)

(** The [T_mi] of a knot is the identity, and locked. *)
Definition T_mi_identity (store : list StateVar) (k : TrajectoryVar) : Prop :=
  store !! T_mi k
  = Some (mkStateVar K_T_mi (inl (Transformation_of_matrix Eigen.Matrix4d_Identity))
            true).

Lemma icp_add_states_T_mi o prev l acc s r s' :
  for_each l (icp_add_state o prev) acc s = (Ret r, s') ->
  exists new,
    trajectory_vars_ s' = trajectory_vars_ s ++ new
    /\ state_vars_ s `prefix_of` state_vars_ s'
    /\ Forall (T_mi_identity (state_vars_ s')) new.
Proof.
  revert acc s. induction l as [|t l IH]; intros acc s Hrun; simpl in Hrun.
  - run_inv. exists []. by rewrite app_nil_r.
  - apply bind_returns in Hrun as (r1 & s1 & Hone & Hrun).
    destruct (icp_add_state_run o prev acc t s) as (r0 & T & w & dw & Hs1).
    rewrite Hs1 in Hone. injection Hone as _ <-.
    apply IH in Hrun as (new & Hnew & Hpre & Hid). simpl in *.
    exists (knot_at t (length (state_vars_ s)) :: new). split; [|split].
    + by rewrite Hnew, <- app_assoc.
    + etransitivity; [|exact Hpre]. by apply prefix_app_r.
    + constructor; [|done]. unfold T_mi_identity.
      eapply prefix_lookup_Some; [|exact Hpre]. simpl.
      rewrite lookup_app_r by lia.
      by replace (S (S (S (S (length (state_vars_ s))))) - length (state_vars_ s))%nat
        with 4%nat by lia.
Qed.

Lemma icp_new_states_T_mi i prev s r s' :
  icp_new_states i prev s = (Ret r, s') ->
  exists new,
    trajectory_vars_ s' = trajectory_vars_ s ++ new
    /\ Forall (T_mi_identity (state_vars_ s')) new.
Proof.
  unfold icp_new_states. intros Hrun. run_inv.
  destruct (_ <? 0)%Z; [run_inv|].
  apply icp_add_states_T_mi in Hrun as (new & Hnew & _ & Hid). by exists new.
Qed.

(** *** The previous knot *)

Lemma icp_previous_state_returns i s prev s1 :
  icp_previous_state i s = (Ret prev, s1) ->
  exists back gt,
    last (trajectory_vars_ s) = Some back
    /\ (0 <= i)%Z
    /\ T_i_r_gt_poses s !! Z.to_nat i = Some gt
    /\ trajectory_vars_ s1 = trajectory_vars_ s
    /\ (use_imu (options_ s) = true ->
        forall x, state_vars_ s !! T_mi back = Some x ->
          state_vars_ s1 !! T_mi back
          = Some (mkStateVar (var_kind x)
                    (inl (SE3StateVar_update (value_T (var_value x))
                            (Transformation_vec
                               (T_mi_gt_of gt (store_T (state_vars_ s) (T_rm back))))))
                    true)).
Proof.
  unfold icp_previous_state, use_T_mi_gt. intros Hrun. run_inv.
  destruct (Double.neb _ _); [run_inv|]. run_inv.
  eexists _, _. split.
  { rewrite last_lookup.
    match goal with Hl : trajectory_vars_ s !! _ = Some _ |- _ =>
      rewrite <- Hl end.
    f_equal. lia. }
  split; [done|]. split; [done|].
  destruct (use_imu (options_ s)); simpl in *.
  - unfold update, lock, alter_var in *. run_inv. simpl.
    split; [done|]. intros _ var Hvar.
    rewrite !list_lookup_alter_eq. unfold VarId in Hvar. by rewrite Hvar.
  - run_inv. split; [done|]. done.
Qed.

(** *** What follows keeps the locked variables *)

Definition only_locked : Frame := mkFrame false false false true false.
Definition knots_and_locked : Frame := mkFrame false true false true false.

Lemma keeps_locked φ s s' id x :
  keeps φ s s' -> keep_locked φ = true ->
  state_vars_ s !! id = Some x -> var_locked x = true ->
  state_vars_ s' !! id = Some x.
Proof.
  intros (_ & _ & _ & _ & _ & _ & _ & _ & Hl & _) Hφ. apply Hl. by rewrite Hφ.
Qed.

Lemma keeps_knots_and_locked s s' :
  keeps knots_and_locked s s' -> trajectory_vars_ s' = trajectory_vars_ s.
Proof. unfold keeps. simpl. intros (_ & _ & _ & _ & _ & _ & Hk & _). by apply Hk. Qed.

Lemma kinded_lookup (s : SteamLioOdometry) id k :
  kinds s !! id = Some k ->
  exists x, state_vars_ s !! id = Some x /\ var_kind x = k.
Proof.
  unfold kinds. rewrite list_lookup_fmap.
  destruct (state_vars_ s !! id) as [x|]; simpl; [|done].
  intros [= <-]. by exists x.
Qed.

End Extrinsics.

(** C3, as the code has it.  From a state in which no [T_mi] is in a
    problem, a call of [icp] that returns leaves such a state: every
    variable that was handed to the filter is a pose, a velocity, an
    acceleration or a bias, and no cost term on a [T_mi] was added to the
    problem of an iteration or to the sliding window, whatever [use_imu]
    and [T_mi_init_only] are.  The knots of the frame have a [T_mi] that
    is the identity and locked.  The [T_mi] of the previous knot is
    updated by the perturbation that is computed from the ground-truth
    pose of the frame, and locked, when [use_imu] is set; when it is not,
    that variable is left as it was, its lock included. *)
Theorem icp_T_mi_ground_truth `{External} (index_frame : Z)
    (keypoints : list Point3D) (imu_data_vec : list IMUData)
    (s s' : SteamLioOdometry) (ok : bool) (out : list Point3D) :
  T_mi_out s ->
  icp index_frame keypoints imu_data_vec s = (Ret (ok, out), s') ->
  T_mi_out s'
  /\ exists prev gt new,
       last (trajectory_vars_ s) = Some prev
       /\ T_i_r_gt_poses s !! Z.to_nat index_frame = Some gt
       /\ trajectory_vars_ s' = trajectory_vars_ s ++ new
       /\ (if use_imu (options_ s)
           then state_vars_ s' !! T_mi prev
                = Some (mkStateVar K_T_mi
                          (inl (SE3StateVar_update
                                  (store_T (state_vars_ s) (T_mi prev))
                                  (Transformation_vec
                                     (T_mi_gt_of gt
                                        (store_T (state_vars_ s) (T_rm prev))))))
                          true)
           else state_vars_ s' !! T_mi prev = state_vars_ s !! T_mi prev)
       /\ Forall (T_mi_identity (state_vars_ s')) new.
Proof.
  intros Hinv Hrun.
  destruct (preserves_returns _ _ _ _ _ (icp_fenced false index_frame keypoints
              imu_data_vec eq_refl) Hrun Hinv) as [Hout _].
  split; [done|].
  pose proof (icp_strict index_frame keypoints imu_data_vec s) as Hstrict.
  rewrite Hrun in Hstrict. simpl in Hstrict.
  unfold icp in Hrun. apply bind_returns in Hrun as ([ctx st] & s4 & Hasm & Hrest).
  apply (preserves_returns (keeps knots_and_locked)) in Hrest; [|keeps_walk].
  unfold icp_assembled in Hasm.
  apply bind_returns in Hasm as (o & s0 & Ho & Hasm).
  apply gets_returns in Ho as [-> ->].
  apply bind_returns in Hasm as (ctx' & s3 & Hsetup & Hasm).
  apply (preserves_returns (keeps knots_and_locked)) in Hasm; [|keeps_walk].
  unfold icp_setup in Hsetup.
  apply bind_returns in Hsetup as (p & s1 & Hprev & Hsetup).
  apply bind_returns in Hsetup as (r & s2 & Hnew & Hsetup).
  apply (preserves_returns (keeps knots_and_locked)) in Hsetup; [|keeps_walk].
  pose proof (preserves_returns (keeps only_locked) _ _ _ _
                (icp_new_states_keeps only_locked _ _ eq_refl) Hnew) as Hlock.
  apply icp_new_states_T_mi in Hnew as (new & Hnew & Hid).
  apply icp_previous_state_returns in Hprev as (back & gt & Hlast & Hpos & Hgt & Hk1 & Hupd).
  assert (keeps knots_and_locked s2 s') as Hafter
    by (etransitivity; [exact Hsetup|]; etransitivity; [exact Hasm|exact Hrest]).
  exists back, gt, new. split; [done|]. split; [done|]. split.
  { by rewrite (keeps_knots_and_locked _ _ Hafter), Hnew, Hk1. }
  destruct Hinv as [Hknots Hlog].
  assert (knot_kinded (kinds s) back) as (_ & _ & _ & _ & Hkind).
  { rewrite Forall_forall in Hknots. apply Hknots.
    rewrite last_lookup in Hlast. by eapply list_elem_of_lookup_2. }
  apply kinded_lookup in Hkind as (x & Hx & Hkx).
  split.
  - destruct (use_imu (options_ s)) eqn:Himu.
    + specialize (Hupd eq_refl x Hx).
      apply (keeps_locked _ _ _ _ _ Hlock eq_refl) in Hupd; [|done].
      apply (keeps_locked _ _ _ _ _ Hafter eq_refl) in Hupd; [|done].
      unfold store_T. unfold VarId in *. rewrite Hupd, Hx. simpl.
      by rewrite Hkx.
    + destruct (Hstrict eq_refl (conj Hknots Hlog)) as [_ Hkept].
      pose proof (Hkept eq_refl _ _ Hx Hkx) as Hsame.
      unfold VarId in *. by rewrite Hsame, Hx.
  - eapply Forall_impl; [exact Hid|]. intros k Hk.
    by apply (keeps_locked _ _ _ _ _ Hafter eq_refl) in Hk.
Qed.

(** The theorem on the bench, with the IMU: the second scan, with one IMU
    sample within it. *)
Lemma icp_T_mi_ground_truth_bench :
  let s0 := Bench.after Bench.frame0 (Bench.engine (Bench.with_imu Bench.options)) in
  let s := Bench.at_icp Bench.frame1_imu_within s0 in
  let keypoints := Bench.keypoints_at_icp Bench.frame1_imu_within s0 in
  exists ok out s',
    icp 1 keypoints [Bench.imu_within] s = (Ret (ok, out), s')
    /\ T_mi_out s
    /\ T_mi_out s'
    /\ exists prev gt new,
         last (trajectory_vars_ s) = Some prev
         /\ T_i_r_gt_poses s !! Z.to_nat 1 = Some gt
         /\ trajectory_vars_ s' = trajectory_vars_ s ++ new
         /\ (if use_imu (options_ s)
             then state_vars_ s' !! T_mi prev
                  = Some (mkStateVar K_T_mi
                            (inl (SE3StateVar_update
                                    (store_T (state_vars_ s) (T_mi prev))
                                    (Transformation_vec
                                       (T_mi_gt_of gt
                                          (store_T (state_vars_ s) (T_rm prev))))))
                            true)
             else state_vars_ s' !! T_mi prev = state_vars_ s !! T_mi prev)
         /\ Forall (T_mi_identity (state_vars_ s')) new.
Proof.
  cbv zeta. eexists _, _, _.
  split; [vm_compute; reflexivity|].
  assert (T_mi_out
            (Bench.at_icp Bench.frame1_imu_within
               (Bench.after Bench.frame0 (Bench.engine (Bench.with_imu Bench.options)))))
    as Hinv by (split; vm_compute; repeat constructor).
  split; [exact Hinv|].
  eapply (icp_T_mi_ground_truth 1
            (Bench.keypoints_at_icp Bench.frame1_imu_within
               (Bench.after Bench.frame0 (Bench.engine (Bench.with_imu Bench.options))))
            [Bench.imu_within]
            (Bench.at_icp Bench.frame1_imu_within
               (Bench.after Bench.frame0 (Bench.engine (Bench.with_imu Bench.options)))));
    [exact Hinv|vm_compute; reflexivity].
Defined.

(** C3, as the specification states it, fails without the IMU: at the
    second scan of the bench [icp] returns, and the [T_mi] of the previous
    knot, variable 9, is not locked: it is as it was before the call. *)
Lemma previous_T_mi_left_unlocked :
  let s0 := Bench.after Bench.frame0 (Bench.engine Bench.options) in
  let s := Bench.at_icp Bench.frame1 s0 in
  exists ok out s' prev,
    icp 1 (Bench.keypoints_at_icp Bench.frame1 s0) [] s = (Ret (ok, out), s')
    /\ use_imu (options_ s) = false
    /\ length (trajectory_ s) = 2%nat
    /\ last (trajectory_vars_ s) = Some prev
    /\ T_mi prev = 9%nat
    /\ store_locked (state_vars_ s') (T_mi prev) = false
    /\ state_vars_ s' !! T_mi prev = state_vars_ s !! T_mi prev.
Proof.
  cbv zeta. eexists _, _, _, _.
  split; [vm_compute; reflexivity|].
  split; [reflexivity|]. split; [reflexivity|].
  split; [vm_compute; reflexivity|].
  repeat split; vm_compute; reflexivity.
Qed.



(** ** The loop of [icp] stops for one reason only *)

Section Loop.

Context `{External}.

Definition nothing_kept : Frame := mkFrame false false false false false.

Lemma keeps_log_prefix φ s s' : keeps φ s s' -> steam_log_ s `prefix_of` steam_log_ s'.
Proof. by intros (_ & _ & _ & Hl & _). Qed.

(** An iteration ends in [break] when it has too few keypoints, and then
    the registration has failed; otherwise its problem was solved, and
    the loop goes on, whatever the change of the estimate. *)
Lemma icp_iteration_returns i ctx st iter s st' stop s' :
  icp_iteration i ctx st iter s = (Ret (st', stop), s') ->
  stop = (number_keypoints_used st' <? min_number_keypoints (options_ s))%Z
  /\ (if stop then icp_success st' = false
      else icp_success st' = icp_success st
           /\ exists new,
                steam_log_ s' = steam_log_ s ++ new
                /\ E_optimize (IcpProblem iter) (max_iterations (options_ s)) ∈ new).
Proof.
  unfold icp_iteration. intros Hrun.
  remember (st', stop) as result eqn:Hresult.
  apply bind_returns in Hrun as (o & s0 & Ho & Hrun).
  apply gets_returns in Ho as [-> ->].
  assert (forall (m : M (LoopState * bool)) sa,
            m sa = (Ret result, s') -> preserves (keeps nothing_kept) m ->
            steam_log_ sa `prefix_of` steam_log_ s') as Hpre.
  { intros m sa Hm Hk. eapply keeps_log_prefix.
    exact (preserves_returns (keeps nothing_kept) m sa _ s' Hk Hm). }
  assert (forall {A} (m : M A) sa a sb,
            m sa = (Ret a, sb) -> preserves (keeps nothing_kept) m ->
            steam_log_ sa `prefix_of` steam_log_ sb) as Hstep.
  { intros A m sa a sb Hm Hk. eapply keeps_log_prefix.
    exact (preserves_returns (keeps nothing_kept) m sa a sb Hk Hm). }
  repeat match goal with
  | Hr : mbind _ _ ?sa = (Ret result, s') |- _ =>
      let Hm := fresh "Hm" in let Hp := fresh "Hp" in
      apply bind_returns in Hr as (? & ? & Hm & Hr);
      apply Hstep in Hm as Hp; [|keeps_walk]
  end.
  match goal with Hr : (if ?b then _ else _) _ = _ |- _ => destruct b eqn:Hfew end.
  - run_inv. injection Hresult as <- <-. simpl. by rewrite Hfew.
  - apply bind_returns in Hrun as (u & s1 & Hopt & Hrun).
    apply Hpre in Hrun as Hafter; [|keeps_walk].
    match type of Hopt with optimize ?p ?problem ?n ?sa = _ =>
      pose proof (optimize_log p problem n sa) as Hlog end.
    rewrite Hopt in Hlog. simpl in Hlog.
    run_inv. injection Hresult as <- <-. simpl. rewrite Hfew.
    split; [done|]. split; [done|].
    repeat match goal with Hp : _ `prefix_of` _ |- _ => destruct Hp as [? Hp] end.
    eexists. split.
    + repeat match goal with Hl : steam_log_ _ = _ |- _ => rewrite Hl; clear Hl end.
      rewrite <- !app_assoc. reflexivity.
    + rewrite !elem_of_app, list_elem_of_singleton. tauto.
Qed.

End Loop.

(** The loop of [icp] has one [break], for a lack of keypoints, which
    fails the registration.  So when the loop ends on a registration that
    has not failed, the problem of every iteration up to [num_iters_icp]
    was solved in the course of the loop: the test on the change of the
    estimate stops nothing. *)
Theorem icp_iterations_run_to_the_end `{External} (index_frame : Z)
    (ctx : IcpContext) (iters : list Z) (st st' : LoopState)
    (s s' : SteamLioOdometry) :
  icp_iterations index_frame ctx iters st s = (Ret st', s') ->
  icp_success st = true ->
  icp_success st' = true ->
  exists new,
    steam_log_ s' = steam_log_ s ++ new
    /\ forall iter, iter ∈ iters ->
         E_optimize (IcpProblem iter) (max_iterations (options_ s)) ∈ new.
Proof.
  revert st s. induction iters as [|iter0 iters IH]; intros st s Hrun Hst Hst'.
  { simpl in Hrun. run_inv. exists []. rewrite app_nil_r. split; [done|].
    intros iter Hin. by apply elem_of_nil in Hin. }
  simpl in Hrun.
  apply bind_returns in Hrun as ([st1 stop] & s1 & Hiter & Hrun).
  pose proof (preserves_returns (keeps nothing_kept) _ _ _ _
                (icp_iteration_keeps nothing_kept _ _ _ _ eq_refl) Hiter)
    as (Hopt & _).
  apply icp_iteration_returns in Hiter as [_ Hstop].
  destruct stop.
  - run_inv. congruence.
  - destruct Hstop as (Hsame & new1 & Hlog1 & Hsolved).
    apply IH in Hrun as (new2 & Hlog2 & Hrest); [|congruence|done].
    exists (new1 ++ new2). split; [by rewrite Hlog2, Hlog1, <- app_assoc|].
    intros iter [->|Hin]%elem_of_cons; apply elem_of_app.
    + by left.
    + right. rewrite <- Hopt. by apply Hrest.
Qed.

(** The theorem on the third scan of the bench, where the estimate has
    converged at the first iteration: the message of the convergence
    branch is among the new events, and so are the three solves. *)
Lemma icp_iterations_run_to_the_end_bench :
  let s0 := Bench.after Bench.frame1 (Bench.after Bench.frame0 (Bench.engine Bench.options)) in
  let s := Bench.at_icp Bench.frame2 s0 in
  let keypoints := Bench.keypoints_at_icp Bench.frame2 s0 in
  match icp_setup 2 [] s with
  | (Ret ctx, s1) =>
      match icp_iterations 2 ctx [0; 1; 2]%Z (mkLoopState keypoints [] 0 true) s1 with
      | (Ret st', s') =>
          icp_success st' = true
          /\ E_LOG_INFO "CT_ICP: Finished with N= ICP iterations" 0
             ∈ drop (length (steam_log_ s1)) (steam_log_ s')
          /\ exists new,
               steam_log_ s' = steam_log_ s1 ++ new
               /\ forall iter, iter ∈ [0; 1; 2]%Z ->
                    E_optimize (IcpProblem iter) (max_iterations (options_ s1)) ∈ new
      | _ => False
      end
  | _ => False
  end.
Proof.
  cbv zeta.
  destruct (icp_setup 2 []
              (Bench.at_icp Bench.frame2
                 (Bench.after Bench.frame1
                    (Bench.after Bench.frame0 (Bench.engine Bench.options)))))
    as [[ctx|w|c i n] s1] eqn:Hsetup;
    vm_compute in Hsetup; [|discriminate..].
  injection Hsetup as <- <-.
  match goal with |- match ?m with _ => _ end =>
    destruct m as [[st'|w|c i n] s'] eqn:Hloop end;
    [|vm_compute in Hloop; discriminate..].
  pose proof Hloop as Hvalue. vm_compute in Hvalue. injection Hvalue as <- <-.
  split; [reflexivity|]. split.
  - vm_compute. repeat first [by left | right].
  - exact (icp_iterations_run_to_the_end 2 _ _ _ _ _ _ Hloop eq_refl eq_refl).
Defined.

(** ** The distribution of a neighbourhood *)

Section Neighborhood.

Context `{External}.

(** The sum of vectors is the sum of their coordinates. *)
Lemma foldl_vadd_coeff (points : list Vector3d) (a : Vector3d) (k : nat) :
  Eigen.coeff (foldl Eigen.vadd a points) k
  = foldl (fun acc p => acc + Eigen.coeff p k) (Eigen.coeff a k) points.
Proof.
  revert a. induction points as [|p points IH]; intros a; simpl; [done|].
  rewrite IH. f_equal.
  destruct a as [[a0 a1] a2], p as [[p0 p1] p2].
  by destruct k as [|[|k]].
Qed.

Lemma vdiv_coeff (a : Vector3d) (x : float) (k : nat) :
  Eigen.coeff (Eigen.vdiv a x) k = Eigen.coeff a k / x.
Proof. destruct a as [[a0 a1] a2]. by destruct k as [|[|k]]. Qed.

End Neighborhood.

(** What [compute_neighborhood_distribution] returns.  The centre is, in
    each coordinate, the sum of the points from the left divided by their
    number; the covariance is symmetric; the normal is the first
    eigenvector of the solver, normalized; the planarity is
    [(sigma_2 - sigma_3) / sigma_1], where [sigma_1], [sigma_2] and
    [sigma_3] are the square roots of the absolute values of the third,
    the second and the first eigenvalue of the solver; and the planarity
    is not a NaN: it compares equal to itself. *)
Theorem compute_neighborhood_distribution_returns `{External}
    (points : list Vector3d) (neighborhood : Neighborhood) :
  compute_neighborhood_distribution points = Ret neighborhood ->
  (forall k,
     Eigen.coeff (center neighborhood) k
     = foldl (fun acc p => acc + Eigen.coeff p k) 0 points
       / Double.of_Z (Z.of_nat (length points)))
  /\ Eigen.transpose (covariance neighborhood) = covariance neighborhood
  /\ normal neighborhood
     = Eigen.normalized
         (Eigen.col (SelfAdjointEigenSolver (covariance neighborhood)).2 0)
  /\ a2D neighborhood
     = (let eigenvalues := (SelfAdjointEigenSolver (covariance neighborhood)).1 in
        let sigma_1 := sqrt (abs (Eigen.coeff eigenvalues 2)) in
        let sigma_2 := sqrt (abs (Eigen.coeff eigenvalues 1)) in
        let sigma_3 := sqrt (abs (Eigen.coeff eigenvalues 0)) in
        (sigma_2 - sigma_3) / sigma_1)
  /\ (a2D neighborhood =? a2D neighborhood) = true.
Proof.
  unfold compute_neighborhood_distribution.
  destruct (foldl (covariance_add _) _ points) as [[[[[c00 c01] c02] c11] c12] c22].
  destruct (SelfAdjointEigenSolver _) as [eigenvalues eigenvectors] eqn:Hsolver.
  destruct (Double.neb _ _) eqn:Hnan; [done|].
  intros [= <-]. simpl. rewrite Hsolver. simpl.
  split.
  { intros k. rewrite vdiv_coeff, foldl_vadd_coeff.
    by destruct k as [|[|k]]. }
  split; [done|]. split; [done|]. split; [done|].
  unfold Double.neb in Hnan. by apply negb_false_iff in Hnan.
Qed.

(** The theorem on the four points of the floor of the bench: the centre
    is the origin, the normal is the vertical, and the planarity is 1. *)
Lemma compute_neighborhood_distribution_returns_bench :
  let points : list Vector3d := [(1, 1, 0); (-1, 1, 0); (-1, -1, 0); (1, -1, 0)] in
  exists neighborhood,
    compute_neighborhood_distribution (H := Bench.bench) points = Ret neighborhood
    /\ center neighborhood = (0, 0, 0)
    /\ normal neighborhood = (0, 0, 1)
    /\ a2D neighborhood = 1
    /\ (a2D neighborhood =? a2D neighborhood) = true.
Proof.
  cbv zeta. eexists. split; [vm_compute; reflexivity|].
  split; [reflexivity|]. split; [reflexivity|]. split; [reflexivity|].
  eapply (compute_neighborhood_distribution_returns (H := Bench.bench)
            [(1, 1, 0); (-1, 1, 0); (-1, -1, 0); (1, -1, 0)]).
  vm_compute. reflexivity.
Defined.

(** The only exception is the one for a NaN, and no vector is read past
    its end. *)
Theorem compute_neighborhood_distribution_throws `{External}
    (points : list Vector3d) :
  match compute_neighborhood_distribution points with
  | Ret neighborhood => (a2D neighborhood =? a2D neighborhood) = true
  | Throw what => what = "error"%string
  | OutOfBounds _ _ _ => False
  end.
Proof.
  unfold compute_neighborhood_distribution.
  destruct (foldl (covariance_add _) _ points) as [[[[[c00 c01] c02] c11] c12] c22].
  destruct (SelfAdjointEigenSolver _) as [eigenvalues eigenvectors].
  destruct (Double.neb _ _) eqn:Hnan; [done|]. simpl.
  unfold Double.neb in Hnan. by apply negb_false_iff in Hnan.
Qed.

(** ** Sampling a frame twice *)

Section Sampling.

Variable size_voxel : float.






End Sampling.


(** ** What the engine does to the frames it has

    After the time stamps of a frame were set, nothing changes them; and
    the frames before the one that is being registered are left as they
    are: only the points that are stored with them may be dropped. *)

Definition stamps (fr : TrajectoryFrame) : float * float * float :=
  (begin_timestamp fr, end_timestamp fr, eval_timestamp fr).

Section Frames.

Context `{External}.

(** A frame as it was, or without the points that were stored with it. *)
Definition kept_or_cleared (fr fr' : TrajectoryFrame) : Prop :=
  fr' = fr \/ fr' = set_points [] fr.

Definition frames_held (i0 : Z) (s s' : SteamLioOdometry) : Prop :=
  length (trajectory_ s') = length (trajectory_ s)
  /\ forall i fr, trajectory_ s !! i = Some fr ->
       exists fr', trajectory_ s' !! i = Some fr'
         /\ stamps fr' = stamps fr
         /\ ((Z.of_nat i < i0)%Z -> kept_or_cleared fr fr').

Lemma kept_or_cleared_trans fr1 fr2 fr3 :
  kept_or_cleared fr1 fr2 -> kept_or_cleared fr2 fr3 -> kept_or_cleared fr1 fr3.
Proof. unfold kept_or_cleared. intros [->| ->] [->| ->]; auto. Qed.

#[global] Instance frames_held_preorder i0 : PreOrder (frames_held i0).
Proof.
  split.
  - intros s. split; [done|]. intros i fr Hfr. exists fr.
    split; [done|]. split; [done|]. intros _. by left.
  - intros s1 s2 s3 [Hl12 H12] [Hl23 H23]. split; [congruence|].
    intros i fr Hfr.
    destruct (H12 i fr Hfr) as (fr2 & Hfr2 & Hst2 & Hp2).
    destruct (H23 i fr2 Hfr2) as (fr3 & Hfr3 & Hst3 & Hp3).
    exists fr3. split; [done|]. split; [congruence|].
    intros Hi. eapply kept_or_cleared_trans; eauto.
Qed.

Lemma frames_intro i0 s s' : trajectory_ s' = trajectory_ s -> frames_held i0 s s'.
Proof.
  intros Ht. split; [by rewrite Ht|]. intros i fr Hfr. exists fr.
  rewrite Ht. split; [done|]. split; [done|]. intros _. by left.
Qed.

(** A write to one frame. *)
Lemma modify_frame_held i0 i f :
  (forall fr, stamps (f fr) = stamps fr) ->
  (i0 <= i)%Z \/ (forall fr, f fr = set_points [] fr) ->
  preserves (frames_held i0) (modify_frame i f).
Proof.
  intros Hstamps Hwhere s.
  unfold modify_frame, frame_index, index, mbind, M_bind, bind, gets, modify, ret.
  simpl. destruct (0 <=? i)%Z eqn:Hpos; [|reflexivity].
  destruct (trajectory_ s !! Z.to_nat i) as [fr0|] eqn:Hfr0; [|reflexivity].
  unfold frames_held. destruct s; simpl in *.
  split; [by rewrite length_insert|].
  intros j fr Hfr. destruct (decide (Z.to_nat i = j)) as [<-|Hne].
  - rewrite list_lookup_insert_eq by (by eapply lookup_lt_Some).
    rewrite Hfr0 in Hfr. injection Hfr as <-.
    exists (f fr0). split; [done|]. split; [done|].
    intros Hlt. destruct Hwhere as [Hge|Hclear]; [lia|]. right. apply Hclear.
  - rewrite list_lookup_insert_ne by done. exists fr.
    split; [done|]. split; [done|]. intros _. by left.
Qed.

Lemma modify_frame_held_at i0 i f :
  (i0 <= i)%Z -> (forall fr, stamps (f fr) = stamps fr) ->
  preserves (frames_held i0) (modify_frame i f).
Proof. intros. apply modify_frame_held; auto. Qed.

Lemma modify_frame_held_clear i0 i :
  preserves (frames_held i0) (modify_frame i (set_points [])).
Proof. apply modify_frame_held; [done|]. by right. Qed.

(** The operations that touch no frame. *)
Lemma MakeShared_held i0 k v : preserves (frames_held i0) (MakeShared k v).
Proof. intros s. by apply frames_intro. Qed.

Lemma alter_var_held i0 id f : preserves (frames_held i0) (alter_var id f).
Proof. intros s. by apply frames_intro. Qed.

Lemma lock_held i0 id : preserves (frames_held i0) (lock id).
Proof. apply alter_var_held. Qed.

Lemma update_held i0 id xi : preserves (frames_held i0) (update id xi).
Proof. apply alter_var_held. Qed.

Lemma log_held i0 e : preserves (frames_held i0) (log e).
Proof. intros s. by apply frames_intro. Qed.

Lemma push_knot_held i0 k : preserves (frames_held i0) (push_knot k).
Proof. intros s. by apply frames_intro. Qed.

Lemma swf_addStateVariable_held i0 vars :
  preserves (frames_held i0) (swf_addStateVariable vars).
Proof. intros s. by apply frames_intro. Qed.

Lemma swf_marginalizeVariable_held i0 vars :
  preserves (frames_held i0) (swf_marginalizeVariable vars).
Proof. intros s. by apply frames_intro. Qed.

Lemma swf_addCostTerm_held i0 c : preserves (frames_held i0) (swf_addCostTerm c).
Proof. intros s. by apply frames_intro. Qed.

Lemma swf_addPriorCostTerms_held i0 tr :
  preserves (frames_held i0) (swf_addPriorCostTerms tr).
Proof. intros s. by apply frames_intro. Qed.

Lemma optimize_held i0 p problem n : preserves (frames_held i0) (optimize p problem n).
Proof.
  intros s. unfold optimize, log, mbind, M_bind, bind, gets, modify, throw. simpl.
  destruct (GaussNewtonSolver_optimize _ _ _); by apply frames_intro.
Qed.

End Frames.

#[export] Hint Resolve modify_frame_held_clear MakeShared_held lock_held update_held
  log_held push_knot_held swf_addStateVariable_held swf_marginalizeVariable_held
  swf_addCostTerm_held swf_addPriorCostTerms_held optimize_held : preserves.

#[export] Hint Extern 2 (preserves (frames_held _) (modify_frame _ _)) =>
  (apply modify_frame_held_at; [lia|by intros []]) : preserves.

(** The walk of a computation for [frames_held]. *)
Ltac frames_walk := preserves_walk ltac:(first [done | by apply frames_intro]).

Section FrameStages.

Context `{External}.
Variable i0 : Z.

Lemma initializeMotion_held : preserves (frames_held i0) (initializeMotion i0).
Proof. unfold initializeMotion. frames_walk. Qed.

Lemma initializeFrame_held cf : preserves (frames_held i0) (initializeFrame i0 cf).
Proof. unfold initializeFrame. frames_walk. Qed.

Lemma updateMap_held u : preserves (frames_held i0) (updateMap i0 u).
Proof. unfold updateMap. frames_walk. Qed.

Lemma icp_previous_state_held i : preserves (frames_held i0) (icp_previous_state i).
Proof. unfold icp_previous_state. frames_walk. Qed.

Lemma icp_add_state_held o prev acc t :
  preserves (frames_held i0) (icp_add_state o prev acc t).
Proof. unfold icp_add_state. frames_walk. Qed.

Local Hint Resolve icp_add_state_held : preserves.

Lemma icp_new_states_held i prev : preserves (frames_held i0) (icp_new_states i prev).
Proof. unfold icp_new_states. frames_walk. Qed.

Lemma icp_state_priors_held i prev tr :
  preserves (frames_held i0) (icp_state_priors i prev tr).
Proof. unfold icp_state_priors. frames_walk. Qed.

Lemma icp_imu_init_priors_held i prev :
  preserves (frames_held i0) (icp_imu_init_priors i prev).
Proof. unfold icp_imu_init_priors. frames_walk. Qed.

Lemma icp_enroll_var_held o first var :
  preserves (frames_held i0) (icp_enroll_var o first var).
Proof. unfold icp_enroll_var. frames_walk. Qed.

Local Hint Resolve icp_enroll_var_held : preserves.

Lemma icp_add_filter_variables_held i prev curr :
  preserves (frames_held i0) (icp_add_filter_variables i prev curr).
Proof. unfold icp_add_filter_variables. frames_walk. Qed.

Lemma icp_marginalize_loop_held o t indices marg_vars :
  preserves (frames_held i0) (icp_marginalize_loop o t indices marg_vars).
Proof.
  revert marg_vars. induction indices as [|i indices IH]; intros marg_vars; simpl.
  - frames_walk.
  - frames_walk.
Qed.

Local Hint Resolve icp_marginalize_loop_held : preserves.

Lemma icp_marginalize_held i curr : preserves (frames_held i0) (icp_marginalize i curr).
Proof. unfold icp_marginalize. frames_walk. Qed.

Lemma icp_imu_cost_term_held o prev costs imu :
  preserves (frames_held i0) (icp_imu_cost_term o prev costs imu).
Proof. unfold icp_imu_cost_term. frames_walk. Qed.

Local Hint Resolve icp_imu_cost_term_held : preserves.

Lemma icp_imu_cost_terms_held prev imu c1 c2 :
  preserves (frames_held i0) (icp_imu_cost_terms prev imu c1 c2).
Proof. unfold icp_imu_cost_terms. frames_walk. Qed.

Local Hint Resolve icp_previous_state_held icp_new_states_held icp_state_priors_held
  icp_imu_init_priors_held icp_add_filter_variables_held icp_marginalize_held
  icp_imu_cost_terms_held : preserves.

Lemma icp_setup_held i imu : preserves (frames_held i0) (icp_setup i imu).
Proof. unfold icp_setup. frames_walk. Qed.

Lemma transform_keypoints_held ctx kp :
  preserves (frames_held i0) (transform_keypoints ctx kp).
Proof. unfold transform_keypoints. frames_walk. Qed.

Lemma problem_addCostTerms_held iter costs problem :
  preserves (frames_held i0) (problem_addCostTerms iter costs problem).
Proof. unfold problem_addCostTerms. frames_walk. Qed.

Local Hint Resolve transform_keypoints_held problem_addCostTerms_held : preserves.

Lemma icp_iteration_held ctx st iter :
  preserves (frames_held i0) (icp_iteration i0 ctx st iter).
Proof. unfold icp_iteration. frames_walk. Qed.

Local Hint Resolve icp_iteration_held : preserves.

Lemma icp_iterations_held ctx iters st :
  preserves (frames_held i0) (icp_iterations i0 ctx iters st).
Proof.
  revert st. induction iters as [|iter iters IH]; intros st; simpl.
  - frames_walk.
  - frames_walk.
Qed.

Lemma swf_addCostTerms_held costs : preserves (frames_held i0) (swf_addCostTerms costs).
Proof. unfold swf_addCostTerms. frames_walk. Qed.

Local Hint Resolve swf_addCostTerms_held : preserves.

Lemma icp_assemble_window_held ctx st :
  preserves (frames_held i0) (icp_assemble_window ctx st).
Proof. unfold icp_assemble_window. frames_walk. Qed.

Lemma icp_solve_window_held : preserves (frames_held i0) icp_solve_window.
Proof. unfold icp_solve_window. frames_walk. Qed.

Lemma icp_finish_held ctx imu st : preserves (frames_held i0) (icp_finish i0 ctx imu st).
Proof.
  unfold icp_finish, use_T_mi_gt. simpl negb.
  apply preserves_bind; [apply _|frames_walk|intros o].
  apply preserves_bind; [apply _|frames_walk|intros vars].
  rewrite andb_false_r. frames_walk.
Qed.

Local Hint Resolve icp_setup_held icp_iterations_held icp_assemble_window_held
  icp_solve_window_held icp_finish_held : preserves.

Lemma icp_assembled_held kp imu : preserves (frames_held i0) (icp_assembled i0 kp imu).
Proof. unfold icp_assembled. frames_walk. Qed.

Local Hint Resolve icp_assembled_held : preserves.

Lemma icp_held kp imu : preserves (frames_held i0) (icp i0 kp imu).
Proof. unfold icp. frames_walk. Qed.

Lemma initial_state_held t : preserves (frames_held i0) (initial_state t).
Proof. unfold initial_state. frames_walk. Qed.

End FrameStages.

(** ** The frame that [registerFrame] appends *)

Section Ingest.

Context `{External}.

Lemma bind_run {A B} (m : M A) (k : A -> M B) s a s1 :
  m s = (Ret a, s1) -> (m ≫= k) s = k a s1.
Proof. unfold mbind, M_bind, bind. by intros ->. Qed.

Lemma frame_index_run i fr s :
  (0 <= i)%Z -> trajectory_ s !! Z.to_nat i = Some fr -> frame_index i s = (Ret fr, s).
Proof.
  intros Hi Hfr. unfold frame_index, index, mbind, M_bind, bind, gets. simpl.
  destruct (Z.leb_spec 0 i); [|lia]. by rewrite Hfr.
Qed.

Lemma modify_frame_run i f fr s :
  (0 <= i)%Z -> trajectory_ s !! Z.to_nat i = Some fr ->
  modify_frame i f s
  = (Ret tt, set_trajectory_ (<[Z.to_nat i := f fr]> (trajectory_ s)) s).
Proof.
  intros Hi Hfr. unfold modify_frame.
  by rewrite (bind_run _ _ _ _ _ (frame_index_run i fr s Hi Hfr)).
Qed.

(** A write to the frame that was appended last. *)
Lemma modify_frame_last frames fr f s :
  trajectory_ s = frames ++ [fr] ->
  modify_frame (Z.of_nat (length frames)) f s
  = (Ret tt, set_trajectory_ (frames ++ [f fr]) s).
Proof.
  intros Ht. rewrite (modify_frame_run _ f fr); [|lia|].
  - rewrite Ht, Nat2Z.id. f_equal. f_equal.
    replace (length frames) with (length frames + 0)%nat at 1 by lia.
    by rewrite insert_app_r.
  - rewrite Ht, Nat2Z.id. by apply list_lookup_middle.
Qed.

Lemma frame_index_last frames fr s :
  trajectory_ s = frames ++ [fr] ->
  frame_index (Z.of_nat (length frames)) s = (Ret fr, s).
Proof.
  intros Ht. apply frame_index_run; [lia|].
  rewrite Ht, Nat2Z.id. by apply list_lookup_middle.
Qed.

Lemma set_trajectory_twice a b s :
  set_trajectory_ a (set_trajectory_ b s) = set_trajectory_ a s.
Proof. by destruct s. Qed.

Lemma trajectory_set a s : trajectory_ (set_trajectory_ a s) = a.
Proof. by destruct s. Qed.

Lemma options_set_trajectory a s : options_ (set_trajectory_ a s) = options_ s.
Proof. by destruct s. Qed.

(** [initializeMotion] on the frame that was appended last: the reads of
    the two frames before it are within the trajectory. *)
Lemma initializeMotion_last frames fr s :
  trajectory_ s = frames ++ [fr] ->
  exists bR bt eR et,
    initializeMotion (Z.of_nat (length frames)) s
    = (Ret tt, set_trajectory_ (frames ++ [set_poses bR bt eR et fr]) s)
    /\ ((length frames <= 1)%nat ->
        let T_rs := Matrix4d_inverse (T_sr (options_ s)) in
        bR = block33 T_rs /\ bt = block31 T_rs /\ eR = block33 T_rs /\ et = block31 T_rs)
    /\ (forall f1, (2 <= length frames)%nat -> last frames = Some f1 ->
        bR = end_R f1 /\ bt = end_t f1).
Proof.
  intros Ht. unfold initializeMotion.
  rewrite (bind_run _ _ s (options_ s) s) by done.
  destruct (Z.leb_spec (Z.of_nat (length frames)) 1) as [Hle|Hgt].
  - eexists _, _, _, _. split; [by apply modify_frame_last|].
    split; [done|]. intros f1 Hlen. lia.
  - destruct (lookup_lt_is_Some_2 frames (length frames - 1)) as [f1 Hf1]; [lia|].
    destruct (lookup_lt_is_Some_2 frames (length frames - 2)) as [f2 Hf2]; [lia|].
    rewrite (bind_run _ _ s f1 s).
    2:{ apply frame_index_run; [lia|]. rewrite Ht.
        replace (Z.to_nat (Z.of_nat (length frames) - 1)) with (length frames - 1)%nat by lia.
        rewrite lookup_app_l by lia. done. }
    rewrite (bind_run _ _ s f2 s).
    2:{ apply frame_index_run; [lia|]. rewrite Ht.
        replace (Z.to_nat (Z.of_nat (length frames) - 2)) with (length frames - 2)%nat by lia.
        rewrite lookup_app_l by lia. done. }
    eexists _, _, _, _. split; [by apply modify_frame_last|].
    split; [lia|]. intros f1' _ Hlast. rewrite last_lookup in Hlast.
    replace (pred (length frames)) with (length frames - 1)%nat in Hlast by lia.
    rewrite Hf1 in Hlast. by injection Hlast as <-.
Qed.

Lemma initializeFrame_last frames fr cf s :
  trajectory_ s = frames ++ [fr] ->
  exists frame, initializeFrame (Z.of_nat (length frames)) cf s = (Ret frame, s).
Proof.
  intros Ht. unfold initializeFrame.
  rewrite (bind_run _ _ s (options_ s) s) by done.
  cbv zeta. destruct (std_shuffle _ _) as [frame1 g1].
  destruct (std_shuffle (sub_sample_frame _ _) _) as [frame2 g2].
  erewrite bind_run; [|by apply frame_index_last]. by eexists.
Qed.

(** [ingest] always returns: every frame it reads is there. It appends
    one frame and leaves the rest of the engine as it was. *)
Lemma ingest_run cf s :
  exists frame fr,
    ingest cf s
    = (Ret (Z.of_nat (length (trajectory_ s)), frame),
       set_trajectory_ (trajectory_ s ++ [fr]) s)
    /\ stamps fr = (scan_timestamps cf.1.2, cf.1.1)
    /\ points fr = []
    /\ ((length (trajectory_ s) <= 1)%nat ->
        let T_rs := Matrix4d_inverse (T_sr (options_ s)) in
        begin_R fr = block33 T_rs /\ begin_t fr = block31 T_rs
        /\ end_R fr = block33 T_rs /\ end_t fr = block31 T_rs)
    /\ (forall f1, (2 <= length (trajectory_ s))%nat -> last (trajectory_ s) = Some f1 ->
        begin_R fr = end_R f1 /\ begin_t fr = end_t f1).
Proof.
  destruct cf as [[t_eval const_points] imu]. unfold ingest.
  rewrite (bind_run _ _ s (Z.of_nat (length (trajectory_ s))) s) by done.
  set (frames := trajectory_ s).
  rewrite (bind_run _ _ s tt (set_trajectory_ (frames ++ [TrajectoryFrame_new]) s)) by done.
  unfold initializeTimestamp.
  destruct (scan_timestamps const_points) as [min_timestamp max_timestamp] eqn:Hscan.
  erewrite bind_run; [|apply modify_frame_last, trajectory_set].
  rewrite set_trajectory_twice.
  edestruct (initializeMotion_last frames) as (bR & bt & eR & et & Hmotion & Hfirst & Hnext);
    [apply trajectory_set|].
  erewrite bind_run; [|exact Hmotion]. rewrite set_trajectory_twice.
  edestruct (initializeFrame_last frames) as [frame Hframe]; [apply trajectory_set|].
  erewrite bind_run; [|exact Hframe].
  eexists _, _. split; [reflexivity|]. simpl. rewrite Hscan.
  rewrite options_set_trajectory in Hfirst. unfold stamps. simpl.
  split; [done|]. split; [done|]. split; [exact Hfirst|exact Hnext].
Qed.

End Ingest.

(** The first steps of [registerFrame] (the new frame, [initializeTimestamp],
    [initializeMotion] and [initializeFrame]) always return: every frame
    they read without a check is there.  They append one frame and change
    nothing else in the engine.  The new frame has the two time stamps
    that [initializeTimestamp] computes, the running minimum of the point
    time stamps from [DBL_MAX] and their running maximum from [DBL_MIN]
    (which is [DBL_MIN] when no time stamp is above it), and the
    evaluation time of the scan; it has no points.  For the first two
    frames its two poses are the inverse of [T_sr]; for a later frame it
    begins where the frame before it ends. *)
Theorem ingest_appends_one_frame `{External}
    (const_frame : float * list Point3D * list IMUData) (s : SteamLioOdometry) :
  exists frame fr,
    ingest const_frame s
    = (Ret (Z.of_nat (length (trajectory_ s)), frame),
       set_trajectory_ (trajectory_ s ++ [fr]) s)
    /\ stamps fr = (scan_timestamps const_frame.1.2, const_frame.1.1)
    /\ points fr = []
    /\ ((length (trajectory_ s) <= 1)%nat ->
        let T_rs := Matrix4d_inverse (T_sr (options_ s)) in
        begin_R fr = block33 T_rs /\ begin_t fr = block31 T_rs
        /\ end_R fr = block33 T_rs /\ end_t fr = block31 T_rs)
    /\ (forall f1, (2 <= length (trajectory_ s))%nat -> last (trajectory_ s) = Some f1 ->
        begin_R fr = end_R f1 /\ begin_t fr = end_t f1).
Proof. exact (ingest_run const_frame s). Qed.

(** ** [registerFrame] and the frames *)

Section Register.

Context `{External}.

Lemma frames_held_stamps i0 s s' i fr' :
  frames_held i0 s s' -> trajectory_ s' !! i = Some fr' ->
  exists fr, trajectory_ s !! i = Some fr /\ stamps fr' = stamps fr.
Proof.
  intros [Hlen Hheld] Hfr'.
  destruct (lookup_lt_is_Some_2 (trajectory_ s) i) as [fr Hfr].
  { rewrite <- Hlen. by eapply lookup_lt_Some. }
  destruct (Hheld i fr Hfr) as (fr2 & Hfr2 & Hst & _).
  exists fr. split; [done|]. congruence.
Qed.

(** What follows [ingest] in [registerFrame], for the frame [index_frame]. *)
Lemma registerFrame_rest_held (index_frame : Z) (frame : list Point3D) imu o
    (k : RegistrationSummary -> M RegistrationSummary) :
  (forall summary, preserves (frames_held index_frame) (k summary)) ->
  preserves (frames_held index_frame)
    (summary ←
       (if (index_frame >? 0)%Z then
          '(icp_ok, keypoints) ←
            icp index_frame (select_keypoints o index_frame frame) imu;
          ret (mkRegistrationSummary icp_ok keypoints
                 (corrected_points RegistrationSummary_new)
                 (R_ms RegistrationSummary_new) (t_ms RegistrationSummary_new))
        else
          fr ← frame_index index_frame;
          initial_state (begin_timestamp fr);;
          initial_state (end_timestamp fr);;
          modify (set_to_marginalize_ 1);;
          ret (mkRegistrationSummary true (keypoints RegistrationSummary_new)
                 (corrected_points RegistrationSummary_new)
                 (R_ms RegistrationSummary_new) (t_ms RegistrationSummary_new)));
     k summary).
Proof.
  intros Hk. pose proof (icp_held index_frame) as Hicp.
  pose proof (initial_state_held index_frame) as Hinit.
  frames_walk.
Qed.

End Register.

(** The frames after a call, however the call ends. *)
Lemma registerFrame_frames `{External}
    (const_frame : float * list Point3D * list IMUData) (s : SteamLioOdometry) :
  let s' := (registerFrame const_frame s).2 in
  length (trajectory_ s') = S (length (trajectory_ s))
  /\ (forall i fr, trajectory_ s !! i = Some fr ->
        exists fr', trajectory_ s' !! i = Some fr'
                    /\ (fr' = fr \/ fr' = set_points [] fr))
  /\ (exists fr', trajectory_ s' !! length (trajectory_ s) = Some fr'
                  /\ stamps fr' = (scan_timestamps const_frame.1.2, const_frame.1.1)).
Proof.
  intros s'. subst s'. unfold registerFrame.
  rewrite (bind_run _ _ s (options_ s) s) by done.
  destruct (ingest_run const_frame s) as (frame & fr & Hingest & Hstamps & _).
  rewrite (bind_run _ _ _ _ _ Hingest). cbv beta iota zeta.
  set (index_frame := Z.of_nat (length (trajectory_ s))).
  set (s1 := set_trajectory_ (trajectory_ s ++ [fr]) s).
  match goal with |- context [(?m s1).2] => set (s2 := (m s1).2) end.
  assert (frames_held index_frame s1 s2) as [Hlen Hheld].
  { subst s2. apply registerFrame_rest_held. intros summary.
    pose proof (updateMap_held index_frame) as Hmap.
    destruct (negb (success summary)); frames_walk. }
  clearbody s2. unfold s1 in Hlen, Hheld. rewrite trajectory_set in Hlen, Hheld.
  split; [|split].
  - rewrite Hlen, length_app. simpl. lia.
  - intros i fr0 Hfr0.
    destruct (Hheld i fr0) as (fr' & Hfr' & _ & Hpoints).
    { by apply lookup_app_l_Some. }
    exists fr'. split; [done|]. apply Hpoints.
    apply lookup_lt_Some in Hfr0. unfold index_frame. lia.
  - destruct (Hheld (length (trajectory_ s)) fr) as (fr' & Hfr' & Hst & _).
    { by apply list_lookup_middle. }
    exists fr'. split; [done|]. congruence.
Qed.


(** What the summary of a call says.  When the registration succeeded, the
    pose of the summary is the pose at the end of the new frame, the last
    one of the trajectory.  When it failed, the corrected points and the
    pose of the summary were never assigned: they are those of a summary
    as it is constructed. *)
Theorem registerFrame_summary `{External}
    (const_frame : float * list Point3D * list IMUData)
    (s s' : SteamLioOdometry) (summary : RegistrationSummary) :
  registerFrame const_frame s = (Ret summary, s') ->
  if success summary
  then exists fr, last (trajectory_ s') = Some fr
                  /\ R_ms summary = end_R fr /\ t_ms summary = end_t fr
  else corrected_points summary = corrected_points RegistrationSummary_new
       /\ R_ms summary = R_ms RegistrationSummary_new
       /\ t_ms summary = t_ms RegistrationSummary_new.
Proof.
  intros Hrun. pose proof (registerFrame_frames const_frame s) as (Hlen & _).
  rewrite Hrun in Hlen. simpl in Hlen.
  unfold registerFrame in Hrun.
  rewrite (bind_run _ _ s (options_ s) s) in Hrun by done.
  destruct (ingest_run const_frame s) as (frame & fr & Hingest & _).
  rewrite (bind_run _ _ _ _ _ Hingest) in Hrun. cbv beta iota zeta in Hrun.
  apply bind_returns in Hrun as (summary1 & s2 & Hfirst & Hrun).
  destruct (success summary1) eqn:Hok; simpl in Hrun.
  - apply bind_returns in Hrun as ([] & s3 & _ & Hrun).
    apply bind_returns in Hrun as ([] & s4 & _ & Hrun).
    apply bind_returns in Hrun as (fr' & s5 & Hread & Hret).
    apply ret_returns in Hret as [-> ->]. simpl. rewrite ?Hok.
    unfold frame_index in Hread. run_inv.
    exists fr'. split; [|done]. rewrite last_lookup, Hlen. simpl.
    by rewrite Nat2Z.id in *.
  - apply ret_returns in Hrun as [-> ->]. rewrite Hok.
    destruct (_ >? 0)%Z.
    + apply bind_returns in Hfirst as ([ok kp] & s1 & _ & Hret).
      by apply ret_returns in Hret as [-> ->].
    + run_inv. simpl in Hok. discriminate.
Qed.

(** The theorem at the second frame of the bench, which is registered. *)
Lemma registerFrame_summary_bench :
  let s := Bench.after Bench.frame0 (Bench.engine Bench.options) in
  match registerFrame (H := Bench.bench) Bench.frame1 s with
  | (Ret summary, s') =>
      success summary = true
      /\ exists fr, last (trajectory_ s') = Some fr
                    /\ R_ms summary = end_R fr /\ t_ms summary = end_t fr
  | _ => False
  end.
Proof.
  cbv zeta.
  destruct (registerFrame (H := Bench.bench) Bench.frame1
              (Bench.after Bench.frame0 (Bench.engine Bench.options)))
    as [[summary| |] s'] eqn:Hrun; try (vm_compute in Hrun; discriminate).
  pose proof (registerFrame_summary (H := Bench.bench) Bench.frame1
                (Bench.after Bench.frame0 (Bench.engine Bench.options))
                s' summary Hrun) as Hsummary.
  assert (success summary = true) as Hok.
  { vm_compute in Hrun. by injection Hrun as <- _. }
  rewrite Hok in Hsummary. by split.
Defined.

(** ** The times of the knots *)

Section KnotTimes.

Context `{External}.

Lemma icp_add_states_times o prev l acc s r s' :
  for_each l (icp_add_state o prev) acc s = (Ret r, s') ->
  exists new, trajectory_vars_ s' = trajectory_vars_ s ++ new /\ time <$> new = l.
Proof.
  revert acc s. induction l as [|t l IH]; intros acc s Hrun; simpl in Hrun.
  - run_inv. exists []. by rewrite app_nil_r.
  - apply bind_returns in Hrun as (r1 & s1 & Hone & Hrun).
    destruct (icp_add_state_run o prev acc t s) as (r0 & T & w & dw & Hs1).
    rewrite Hs1 in Hone. injection Hone as _ <-.
    apply IH in Hrun as (new & Hnew & Htimes).
    exists (knot_at t (length (state_vars_ s)) :: new). split.
    + rewrite Hnew. destruct s; simpl. by rewrite <- app_assoc.
    + rewrite fmap_cons. by f_equal.
Qed.

Lemma icp_new_states_times i prev s r s' :
  icp_new_states i prev s = (Ret r, s') ->
  exists fr new, trajectory_ s !! Z.to_nat i = Some fr /\ (0 <= i)%Z
    /\ trajectory_vars_ s' = trajectory_vars_ s ++ new
    /\ time <$> new = knot_times (options_ s) (prev_time prev) (end_timestamp fr).
Proof.
  unfold icp_new_states. intros Hrun. run_inv.
  destruct (_ <? 0)%Z; [run_inv|].
  apply icp_add_states_times in Hrun as (new & Hnew & Htimes). eauto 10.
Qed.

Lemma icp_previous_state_time i s prev s1 :
  icp_previous_state i s = (Ret prev, s1) ->
  exists pf back,
    trajectory_ s !! Z.to_nat (i - 1) = Some pf /\ (1 <= i)%Z
    /\ last (trajectory_vars_ s) = Some back
    /\ (time back =? end_timestamp pf) = true
    /\ prev_time prev = end_timestamp pf.
Proof.
  unfold icp_previous_state, use_T_mi_gt. intros Hrun. run_inv.
  destruct (Double.neb _ _) eqn:Hneb; [run_inv|]. run_inv.
  eexists _, _. split; [eassumption|]. split; [lia|]. split.
  { rewrite last_lookup.
    match goal with Hl : trajectory_vars_ s !! _ = Some _ |- _ =>
      rewrite <- Hl end.
    f_equal. lia. }
  split; [by apply negb_false_iff in Hneb|].
  destruct (use_imu (options_ s)); simpl in *; run_inv; done.
Qed.

Definition new_knot_times (i : Z) (s s' : SteamLioOdometry) : Prop :=
  exists pf fr back new,
    trajectory_ s !! Z.to_nat (i - 1) = Some pf
    /\ trajectory_ s !! Z.to_nat i = Some fr /\ (1 <= i)%Z
    /\ last (trajectory_vars_ s) = Some back
    /\ (time back =? end_timestamp pf) = true
    /\ trajectory_vars_ s' = trajectory_vars_ s ++ new
    /\ time <$> new = knot_times (options_ s) (end_timestamp pf) (end_timestamp fr).

Lemma end_of_stamps fr fr' : stamps fr' = stamps fr -> end_timestamp fr' = end_timestamp fr.
Proof. unfold stamps. by intros [= _ -> _]. Qed.

Lemma new_knot_times_kept i s s1 s' :
  new_knot_times i s s1 -> keeps only_knots s1 s' -> new_knot_times i s s'.
Proof.
  intros (pf & fr & back & new & Hpf & Hfr & Hi & Hback & Heq & Hnew & Htimes) Hkeep.
  exists pf, fr, back, new. repeat (split; [done|]).
  apply keeps_knots in Hkeep. by rewrite Hkeep.
Qed.

Lemma icp_setup_times i imu s ctx s' :
  icp_setup i imu s = (Ret ctx, s') -> new_knot_times i s s'.
Proof.
  unfold icp_setup. intros Hrun. run_inv. kept only_knots.
  match goal with Hp : icp_previous_state _ _ = (Ret _, ?s1) |- _ =>
    pose proof (preserves_returns (frames_held i) _ _ _ _
                  (icp_previous_state_held i i) Hp) as Hheld;
    apply icp_previous_state_time in Hp as (pf & back & Hpf & Hi & Hback & Heq & Hprev)
  end.
  match goal with Hn : icp_new_states _ _ _ = _ |- _ =>
    apply icp_new_states_times in Hn as (fr1 & new & Hfr1 & _ & Hnew & Htimes) end.
  destruct (frames_held_stamps _ _ _ _ _ Hheld Hfr1) as (fr & Hfr & Hst).
  apply end_of_stamps in Hst.
  repeat match goal with Hk : keeps only_knots _ _ |- _ =>
    pose proof (keeps_options _ _ _ Hk); apply keeps_knots in Hk end.
  exists pf, fr, back, new. repeat (split; [done|]).
  split; [congruence|]. rewrite <- Hst, <- Hprev. congruence.
Qed.

Lemma icp_times i kp imu s r s' :
  icp i kp imu s = (Ret r, s') -> new_knot_times i s s'.
Proof.
  unfold icp, icp_assembled. intros Hrun. run_inv. kept only_knots.
  match goal with Hn : icp_setup _ _ _ = _ |- _ => apply icp_setup_times in Hn end.
  repeat match goal with Hk : keeps only_knots _ _ |- _ =>
    eapply new_knot_times_kept in Hk; [|eassumption] end.
  done.
Qed.

End KnotTimes.

(** When [registerFrame] returns for a frame that is not the first one,
    the time of the last knot it found was the end time stamp of the
    previous frame; the knots it had are all there, in their order; and
    the knots it has added are, in this order, [num_extra_states] knots at
    equal steps after the end of the previous frame and one knot at the
    end time stamp of the new frame, the second component of
    [scan_timestamps]: the running maximum of the point time stamps from
    [DBL_MIN]. *)
Theorem registerFrame_knot_times `{External}
    (const_frame : float * list Point3D * list IMUData)
    (s s' : SteamLioOdometry) (summary : RegistrationSummary) :
  registerFrame const_frame s = (Ret summary, s') ->
  trajectory_ s <> [] ->
  exists prev_frame back,
    last (trajectory_ s) = Some prev_frame
    /\ last (trajectory_vars_ s) = Some back
    /\ (time back =? end_timestamp prev_frame) = true
    /\ exists new,
         trajectory_vars_ s' = trajectory_vars_ s ++ new
         /\ time <$> new
            = knot_times (options_ s) (end_timestamp prev_frame)
                (scan_timestamps const_frame.1.2).2.
Proof.
  unfold registerFrame. intros Hrun Hframes.
  rewrite (bind_run _ _ s (options_ s) s) in Hrun by done.
  destruct (ingest_run const_frame s) as (frame & fr & Hingest & Hstamps & _).
  rewrite (bind_run _ _ _ _ _ Hingest) in Hrun. cbv beta iota zeta in Hrun.
  set (s1 := set_trajectory_ (trajectory_ s ++ [fr]) s) in *.
  destruct (Z.gtb_spec (Z.of_nat (length (trajectory_ s))) 0) as [Hpos|Hzero].
  2:{ destruct (trajectory_ s); [done|simpl in Hzero; lia]. }
  run_inv.
  match goal with Hi : icp _ _ _ _ = (Ret _, ?s2) |- _ =>
    apply icp_times in Hi
      as (pf & fr1 & back & new & Hpf & Hfr1 & _ & Hback & Heq & Hnew & Htimes);
    assert (trajectory_vars_ s' = trajectory_vars_ s2) as Hkept
  end.
  { simpl in Hrun. destruct (negb _) in Hrun.
    - by run_inv.
    - run_inv. kept only_knots.
      repeat match goal with Hk : keeps only_knots _ _ |- _ => apply keeps_knots in Hk end.
      destruct (_ =? 0)%Z; [|destruct (_ >? 0)%Z; simpl in *]; run_inv; kept only_knots;
        repeat match goal with Hk : keeps only_knots _ _ |- _ => apply keeps_knots in Hk end;
        congruence. }
  subst s1. rewrite trajectory_set in Hpf, Hfr1.
  assert (trajectory_vars_ (set_trajectory_ (trajectory_ s ++ [fr]) s) = trajectory_vars_ s)
    as Hvars by (by destruct s).
  assert (options_ (set_trajectory_ (trajectory_ s ++ [fr]) s) = options_ s)
    as Hopts by (by destruct s).
  rewrite Hvars, Hopts in *.
  rewrite Nat2Z.id, list_lookup_middle in Hfr1 by done. injection Hfr1 as <-.
  replace (Z.to_nat (Z.of_nat (length (trajectory_ s)) - 1))
    with (pred (length (trajectory_ s))) in Hpf by lia.
  rewrite lookup_app_l in Hpf by lia. rewrite <- last_lookup in Hpf.
  exists pf, back. repeat (split; [done|]).
  exists new. split; [congruence|]. rewrite Htimes. f_equal.
  unfold stamps in Hstamps. injection Hstamps as Hscan _. by rewrite <- Hscan.
Qed.

(** The theorem at the second frame of the bench: the engine has the two
    knots of the first frame, at 0 and at 0.1, and gains one knot, at the
    end 0.2 of the second scan. *)
Lemma registerFrame_knot_times_bench :
  let s := Bench.after Bench.frame0 (Bench.engine Bench.options) in
  let s' := (registerFrame (H := Bench.bench) Bench.frame1 s).2 in
  length (trajectory_ s) = 1%nat
  /\ num_extra_states (options_ s) = 0%Z
  /\ exists prev_frame back,
       last (trajectory_ s) = Some prev_frame
       /\ last (trajectory_vars_ s) = Some back
       /\ (time back =? end_timestamp prev_frame) = true
       /\ exists new,
            trajectory_vars_ s' = trajectory_vars_ s ++ new
            /\ time <$> new
               = knot_times (options_ s) (end_timestamp prev_frame)
                   (scan_timestamps Bench.frame1.1.2).2.
Proof.
  cbv zeta. split; [reflexivity|]. split; [reflexivity|].
  destruct (registerFrame (H := Bench.bench) Bench.frame1
              (Bench.after Bench.frame0 (Bench.engine Bench.options)))
    as [[summary| |] s'] eqn:Hrun; try (vm_compute in Hrun; discriminate).
  simpl snd.
  refine (registerFrame_knot_times (H := Bench.bench) Bench.frame1
            (Bench.after Bench.frame0 (Bench.engine Bench.options)) s' summary Hrun _).
  intros Hnil. apply (f_equal length) in Hnil. vm_compute in Hnil. discriminate.
Defined.

(** ** The first frame *)

Module DoubleEq.



End DoubleEq.


Section FirstFrame.

Context `{External}.



End FirstFrame.



(** ** What a registration reads without a check *)

Section Needs.

Context `{External}.

(** [icp] opens with the ground-truth pose of the frame. *)
Lemma icp_previous_state_ground_truth i s prev s1 :
  icp_previous_state i s = (Ret prev, s1) ->
  (0 <= i)%Z /\ (Z.to_nat i < length (T_i_r_gt_poses s))%nat.
Proof.
  unfold icp_previous_state, use_T_mi_gt. intros Hrun. run_inv.
  destruct (Double.neb _ _); [run_inv|]. run_inv.
  split; [done|]. by eapply lookup_lt_Some.
Qed.

(** [icp] closes, with the IMU, on the last IMU sample. *)
Lemma icp_finish_imu i ctx imu st s r s' :
  icp_finish i ctx imu st s = (Ret r, s') ->
  use_imu (options_ s) = true -> imu <> [].
Proof.
  unfold icp_finish, use_T_mi_gt. intros Hrun Himu. run_inv.
  rewrite Himu in *. simpl in *. run_inv.
  intros ->. simpl in *. lia.
Qed.

Lemma icp_needs i kp imu s r s' :
  icp i kp imu s = (Ret r, s') ->
  (0 <= i)%Z /\ (Z.to_nat i < length (T_i_r_gt_poses s))%nat
  /\ (use_imu (options_ s) = true -> imu <> []).
Proof.
  unfold icp, icp_assembled, icp_setup. intros Hrun. run_inv.
  kept only_map.
  match goal with Hp : icp_previous_state _ _ = _ |- _ =>
    apply icp_previous_state_ground_truth in Hp as [Hi Hgt] end.
  split; [done|]. split; [done|]. intros Himu.
  match goal with Hf : icp_finish _ _ _ _ _ = _ |- _ =>
    apply icp_finish_imu in Hf; [done|] end.
  repeat match goal with Hk : keeps only_map _ _ |- _ =>
    apply keeps_options in Hk end.
  congruence.
Qed.

End Needs.

(** A call of [registerFrame] for a frame that is not the first one
    returns only if the table of ground-truth poses has an entry for the
    frame, whether the IMU is in use or not, and, when the IMU is in use,
    only if the frame comes with an IMU sample: both are read without a
    check. *)
Theorem registerFrame_needs_ground_truth `{External}
    (const_frame : float * list Point3D * list IMUData)
    (s s' : SteamLioOdometry) (summary : RegistrationSummary) :
  registerFrame const_frame s = (Ret summary, s') ->
  trajectory_ s <> [] ->
  (length (trajectory_ s) < length (T_i_r_gt_poses s))%nat
  /\ (use_imu (options_ s) = true -> const_frame.2 <> []).
Proof.
  unfold registerFrame. intros Hrun Hframes.
  rewrite (bind_run _ _ s (options_ s) s) in Hrun by done.
  destruct (ingest_run const_frame s) as (frame & fr & Hingest & _).
  rewrite (bind_run _ _ _ _ _ Hingest) in Hrun. cbv beta iota zeta in Hrun.
  destruct (Z.gtb_spec (Z.of_nat (length (trajectory_ s))) 0) as [Hpos|Hzero].
  2:{ destruct (trajectory_ s); [done|simpl in Hzero; lia]. }
  run_inv.
  match goal with Hi : icp _ _ _ _ = _ |- _ =>
    apply icp_needs in Hi as (_ & Hgt & Himu) end.
  destruct s; simpl in *. rewrite Nat2Z.id in Hgt. done.
Qed.

(** The theorem at the second frame of the bench, with the IMU in use and
    one IMU sample: the table has four poses. *)
Lemma registerFrame_needs_ground_truth_bench :
  let s := Bench.after Bench.frame0 (Bench.engine (Bench.with_imu Bench.options)) in
  length (trajectory_ s) = 1%nat
  /\ use_imu (options_ s) = true
  /\ match registerFrame (H := Bench.bench) Bench.frame1_imu_within s with
     | (Ret _, _) =>
         (length (trajectory_ s) < length (T_i_r_gt_poses s))%nat
         /\ (use_imu (options_ s) = true -> Bench.frame1_imu_within.2 <> [])
     | _ => False
     end.
Proof.
  cbv zeta. split; [reflexivity|]. split; [reflexivity|].
  destruct (registerFrame (H := Bench.bench) Bench.frame1_imu_within
              (Bench.after Bench.frame0 (Bench.engine (Bench.with_imu Bench.options))))
    as [[summary| |] s'] eqn:Hrun; try (vm_compute in Hrun; discriminate).
  refine (registerFrame_needs_ground_truth (H := Bench.bench) Bench.frame1_imu_within
            (Bench.after Bench.frame0 (Bench.engine (Bench.with_imu Bench.options)))
            s' summary Hrun _).
  intros Hnil. apply (f_equal length) in Hnil. vm_compute in Hnil. discriminate.
Defined.

(** ** The marginalization loop *)

Section Marginalize.

Context `{External}.

(** The variables of a knot that the loop hands to the filter. *)
Definition knot_marg_vars (o : Options) (store : list StateVar) (var : TrajectoryVar)
    : list VarId :=
  [T_rm var; w_mr_inr var; dw_mr_inr var]
  ++ (if use_imu o
      then imu_biases var :: (if store_locked store (T_mi var) then [] else [T_mi var])
      else []).

Lemma var_at_returns i s var s' :
  var_at i s = (Ret var, s') ->
  (0 <= i)%Z /\ trajectory_vars_ s !! Z.to_nat i = Some var /\ s' = s.
Proof. intros Hrun. by run_inv. Qed.

Lemma frame_at_returns i s fr s' :
  frame_at i s = (Ret fr, s') ->
  (0 <= i)%Z /\ trajectory_ s !! Z.to_nat i = Some fr /\ s' = s.
Proof. intros Hrun. by run_inv. Qed.

Lemma icp_marginalize_loop_spec o marg_time (n : nat) : forall (from : Z) acc s r s',
  (0 <= from)%Z ->
  icp_marginalize_loop o marg_time (seqZ from (Z.of_nat n)) acc s = (Ret r, s') ->
  exists k : nat,
    (k <= n)%nat
    /\ (forall j var, (j < k)%nat ->
          trajectory_vars_ s !! (Z.to_nat from + j)%nat = Some var ->
          (time var <=? marg_time) = true)
    /\ length (take k (drop (Z.to_nat from) (trajectory_vars_ s))) = k
    /\ r = acc ++ concat (knot_marg_vars o (state_vars_ s)
                            <$> take k (drop (Z.to_nat from) (trajectory_vars_ s)))
    /\ ((k = n /\ s' = s)
        \/ ((k < n)%nat
            /\ (exists var,
                  trajectory_vars_ s !! (Z.to_nat from + k)%nat = Some var
                  /\ (time var <=? marg_time) = false)
            /\ s' = set_to_marginalize_ (from + Z.of_nat k) s)).
Proof.
  induction n as [|n IH]; intros from acc s r s' Hfrom Hrun.
  - simpl in Hrun. run_inv. exists 0%nat. split; [lia|]. split; [intros; lia|].
    split; [done|]. split; [by rewrite take_0, app_nil_r|]. by left.
  - rewrite Nat2Z.inj_succ, seqZ_cons in Hrun by lia. simpl in Hrun.
    apply bind_returns in Hrun as (var & s1 & Hvar & Hrun).
    unfold var_at in Hvar. run_inv.
    match goal with Hl : trajectory_vars_ s !! _ = Some _ |- _ => rename Hl into Hlook end.
    destruct (time var <=? marg_time) eqn:Hle.
    + apply bind_returns in Hrun as (acc1 & s1 & Hacc & Hrun).
      assert (s1 = s /\ acc1 = acc ++ knot_marg_vars o (state_vars_ s) var) as [-> ->].
      { unfold knot_marg_vars. destruct (use_imu o).
        - unfold locked in Hacc. run_inv. split; [done|].
          rewrite <- !app_assoc. simpl. by destruct (store_locked _ _).
        - run_inv. split; [done|]. by rewrite app_nil_r. }
      replace (Z.pred (Z.succ (Z.of_nat n))) with (Z.of_nat n) in Hrun by lia.
      apply IH in Hrun as (k & Hk & Hall & Hlen & -> & Hend); [|lia].
      replace (Z.to_nat (Z.succ from)) with (S (Z.to_nat from)) in * by lia.
      exists (S k). split; [lia|]. split; [|split; [|split]].
      * intros j var' Hj Hvar'. destruct j as [|j].
        -- rewrite Nat.add_0_r, Hlook in Hvar'. by injection Hvar' as <-.
        -- apply (Hall j var'); [lia|].
           by replace (S (Z.to_nat from) + j)%nat
             with (Z.to_nat from + S j)%nat by lia.
      * rewrite (drop_S _ var (Z.to_nat from)) by done. simpl. by rewrite Hlen.
      * rewrite (drop_S _ var (Z.to_nat from)) by done. simpl.
        by rewrite <- !app_assoc.
      * destruct Hend as [[-> ->]|(Hlt & (var' & Hvar' & Hgt) & ->)].
        -- by left.
        -- right. split; [lia|]. split.
           ++ exists var'. split; [|done].
              by replace (Z.to_nat from + S k)%nat
                with (S (Z.to_nat from) + k)%nat by lia.
           ++ f_equal. lia.
    + run_inv. exists 0%nat. split; [lia|]. split; [intros; lia|].
      split; [done|]. split; [by rewrite take_0, app_nil_r|].
      right. split; [lia|]. split.
      * exists var. by rewrite Nat.add_0_r.
      * f_equal. lia.
Qed.

End Marginalize.

(** The marginalization of [icp], when it returns.  It hands to the filter,
    in one call, the variables of the knots that follow the pointer
    [to_marginalize_] for as long as their time is not after the end of
    the frame [index_frame - delay_adding_points - 1], and no other
    variable; the pointer moves to the first knot that is later, and it
    stays where it was when no knot up to the current one is later.  The
    knots, the variables and the frames are left as they were. *)
Theorem icp_marginalize_hands_over `{External}
    (index_frame curr_trajectory_var_index : Z) (s s' : SteamLioOdometry) :
  icp_marginalize index_frame curr_trajectory_var_index s = (Ret tt, s') ->
  (index_frame - delay_adding_points (options_ s) > 0)%Z ->
  exists (marg_frame : TrajectoryFrame) (k : nat),
    let pointer := to_marginalize_ s in
    let knots := take k (drop (Z.to_nat pointer) (trajectory_vars_ s)) in
    let marg_vars := concat (knot_marg_vars (options_ s) (state_vars_ s) <$> knots) in
    trajectory_ s !! Z.to_nat (index_frame - delay_adding_points (options_ s) - 1)
    = Some marg_frame
    /\ (0 <= pointer)%Z
    /\ length knots = k
    /\ Forall (fun var => (time var <=? end_timestamp marg_frame) = true) knots
    /\ ((to_marginalize_ s' = pointer
         /\ Z.of_nat k = Z.max 0 (curr_trajectory_var_index - pointer + 1))
        \/ (to_marginalize_ s' = (pointer + Z.of_nat k)%Z
            /\ (Z.of_nat k < curr_trajectory_var_index - pointer + 1)%Z
            /\ exists var,
                 trajectory_vars_ s !! (Z.to_nat pointer + k)%nat = Some var
                 /\ (time var <=? end_timestamp marg_frame) = false))
    /\ steam_log_ s' = steam_log_ s ++ [E_marginalizeVariable marg_vars]
    /\ sliding_window_filter_ s'
       = marginalizeVariable (sliding_window_filter_ s)
           (var_value <$> state_vars_ s) marg_vars
    /\ trajectory_vars_ s' = trajectory_vars_ s
    /\ state_vars_ s' = state_vars_ s
    /\ trajectory_ s' = trajectory_ s
    /\ map_ s' = map_ s.
Proof.
  unfold icp_marginalize. intros Hrun Hdelay.
  apply bind_returns in Hrun as (o & s0 & Ho & Hrun).
  apply gets_returns in Ho as [-> ->].
  destruct (Z.gtb_spec (index_frame - delay_adding_points (options_ s)) 0); [|lia].
  simpl in Hrun.
  apply bind_returns in Hrun as (p & s0 & Hp & Hrun). apply gets_returns in Hp as [-> ->].
  apply bind_returns in Hrun as (v0 & s0 & Hv0 & Hrun).
  apply var_at_returns in Hv0 as (Hpointer & _ & ->).
  apply bind_returns in Hrun as (marg_frame & s0 & Hmf & Hrun).
  apply frame_at_returns in Hmf as (_ & Hmf & ->).
  apply bind_returns in Hrun as (marg_vars & s1 & Hloop & Hrun).
  set (n := Z.to_nat (curr_trajectory_var_index - to_marginalize_ s + 1)) in *.
  assert (seqZ (to_marginalize_ s) (curr_trajectory_var_index - to_marginalize_ s + 1)
          = seqZ (to_marginalize_ s) (Z.of_nat n)) as Hseq.
  { unfold seqZ. by rewrite Nat2Z.id. }
  rewrite Hseq in Hloop.
  apply icp_marginalize_loop_spec in Hloop
    as (k & Hk & Hall & Hlen & -> & Hend); [|done].
  exists marg_frame, k. cbv zeta.
  split; [done|]. split; [done|]. split; [done|]. split.
  { apply Forall_forall. intros var Hin.
    apply list_elem_of_lookup in Hin as [j Hj].
    apply lookup_take_Some in Hj as [Hj Hjk]. rewrite lookup_drop in Hj.
    by apply (Hall j var). }
  assert (state_vars_ s1 = state_vars_ s /\ steam_log_ s1 = steam_log_ s
          /\ sliding_window_filter_ s1 = sliding_window_filter_ s
          /\ trajectory_vars_ s1 = trajectory_vars_ s
          /\ trajectory_ s1 = trajectory_ s /\ map_ s1 = map_ s) as (Hsv & Hlg & Hf & Hv & Ht & Hm).
  { destruct Hend as [[_ ->]|(_ & _ & ->)]; [done|by destruct s]. }
  unfold swf_marginalizeVariable, log in Hrun. run_inv.
  split.
  { destruct Hend as [[-> ->]|(Hlt & Hvar & ->)].
    - left. split; [by destruct s|]. unfold n. lia.
    - right. split; [by destruct s|]. split; [unfold n in Hlt; lia|done]. }
  destruct s1; simpl in *. by subst.
Qed.

(** The theorem on the bench, in a state with the knots at 0, 0.1 and 0.2
    and the pointer at the second one: the end of the first frame is 0.1,
    so that the variables of the second knot are handed over, and the
    pointer moves to the third. *)
Lemma icp_marginalize_hands_over_bench :
  let s := set_to_marginalize_ 1
             (Bench.after Bench.frame1
                (Bench.after Bench.frame0 (Bench.engine Bench.options))) in
  (1 - delay_adding_points (options_ s) > 0)%Z
  /\ time <$> trajectory_vars_ s = [0; 0.1; 0.2]
  /\ match icp_marginalize (H := Bench.bench) 1 2 s with
     | (Ret tt, s') =>
         to_marginalize_ s' = 2%Z
         /\ steam_log_ s' = steam_log_ s ++ [E_marginalizeVariable [5; 6; 7]%nat]
     | _ => False
     end.
Proof.
  cbv zeta. split; [vm_compute; reflexivity|]. split; [vm_compute; reflexivity|].
  destruct (icp_marginalize (H := Bench.bench) 1 2
              (set_to_marginalize_ 1
                 (Bench.after Bench.frame1
                    (Bench.after Bench.frame0 (Bench.engine Bench.options)))))
    as [[[]| |] s'] eqn:Hrun; try (vm_compute in Hrun; discriminate).
  destruct (icp_marginalize_hands_over (H := Bench.bench) 1 2
              (set_to_marginalize_ 1
                 (Bench.after Bench.frame1
                    (Bench.after Bench.frame0 (Bench.engine Bench.options))))
              s' Hrun)
    as (marg_frame & k & Hframe & _ & Hk & _ & Hpointer & Hlog & _).
  { vm_compute. reflexivity. }
  vm_compute in Hrun. injection Hrun as <-. split; reflexivity.
Defined.

(** ** The last solve *)

Section LastSolve.

Context `{External}.

Definition only_log : Frame := mkFrame false false false false true.

Lemma keeps_log s s' : keeps only_log s s' -> steam_log_ s' = steam_log_ s.
Proof. intros (_ & _ & _ & _ & _ & _ & _ & _ & _ & Hlog). by apply Hlog. Qed.

Lemma optimize_last p problem n s s' :
  optimize p problem n s = (Ret tt, s') ->
  steam_log_ s' = steam_log_ s ++ [E_optimize p n].
Proof.
  unfold optimize, log. intros Hrun. run_inv.
  destruct (GaussNewtonSolver_optimize _ _ _); run_inv. by destruct s.
Qed.

Lemma icp_solve_window_last s s' :
  icp_solve_window s = (Ret tt, s') ->
  steam_log_ s' = steam_log_ s ++ [E_optimize SlidingWindowProblem 20].
Proof.
  unfold icp_solve_window. intros Hrun. run_inv.
  destruct (_ >? 100)%Z; [run_inv|]. destruct (_ >? 100000)%Z; [run_inv|].
  by eapply optimize_last.
Qed.

Lemma icp_last_solve i kp imu s r s' :
  icp i kp imu s = (Ret r, s') ->
  exists before,
    steam_log_ s' = steam_log_ s ++ before ++ [E_optimize SlidingWindowProblem 20].
Proof.
  unfold icp. intros Hrun.
  apply bind_returns in Hrun as ([ctx st] & s1 & Hassembled & Hrun).
  apply bind_returns in Hrun as ([] & s2 & Hsolve & Hfinish).
  apply icp_solve_window_last in Hsolve.
  apply (preserves_returns (keeps only_log)) in Hfinish; [|apply icp_finish_keeps].
  apply keeps_log in Hfinish.
  apply (preserves_returns (keeps only_map)) in Hassembled;
    [|by apply icp_assembled_keeps].
  destruct Hassembled as (_ & _ & _ & [before Hbefore] & _).
  exists before. rewrite Hfinish, Hsolve, Hbefore. by rewrite <- app_assoc.
Qed.

End LastSolve.

(** The log of the engine has the calls that change a problem
    ([addStateVariable], [marginalizeVariable], [addCostTerm],
    [addPriorCostTerms]), the calls that solve one, and the message of the
    loop of [icp] on its convergence.  When
    [registerFrame] returns for a frame that is not the first one, the last
    of these calls is the solve of the sliding-window problem, with at most
    20 iterations: the window was solved, also when the summary reports a
    failed registration, and nothing was added to a problem, marginalized
    or solved after that.  (What [registerFrame] reads from steam after the
    solve, the interpolated poses and the covariance, is no such call.) *)
Theorem registerFrame_ends_with_window_solve `{External}
    (const_frame : float * list Point3D * list IMUData)
    (s s' : SteamLioOdometry) (summary : RegistrationSummary) :
  registerFrame const_frame s = (Ret summary, s') ->
  trajectory_ s <> [] ->
  exists before,
    steam_log_ s' = steam_log_ s ++ before ++ [E_optimize SlidingWindowProblem 20].
Proof.
  unfold registerFrame. intros Hrun Hframes.
  rewrite (bind_run _ _ s (options_ s) s) in Hrun by done.
  destruct (ingest_run const_frame s) as (frame & fr & Hingest & _).
  rewrite (bind_run _ _ _ _ _ Hingest) in Hrun. cbv beta iota zeta in Hrun.
  destruct (Z.gtb_spec (Z.of_nat (length (trajectory_ s))) 0) as [Hpos|Hzero].
  2:{ destruct (trajectory_ s); [done|simpl in Hzero; lia]. }
  apply bind_returns in Hrun as (summary1 & s2 & Hicp & Hrun).
  apply bind_returns in Hicp as ([ok kp] & s1 & Hicp & Hret).
  apply ret_returns in Hret as [-> ->].
  apply icp_last_solve in Hicp as [before Hlog].
  exists before.
  assert (steam_log_ s' = steam_log_ s1) as ->; [|by destruct s].
  apply keeps_log.
  refine (preserves_returns (keeps only_log) _ _ _ _ _ Hrun).
  destruct (negb _); [|destruct (_ =? 0)%Z]; keeps_walk.
Qed.

(** The theorem at the second frame of the bench, on the configuration
    that asks for more keypoints than the scan has: the registration
    fails, and the window is solved. *)
Lemma registerFrame_ends_with_window_solve_bench :
  let s := Bench.after Bench.frame0 (Bench.engine Bench.demanding) in
  length (trajectory_ s) = 1%nat
  /\ match registerFrame (H := Bench.bench) Bench.frame1 s with
     | (Ret summary, s') =>
         success summary = false
         /\ exists before,
              steam_log_ s'
              = steam_log_ s ++ before ++ [E_optimize SlidingWindowProblem 20]
     | _ => False
     end.
Proof.
  cbv zeta. split; [reflexivity|].
  destruct (registerFrame (H := Bench.bench) Bench.frame1
              (Bench.after Bench.frame0 (Bench.engine Bench.demanding)))
    as [[summary| |] s'] eqn:Hrun; try (vm_compute in Hrun; discriminate).
  split.
  - vm_compute in Hrun. by injection Hrun as <- _.
  - refine (registerFrame_ends_with_window_solve (H := Bench.bench) Bench.frame1
              (Bench.after Bench.frame0 (Bench.engine Bench.demanding)) s' summary Hrun _).
    intros Hnil. apply (f_equal length) in Hnil. vm_compute in Hnil. discriminate.
Defined.

(** ** [trajectory] *)

Section Trajectory.

Context `{External}.

(** What [trajectory] leaves of a frame: all but its three poses. *)
Definition same_but_poses (fr fr' : TrajectoryFrame) : Prop :=
  stamps fr' = stamps fr /\ points fr' = points fr
  /\ mid_w fr' = mid_w fr /\ mid_dw fr' = mid_dw fr /\ mid_b fr' = mid_b fr
  /\ mid_T_mi fr' = mid_T_mi fr.

Lemma final_state_value_same o tr values fr :
  same_but_poses fr (final_state_value o tr values fr).
Proof. by destruct fr. Qed.

Lemma final_state_value_twice o tr values fr :
  final_state_value o tr values (final_state_value o tr values fr)
  = final_state_value o tr values fr.
Proof. by destruct fr. Qed.

Lemma final_state_value_fmap_twice o tr values (l : list TrajectoryFrame) :
  final_state_value o tr values <$> (final_state_value o tr values <$> l)
  = final_state_value o tr values <$> l.
Proof.
  rewrite <- list_fmap_compose. apply list_fmap_ext.
  intros i fr _. apply final_state_value_twice.
Qed.

Lemma trajectory_run flag s :
  trajectory flag s
  = let frames :=
      if flag
      then final_state_value (options_ s)
             (full_trajectory (options_ s) (trajectory_vars_ s))
             (var_value <$> state_vars_ s) <$> trajectory_ s
      else trajectory_ s in
    (Ret frames, set_trajectory_ frames s).
Proof. destruct flag, s; reflexivity. Qed.

End Trajectory.

(** When [trajectory] returns, what it returns is the list of frames it
    leaves in the engine.  It changes nothing else in the engine; without
    [use_final_state_value] it changes nothing at all.  With the option,
    every frame keeps its time stamps, its points, its velocity,
    acceleration, bias and [T_mi]: the poses only are written.  A second
    call that returns, returns the same frames and leaves the engine as the
    first call left it. *)
Theorem trajectory_idempotent `{External}
    (use_final_state_value : bool) (s s' : SteamLioOdometry)
    (frames : list TrajectoryFrame) :
  trajectory use_final_state_value s = (Ret frames, s') ->
  frames = trajectory_ s'
  /\ s' = set_trajectory_ frames s
  /\ (use_final_state_value = false -> s' = s)
  /\ Forall2 same_but_poses (trajectory_ s) frames
  /\ (forall frames2 s2,
        trajectory use_final_state_value s' = (Ret frames2, s2) ->
        frames2 = frames /\ s2 = s').
Proof.
  rewrite trajectory_run. cbv zeta. intros [= <- <-].
  split; [by rewrite trajectory_set|]. split; [done|]. split; [|split].
  - intros ->. by destruct s.
  - destruct use_final_state_value.
    + apply Forall2_fmap_r, Forall_Forall2_diag, Forall_forall.
      intros fr _. apply final_state_value_same.
    + apply Forall_Forall2_diag, Forall_forall. intros fr _. by repeat split.
  - intros frames2 s2. rewrite trajectory_run. cbv zeta.
    assert (forall a b, options_ (set_trajectory_ a b) = options_ b
                        /\ trajectory_vars_ (set_trajectory_ a b) = trajectory_vars_ b
                        /\ state_vars_ (set_trajectory_ a b) = state_vars_ b
                        /\ trajectory_ (set_trajectory_ a b) = a) as Hset
      by (by intros a []).
    destruct use_final_state_value.
    + destruct (Hset (final_state_value (options_ s)
                        (full_trajectory (options_ s) (trajectory_vars_ s))
                        (var_value <$> state_vars_ s) <$> trajectory_ s) s)
        as (-> & -> & -> & ->).
      rewrite final_state_value_fmap_twice, set_trajectory_twice.
      by intros [= <- <-].
    + rewrite trajectory_set, set_trajectory_twice. by intros [= <- <-].
Qed.

(** The theorem on the bench after two frames, with the option. *)
Lemma trajectory_idempotent_bench :
  let s := Bench.after Bench.frame1
             (Bench.after Bench.frame0 (Bench.engine Bench.options)) in
  match trajectory (H := Bench.bench) true s with
  | (Ret frames, s') =>
      length frames = 2%nat
      /\ frames = trajectory_ s'
      /\ s' = set_trajectory_ frames s
      /\ Forall2 same_but_poses (trajectory_ s) frames
      /\ (forall frames2 s2,
            trajectory (H := Bench.bench) true s' = (Ret frames2, s2) ->
            frames2 = frames /\ s2 = s')
  | _ => False
  end.
Proof.
  cbv zeta.
  destruct (trajectory (H := Bench.bench) true
              (Bench.after Bench.frame1
                 (Bench.after Bench.frame0 (Bench.engine Bench.options))))
    as [[frames| |] s'] eqn:Hrun; try (vm_compute in Hrun; discriminate).
  destruct (trajectory_idempotent (H := Bench.bench) true
              (Bench.after Bench.frame1
                 (Bench.after Bench.frame0 (Bench.engine Bench.options)))
              s' frames Hrun) as (Hframes & Hs' & _ & Hsame & Htwice).
  clear Hrun. split; [|exact (conj Hframes (conj Hs' (conj Hsame Htwice)))].
  apply Forall2_length in Hsame. rewrite <- Hsame. reflexivity.
Defined.

(** ** The knots of the map update *)

(** A knot that the loop of [updateMap] passes: its time is not the end
    time of the frame and is not after it. *)
Definition passed (end_steam_time : Time) (var : TrajectoryVar) : Prop :=
  (time var =? end_steam_time) = false
  /\ Double.gtb (time var) end_steam_time = false.

Definition add_knots (vars : list TrajectoryVar) (tr : Interface) : Interface :=
  foldl (fun tr var => Interface_add (knot_of var) tr) tr vars.

(** The loop of [updateMap] over the knots.  It takes the knots in order,
    up to and including the first one at the end time of the frame, or all
    of them when none is at the end time.  It throws exactly when, before
    any knot at the end time, there is a knot after the end time. *)
Theorem updateMap_knots_outcome (vars : list TrajectoryVar) (end_steam_time : Time)
    (update_trajectory : Interface) :
  match updateMap_knots vars end_steam_time update_trajectory with
  | Ret tr =>
      exists k,
        tr = add_knots (take k vars) update_trajectory
        /\ Forall (passed end_steam_time) (take (pred k) vars)
        /\ ((k = length vars /\ Forall (passed end_steam_time) vars)
            \/ exists var, vars !! pred k = Some var /\ (0 < k)%nat
                           /\ (time var =? end_steam_time) = true)
  | Throw what =>
      what = "var.time > end_steam_time, should not happen"%string
      /\ exists j var,
           vars !! j = Some var
           /\ Forall (passed end_steam_time) (take j vars)
           /\ (time var =? end_steam_time) = false
           /\ Double.gtb (time var) end_steam_time = true
  | OutOfBounds _ _ _ => False
  end.
Proof.
  revert update_trajectory. induction vars as [|var vars IH]; intros tr; simpl.
  - exists 0%nat. split; [done|]. split; [constructor|]. left. by split; [|constructor].
  - destruct (time var =? end_steam_time) eqn:Heq.
    { exists 1%nat. simpl. rewrite ?take_0. split; [done|]. split; [constructor|].
      right. exists var. split; [done|]. split; [lia|done]. }
    destruct (Double.gtb (time var) end_steam_time) eqn:Hgt.
    { split; [done|]. exists 0%nat, var. split; [done|]. split; [constructor|]. done. }
    specialize (IH (Interface_add (knot_of var) tr)).
    destruct (updateMap_knots vars end_steam_time _) as [tr'|what|c i n]; [| |done].
    + destruct IH as (k & -> & Hpassed & Hend). exists (S k). split; [done|].
      destruct Hend as [[-> Hall]|(var' & Hvar' & Hk & Heq')].
      * split; [|left; split; [done|]; by constructor].
        simpl. destruct (length vars) eqn:Hlen; [constructor|].
        simpl in *. by constructor.
      * split; [|right; exists var'; split; [|split; [lia|done]]].
        -- destruct k; [lia|]. simpl in *. by constructor.
        -- destruct k; [lia|]. done.
    + destruct IH as (-> & j & var' & Hvar' & Hpassed & Heq' & Hgt').
      split; [done|]. exists (S j), var'. split; [done|]. split; [|done].
      simpl. by constructor.
Qed.

(** ** The priors of the second frame *)

Section Priors.

Context `{External}.

Lemma var_at_run i var s :
  (0 <= i)%Z -> trajectory_vars_ s !! Z.to_nat i = Some var -> var_at i s = (Ret var, s).
Proof.
  intros Hi Hvar. unfold var_at, at_, mbind, M_bind, bind, gets. simpl.
  destruct (Z.leb_spec 0 i); [|lia]. by rewrite Hvar.
Qed.

Lemma frame_at_run i fr s :
  (0 <= i)%Z -> trajectory_ s !! Z.to_nat i = Some fr -> frame_at i s = (Ret fr, s).
Proof.
  intros Hi Hfr. unfold frame_at, at_, mbind, M_bind, bind, gets. simpl.
  destruct (Z.leb_spec 0 i); [|lia]. by rewrite Hfr.
Qed.

(** The knot that [icp] takes as the previous one: the last one. *)
Lemma icp_previous_state_index i s prev s1 :
  icp_previous_state i s = (Ret prev, s1) ->
  exists pf back,
    trajectory_ s !! Z.to_nat (i - 1) = Some pf /\ (1 <= i)%Z
    /\ (0 <= prev_trajectory_var_index prev)%Z
    /\ trajectory_vars_ s !! Z.to_nat (prev_trajectory_var_index prev) = Some back
    /\ last (trajectory_vars_ s) = Some back
    /\ (time back =? end_timestamp pf) = true.
Proof.
  unfold icp_previous_state, use_T_mi_gt. intros Hrun. run_inv.
  destruct (Double.neb _ _) eqn:Hneb; [run_inv|]. run_inv.
  match goal with Hl : trajectory_vars_ s !! _ = Some ?b |- _ =>
    assert (last (trajectory_vars_ s) = Some b) as Hlast
      by (rewrite last_lookup, <- Hl; f_equal; lia)
  end.
  eexists _, _. split; [eassumption|]. split; [lia|].
  apply negb_false_iff in Hneb.
  destruct (use_imu (options_ s)); simpl in *; run_inv; simpl; eauto 10.
Qed.

End Priors.

(** The test "inconsistent timestamp" of [icp], made for the second frame
    after the new knots were added, never throws: when [icp] comes to it,
    the time of the same knot, the last one before the new knots, was found
    equal to the end of the same frame by the test "missing previous scan
    end variable", and neither has changed since.  The step returns and
    leaves the engine as it is.  At the second frame the trajectory it
    returns is the trajectory of the frame with a pose prior, a velocity
    prior and an acceleration prior at the time of that knot, of
    covariances 1e-4, 1e-4 and 1e-1 times the identity; at any other frame
    it is the trajectory of the frame as it was. *)
Theorem icp_state_priors_never_throws `{External}
    (index_frame : Z) (s s1 s2 : SteamLioOdometry) (prev : PreviousState)
    (r : Interface * list VarId * Z) :
  icp_previous_state index_frame s = (Ret prev, s1) ->
  icp_new_states index_frame prev s1 = (Ret r, s2) ->
  exists back,
    last (trajectory_vars_ s) = Some back
    /\ icp_state_priors index_frame prev r.1.1 s2
       = (Ret (if (index_frame =? 1)%Z
               then addAccelerationPrior (time back) (scaled_identity 6 1e-1)
                      (addVelocityPrior (time back) (scaled_identity 6 1e-4)
                         (addPosePrior (time back) (scaled_identity 6 1e-4) r.1.1))
               else r.1.1),
          s2).
Proof.
  intros Hprev Hnew.
  pose proof (preserves_returns (frames_held index_frame) _ _ _ _
                (icp_previous_state_held index_frame index_frame) Hprev) as Hheld1.
  pose proof (preserves_returns (frames_held index_frame) _ _ _ _
                (icp_new_states_held index_frame index_frame prev) Hnew) as Hheld2.
  pose proof (preserves_returns (keeps only_knots) _ _ _ _
                (icp_previous_state_keeps only_knots index_frame eq_refl) Hprev) as Hknots.
  apply keeps_knots in Hknots.
  apply icp_previous_state_index in Hprev
    as (pf & back & Hpf & Hi & Hidx & Hback & Hlast & Heq).
  apply icp_new_states_knots in Hnew as (new & Hnew & _).
  exists back. split; [done|].
  unfold icp_state_priors. destruct (Z.eqb_spec index_frame 1) as [->|Hne]; [|done].
  assert (trajectory_vars_ s2 !! Z.to_nat (prev_trajectory_var_index prev) = Some back)
    as Hback2.
  { rewrite Hnew, Hknots. by apply lookup_app_l_Some. }
  rewrite (bind_run _ _ _ _ _ (var_at_run _ back s2 Hidx Hback2)).
  assert (frames_held 1 s s2) as [_ Hheld] by (by etransitivity).
  destruct (Hheld _ _ Hpf) as (fr0 & Hfr0 & Hst & _). simpl in Hfr0.
  rewrite (bind_run _ _ _ _ _ (frame_at_run 0 fr0 s2 ltac:(lia) Hfr0)).
  apply end_of_stamps in Hst. rewrite Hst. unfold Double.neb. rewrite Heq. done.
Qed.

(** The theorem at the second frame of the bench: the previous knot is the
    second one, and the three priors are added. *)
Lemma icp_state_priors_never_throws_bench :
  let s := Bench.at_icp Bench.frame1
             (Bench.after Bench.frame0 (Bench.engine Bench.options)) in
  match icp_previous_state (H := Bench.bench) 1 s with
  | (Ret prev, s1) =>
      match icp_new_states (H := Bench.bench) 1 prev s1 with
      | (Ret r, s2) =>
          exists back,
            last (trajectory_vars_ s) = Some back
            /\ icp_state_priors (H := Bench.bench) 1 prev r.1.1 s2
               = (Ret (addAccelerationPrior (time back) (scaled_identity 6 1e-1)
                         (addVelocityPrior (time back) (scaled_identity 6 1e-4)
                            (addPosePrior (time back) (scaled_identity 6 1e-4) r.1.1))),
                  s2)
      | _ => False
      end
  | _ => False
  end.
Proof.
  cbv zeta.
  destruct (icp_previous_state (H := Bench.bench) 1
              (Bench.at_icp Bench.frame1
                 (Bench.after Bench.frame0 (Bench.engine Bench.options))))
    as [[prev| |] s1] eqn:Hprev; try (vm_compute in Hprev; discriminate).
  destruct (icp_new_states (H := Bench.bench) 1 prev s1)
    as [[r| |] s2] eqn:Hnew.
  - exact (icp_state_priors_never_throws (H := Bench.bench) 1
             (Bench.at_icp Bench.frame1
                (Bench.after Bench.frame0 (Bench.engine Bench.options)))
             s1 s2 prev r Hprev Hnew).
  - vm_compute in Hprev. injection Hprev as <- <-. vm_compute in Hnew. discriminate.
  - vm_compute in Hprev. injection Hprev as <- <-. vm_compute in Hnew. discriminate.
Defined.
